(** * A weighted-roll chat bot: model of [bot.py] and its properties

    The bot keeps one configuration record per guild in a dictionary that is
    written to a JSON file after every change, checks outcome tables with
    [validate_outcomes], draws an outcome with [weighted_choice] and reacts to
    commands and to reaction events.  Python values are modelled as the code
    meets them: strings are sequences of code points, dictionaries are finite
    maps, exceptions are explicit results, and the calls to the chat platform
    are recorded in a trace. *)

From Stdlib Require Import ZArith NArith Ascii String Decimal DecimalZ.
From stdpp Require Import base option list gmap.

Local Open Scope Z_scope.

(** ** Python strings

    A [str] is a sequence of Unicode code points.  The type is written
    [list N] throughout; literals are given as UTF-8 text and decoded. *)

Module PyStr.

Fixpoint utf8_decode (bs : list N) : list N :=
  match bs with
  | [] => []
  | b :: r =>
      if (b <? 128)%N then b :: utf8_decode r
      else if (b <? 224)%N then
        match r with
        | c1 :: r1 => ((b - 192) * 64 + (c1 - 128))%N :: utf8_decode r1
        | _ => []
        end
      else if (b <? 240)%N then
        match r with
        | c1 :: c2 :: r2 =>
            ((b - 224) * 4096 + (c1 - 128) * 64 + (c2 - 128))%N :: utf8_decode r2
        | _ => []
        end
      else
        match r with
        | c1 :: c2 :: c3 :: r3 =>
            ((b - 240) * 262144 + (c1 - 128) * 4096 + (c2 - 128) * 64 + (c3 - 128))%N
              :: utf8_decode r3
        | _ => []
        end
  end.

Fixpoint bytes_of (s : string) : list N :=
  match s with
  | EmptyString => []
  | String a r => N_of_ascii a :: bytes_of r
  end.

(** The code points of a text given in UTF-8. *)
Definition decode (s : string) : list N := utf8_decode (bytes_of s).

(** [str.isspace] on one character (Unicode 14, as CPython 3.11 ships it). *)
Definition is_space (c : N) : bool :=
  ((9 <=? c) && (c <=? 13) || (28 <=? c) && (c <=? 32) || (c =? 133) || (c =? 160)
   || (c =? 5760) || (8192 <=? c) && (c <=? 8202) || (c =? 8232) || (c =? 8233)
   || (c =? 8239) || (c =? 8287) || (c =? 12288))%N.

Fixpoint lstrip_by (f : N -> bool) (s : list N) : list N :=
  match s with
  | [] => []
  | c :: r => if f c then lstrip_by f r else s
  end.

Definition rstrip_by (f : N -> bool) (s : list N) : list N :=
  rev (lstrip_by f (rev s)).

(** [s.strip()] *)
Definition strip (s : list N) : list N := rstrip_by is_space (lstrip_by is_space s).

(** [s.split(sep)] for a one-character separator. *)
Fixpoint split (sep : N) (s : list N) : list (list N) :=
  match s with
  | [] => [[]]
  | c :: r =>
      if (c =? sep)%N then [] :: split sep r
      else match split sep r with
           | p :: ps => (c :: p) :: ps
           | [] => [[c]]
           end
  end.

(** [sep in s] and [s.split(sep, 1)]: the text before the first separator and
    the text after it, when there is one. *)
Fixpoint split_once (sep : N) (s : list N) : option (list N * list N) :=
  match s with
  | [] => None
  | c :: r =>
      if (c =? sep)%N then Some ([], r)
      else match split_once sep r with
           | Some (a, b) => Some (c :: a, b)
           | None => None
           end
  end.

(** [sep.join(parts)] *)
Fixpoint join (sep : list N) (parts : list (list N)) : list N :=
  match parts with
  | [] => []
  | [p] => p
  | p :: ps => p ++ sep ++ join sep ps
  end.

(** The characters with Unicode property Decimal (category Nd): runs of ten
    consecutive code points, the digit values ascending from the start of
    the run.  Each entry is the first code point and the length of the run. *)
Definition decimal_runs : list (N * N) :=
  [(48, 10); (1632, 10); (1776, 10); (1984, 10); (2406, 10); (2534, 10); (2662, 10);
   (2790, 10); (2918, 10); (3046, 10); (3174, 10); (3302, 10); (3430, 10); (3558, 10);
   (3664, 10); (3792, 10); (3872, 10); (4160, 10); (4240, 10); (6112, 10); (6160, 10);
   (6470, 10); (6608, 10); (6784, 10); (6800, 10); (6992, 10); (7088, 10); (7232, 10);
   (7248, 10); (42528, 10); (43216, 10); (43264, 10); (43472, 10); (43504, 10);
   (43600, 10); (44016, 10); (65296, 10); (66720, 10); (68912, 10); (69734, 10);
   (69872, 10); (69942, 10); (70096, 10); (70384, 10); (70736, 10); (70864, 10);
   (71248, 10); (71360, 10); (71472, 10); (71904, 10); (72016, 10); (72784, 10);
   (73040, 10); (73120, 10); (92768, 10); (92864, 10); (93008, 10); (120782, 50);
   (123200, 10); (123632, 10); (125264, 10); (130032, 10)]%N.

(** The characters that are digits without being decimals (superscripts,
    circled digits and the like): first and last code point of each run. *)
Definition other_digit_runs : list (N * N) :=
  [(178, 179); (185, 185); (4969, 4977); (6618, 6618); (8304, 8304); (8308, 8313);
   (8320, 8329); (9312, 9320); (9332, 9340); (9352, 9360); (9450, 9450); (9461, 9469);
   (9471, 9471); (10102, 10110); (10112, 10120); (10122, 10130); (68160, 68163);
   (69216, 69224); (69714, 69722); (127232, 127242)]%N.

Fixpoint decimal_in (runs : list (N * N)) (c : N) : option Z :=
  match runs with
  | [] => None
  | (a, n) :: rest =>
      if ((a <=? c) && (c <? a + n))%N then Some (Z.of_N ((c - a) mod 10))
      else decimal_in rest c
  end.

(** The digit value of a decimal character. *)
Definition decimal_value (c : N) : option Z := decimal_in decimal_runs c.

Definition is_decimal (c : N) : bool := bool_decide (is_Some (decimal_value c)).

(** [str.isdigit] on one character. *)
Definition is_digit (c : N) : bool :=
  is_decimal c || existsb (fun '(a, b) => (a <=? c) && (c <=? b))%N other_digit_runs.

(** [s.isdigit()]: at least one character and all of them digits. *)
Definition isdigit (s : list N) : bool :=
  match s with
  | [] => false
  | _ => forallb is_digit s
  end.

(** [str(n)] for an integer. *)
Fixpoint uint_codes (d : Decimal.uint) : list N :=
  match d with
  | Decimal.Nil => []
  | Decimal.D0 r => 48%N :: uint_codes r
  | Decimal.D1 r => 49%N :: uint_codes r
  | Decimal.D2 r => 50%N :: uint_codes r
  | Decimal.D3 r => 51%N :: uint_codes r
  | Decimal.D4 r => 52%N :: uint_codes r
  | Decimal.D5 r => 53%N :: uint_codes r
  | Decimal.D6 r => 54%N :: uint_codes r
  | Decimal.D7 r => 55%N :: uint_codes r
  | Decimal.D8 r => 56%N :: uint_codes r
  | Decimal.D9 r => 57%N :: uint_codes r
  end.

Definition int_codes (d : Decimal.int) : list N :=
  match d with
  | Decimal.Pos u => uint_codes u
  | Decimal.Neg u => 45%N :: uint_codes u
  end.

Definition of_int (n : Z) : list N := int_codes (Z.to_int n).

End PyStr.

(** A literal stands for its code points. *)
Notation "'lit' s" :=
  (ltac:(let v := eval vm_compute in (PyStr.decode s%string) in exact v))
  (at level 10, s at level 0, only parsing).

(** ** Results of Python code *)

(** The failures of the platform client: [discord.NotFound] and
    [discord.Forbidden] are subclasses of [discord.HTTPException]. *)
Inductive api_error := NotFound | Forbidden | HTTPException.

Inductive exn :=
| KeyError
| TypeError
| IndexError
| ValueError
| Discord (e : api_error).

(** A call returns a value or raises.  [Unmodelled] marks the runs that
    leave the model: arithmetic on a weight, or the text of a name, that is
    neither an [int] nor a [str]. *)
Inductive result (A : Type) :=
| Ret (a : A)
| Raise (e : exn)
| Unmodelled.

Arguments Ret {A} a.
Arguments Raise {A} e.
Arguments Unmodelled {A}.

#[export] Instance api_error_eq_dec : EqDecision api_error.
Proof. solve_decision. Defined.
#[export] Instance exn_eq_dec : EqDecision exn.
Proof. solve_decision. Defined.
#[export] Instance result_eq_dec {A} `{EqDecision A} : EqDecision (result A).
Proof. solve_decision. Defined.

(** A function applied to what a call returns. *)
#[export] Instance result_fmap : FMap result := fun A B f r =>
  match r with
  | Ret a => Ret (f a)
  | Raise e => Raise e
  | Unmodelled => Unmodelled
  end.

(** [int(s)], base ten.  Leading and trailing blanks are skipped (the ASCII
    blanks of C and the Unicode spaces above U+007F), one sign is allowed,
    decimal characters of any script count, and underscores may separate
    digits.  More than [int_max_str_digits] digits are refused. *)
Module PyInt.

Definition int_max_str_digits : N := 4300.

Definition int_space (c : N) : bool :=
  ((9 <=? c) && (c <=? 13) || (c =? 32) || (128 <=? c) && PyStr.is_space c)%N.

Fixpoint digits (acc : Z) (count : N) (s : list N) : option (Z * N * list N) :=
  match s with
  | [] => Some (acc, count, [])
  | c :: r =>
      match PyStr.decimal_value c with
      | Some d => digits (10 * acc + d) (count + 1)%N r
      | None =>
          if (c =? 95)%N then
            match r with
            | c' :: r' =>
                match PyStr.decimal_value c' with
                | Some d => digits (10 * acc + d) (count + 1)%N r'
                | None => None
                end
            | [] => None
            end
          else Some (acc, count, s)
      end
  end.

Definition unsigned (s : list N) : result Z :=
  match s with
  | c :: r =>
      match PyStr.decimal_value c with
      | Some d =>
          match digits d 1%N r with
          | Some (v, n, rest) =>
              if (int_max_str_digits <? n)%N then Raise ValueError
              else if forallb int_space rest then Ret v
              else Raise ValueError
          | None => Raise ValueError
          end
      | None => Raise ValueError
      end
  | [] => Raise ValueError
  end.

Definition int (s : list N) : result Z :=
  match PyStr.lstrip_by int_space s with
  | c :: r =>
      if (c =? 45)%N then
        match unsigned r with Ret v => Ret (- v) | e => e end
      else if (c =? 43)%N then unsigned r
      else unsigned (c :: r)
  | [] => Raise ValueError
  end.

(** The least absolute value with more than [int_max_str_digits] digits. *)
Definition str_limit : Z := 10 ^ Z.of_N int_max_str_digits.

(** [str(n)], and [n] in an f-string, for an integer the program has
    computed: the same limit makes the conversion raise [ValueError] when
    [n] has more than [int_max_str_digits] digits. *)
Definition str (n : Z) : result (list N) :=
  if str_limit <=? Z.abs n then Raise ValueError else Ret (PyStr.of_int n).

#[global] Arguments str_limit : simpl never.
#[global] Arguments str : simpl never.

End PyInt.

(** ** Values and outcome tables *)

(** The values an outcome dictionary can hold.  A [bool] is an [int] in
    Python ([isinstance(True, int)] holds and [True] counts as 1); [VOther]
    stands for a value of any other type (a float, a list, a dictionary). *)
Inductive value :=
| VNone
| VBool (b : bool)
| VInt (z : Z)
| VStr (s : list N)
| VOther.

#[export] Instance value_eq_dec : EqDecision value.
Proof. solve_decision. Defined.

(** [isinstance(v, int)], with the integer it stands for. *)
Definition as_int (v : value) : option Z :=
  match v with
  | VInt z => Some z
  | VBool b => Some (if b then 1 else 0)
  | _ => None
  end.

Definition k_name : list N := lit "name".
Definition k_weight : list N := lit "weight".

(** [{"name": name, "weight": weight}] *)
Definition mk_outcome (name : list N) (weight : Z) : gmap (list N) value :=
  <[k_name := VStr name]> {[ k_weight := VInt weight ]}.

Module Validate.

Definition msg_empty : list N := lit "You must provide at least one outcome.".
Definition msg_keys : list N := lit "Each outcome must have 'name' and 'weight'.".
Definition msg_name : list N := lit "Outcome name must be a non-empty string.".
Definition msg_weight : list N := lit "Outcome weight must be a non-negative integer.".
Definition msg_total (total : list N) : list N :=
  lit "Outcome weights must total 100 (currently " ++ total ++ lit ").".
Definition msg_ok : list N := lit "OK".

End Validate.

(** [return False, f"Outcome weights must total 100 (currently {total})."]:
    building the message raises when the sum is too long to print. *)
Definition refuse_total (total : Z) : result (bool * list N) :=
  match PyInt.str total with
  | Ret shown => Ret (false, Validate.msg_total shown)
  | Raise e => Raise e
  | Unmodelled => Unmodelled
  end.

(** The [for] loop of [validate_outcomes] with the two statements after it;
    [total] is the sum so far. *)
Fixpoint validate_loop (outcomes : list (gmap (list N) value)) (total : Z)
  : result (bool * list N) :=
  match outcomes with
  | [] => if negb (total =? 100) then refuse_total total else Ret (true, Validate.msg_ok)
  | o :: rest =>
      match o !! k_name, o !! k_weight with
      | Some n, Some w =>
          match n with
          | VStr s =>
              match PyStr.strip s with
              | [] => Ret (false, Validate.msg_name)
              | _ :: _ =>
                  match as_int w with
                  | Some z =>
                      if z <? 0 then Ret (false, Validate.msg_weight)
                      else validate_loop rest (total + z)
                  | None => Ret (false, Validate.msg_weight)
                  end
              end
          | _ => Ret (false, Validate.msg_name)
          end
      | _, _ => Ret (false, Validate.msg_keys)
      end
  end.

Definition validate_outcomes (outcomes : list (gmap (list N) value))
  : result (bool * list N) :=
  match outcomes with
  | [] => Ret (false, Validate.msg_empty)
  | _ :: _ => validate_loop outcomes 0
  end.

(** The [for] loop of [weighted_choice] for the sample [r]: [Ret (Some n)]
    when the loop returns the name [n], [Ret None] when it runs to its end. *)
Fixpoint choice_loop (r cumulative : Z) (outcomes : list (gmap (list N) value))
  : result (option value) :=
  match outcomes with
  | [] => Ret None
  | o :: rest =>
      match o !! k_weight with
      | None => Raise KeyError
      | Some w =>
          match w with
          | VInt _ | VBool _ =>
              let cumulative := cumulative + default 0 (as_int w) in
              if r <? cumulative then
                match o !! k_name with
                | Some n => Ret (Some n)
                | None => Raise KeyError
                end
              else choice_loop r cumulative rest
          | VNone | VStr _ => Raise TypeError
          | VOther => Unmodelled
          end
      end
  end.

(** [outcomes[-1]["name"]] *)
Definition last_name (outcomes : list (gmap (list N) value)) : result value :=
  match last outcomes with
  | None => Raise IndexError
  | Some o =>
      match o !! k_name with
      | Some n => Ret n
      | None => Raise KeyError
      end
  end.

(** [weighted_choice] once [secrets.randbelow(100)] has delivered [r]. *)
Definition weighted_choice_from (r : Z) (outcomes : list (gmap (list N) value))
  : result value :=
  match choice_loop r 0 outcomes with
  | Ret (Some n) => Ret n
  | Ret None => last_name outcomes
  | Raise e => Raise e
  | Unmodelled => Unmodelled
  end.

(** [roll_d100] once [secrets.randbelow(100)] has delivered [r]. *)
Definition roll_d100_from (r : Z) : Z := r + 1.

(** ** Guild configuration *)

(** The dictionary [default_guild_config] builds and the commands update:
    the three ids hold [None] or an [int]. *)
Record GuildConfig := {
  trigger_emoji : list N;
  trigger_message_id : option Z;
  trigger_channel_id : option Z;
  mod_channel_id : option Z;
  outcomes : list (gmap (list N) value)
}.

Definition default_guild_config : GuildConfig :=
  {| trigger_emoji := lit "🎲";
     trigger_message_id := None;
     trigger_channel_id := None;
     mod_channel_id := None;
     outcomes := [mk_outcome (lit "powers, curse") 25;
                  mk_outcome (lit "powers, blessing") 25;
                  mk_outcome (lit "no powers") 50] |}.

Definition guild_key (guild_id : Z) : list N := PyStr.of_int guild_id.

(** The truth value of an id: [None] and [0] are false. *)
Definition truthy (x : option Z) : bool :=
  match x with
  | Some z => negb (z =? 0)
  | None => false
  end.

(** ** The chat platform *)

Record user := { user_id : Z }.
Record channel := { channel_id : Z; is_text_channel : bool }.
Record message := { message_id : Z; author_id : Z }.
Record member := { manage_messages : bool; administrator : bool }.

Record guild := {
  guild_id : Z;
  guild_name : list N;
  get_member : Z -> option user;
  get_channel : Z -> option channel
}.

Record interaction := { i_guild : option guild; i_user : option member }.

(** [discord.RawReactionActionEvent]; [p_emoji] is [str(payload.emoji)]. *)
Record payload := {
  p_user_id : Z;
  p_guild_id : option Z;
  p_channel_id : Z;
  p_message_id : Z;
  p_emoji : list N
}.

(** The requests sent to the platform. *)
Inductive call :=
| FetchUser (uid : Z)
| UserSend (uid : Z) (text : list N)
| ChannelSend (cid : Z) (text : list N)
| FetchMessage (cid mid : Z)
| AddReaction (cid mid : Z) (emoji : list N)
| RemoveReaction (cid mid : Z) (emoji : list N) (uid : Z)
| MessageEdit (cid mid : Z) (text : list N)
| Respond (text : list N).

(** What a run does to the outside, in order: writes of the configuration
    file, samples taken from [secrets], requests to the platform. *)
Inductive event :=
| SaveConfig (cfg : gmap (list N) GuildConfig)
| SecretsRandbelow (n r : Z)
| Called (c : call).

(** The surroundings of a run: what the platform answers and what the
    random source delivers.  [api c = None] when the request [c] succeeds. *)
Record world := {
  bot_user_id : Z;
  get_guild : Z -> option guild;
  api : call -> option api_error;
  fetched_user : Z -> user;
  fetched_message : Z -> Z -> message;
  sent_message : Z -> list N -> message;
  entropy : nat -> Z
}.

(** The process: the global [cfg], the number of samples drawn so far and
    the trace of events. *)
Record state := {
  cfg : gmap (list N) GuildConfig;
  drawn : nat;
  trace : list event
}.

(** ** Effects *)

Definition M (A : Type) : Type := world -> state -> result A * state.

#[export] Instance M_ret : MRet M := fun A a _ st => (Ret a, st).

#[export] Instance M_bind : MBind M := fun A B f m w st =>
  match m w st with
  | (Ret a, st') => f a w st'
  | (Raise e, st') => (Raise e, st')
  | (Unmodelled, st') => (Unmodelled, st')
  end.

Definition lift {A} (r : result A) : M A := fun _ st => (r, st).

(** Reading the surroundings. *)
Definition ask : M world := fun w st => (Ret w, st).

Definition emit (e : event) : M unit := fun _ st =>
  (Ret tt, {| cfg := cfg st; drawn := drawn st; trace := trace st ++ [e] |}).

Definition request (c : call) : M unit := fun w st =>
  let st' := {| cfg := cfg st; drawn := drawn st; trace := trace st ++ [Called c] |} in
  match api w c with
  | None => (Ret tt, st')
  | Some e => (Raise (Discord e), st')
  end.

(** [try: body except <the exceptions in catches>: handler] *)
Definition try_except {A} (body : M A) (catches : exn -> bool) (handler : M A) : M A :=
  fun w st =>
    match body w st with
    | (Raise e, st') => if catches e then handler w st' else (Raise e, st')
    | r => r
    end.

Definition is_discord (e : exn) : bool :=
  match e with Discord _ => true | _ => false end.
Definition is_not_found (e : exn) : bool :=
  match e with Discord NotFound => true | _ => false end.
Definition is_value_error (e : exn) : bool :=
  match e with ValueError => true | _ => false end.

(** [secrets.randbelow(n)] *)
Definition randbelow (n : Z) : M Z := fun w st =>
  let r := entropy w (drawn st) `mod` n in
  (Ret r, {| cfg := cfg st; drawn := S (drawn st); trace := trace st ++ [SecretsRandbelow n r] |}).

Definition roll_d100 : M Z := r ← randbelow 100; mret (roll_d100_from r).

Definition weighted_choice (outcomes : list (gmap (list N) value)) : M value :=
  r ← randbelow 100; lift (weighted_choice_from r outcomes).

(** The two draws of the trigger, lines 310 and 311:
    [d100 = roll_d100(); outcome = weighted_choice(gconf["outcomes"])]. *)
Definition draw_both (outcomes : list (gmap (list N) value)) : M (Z * value) :=
  d100 ← roll_d100; outcome ← weighted_choice outcomes; mret (d100, outcome).

(** ** The random source as a distribution

    [secrets.randbelow(n)] reads the random source of the operating system:
    it delivers each number of [[0,n)] with the same chance, whatever it
    delivered before and whatever the state of the program.  That is what
    the module promises; the model takes it as the description of the
    source.  [samples n k] lists the sequences of [k] samples below [n], all
    equally likely. *)
Fixpoint samples (n : Z) (k : nat) : list (list Z) :=
  match k with
  | O => [[]]
  | S k => r ← seqZ 0 n; (fun rs => r :: rs) <$> samples n k
  end.

(** The surroundings [w] with the source delivering [rs] from its [d]-th
    sample on; the earlier samples and the platform stay as they are. *)
Definition with_samples (w : world) (d : nat) (rs : list Z) : world :=
  {| bot_user_id := bot_user_id w;
     get_guild := get_guild w;
     api := api w;
     fetched_user := fetched_user w;
     fetched_message := fetched_message w;
     sent_message := sent_message w;
     entropy := fun i =>
       if (d <=? i)%nat then default (entropy w i) (rs !! (i - d)%nat) else entropy w i |}.

(** The law of a computation that takes [k] samples below [n] when run in
    state [st]: its results, one for each of the equally likely sequences of
    samples. *)
Definition law {A} (m : M A) (w : world) (st : state) (n : Z) (k : nat)
  : list (result A) :=
  (fun rs => (m (with_samples w (drawn st) rs) st).1) <$> samples n k.

(** In how many of the cases listed in [l] the result is [x]. *)
Definition cases {A} `{EqDecision A} (x : A) (l : list A) : nat :=
  length (filter (fun y => x = y) l).

(** ** The configuration store *)

(** [load_config]: the mapping in the file, the empty one without a file.
    The file is taken to hold a JSON object; its records are returned as
    they are, whatever they look like ([R]), without any check. *)
Definition load_config {R} (file : option (gmap (list N) R)) : gmap (list N) R :=
  default ∅ file.

(** A value of a record in the file: [null], an integer, a string, a list
    of outcome dictionaries, or anything else. *)
Inductive field :=
| FNull
| FInt (z : Z)
| FStr (s : list N)
| FOutcomes (os : list (gmap (list N) value))
| FOther.

(** The dictionary of one guild as [json.load] returns it: it need not have
    every key, and a key can hold any value. *)
Definition raw_record : Type := gmap (list N) field.

Definition as_text (f : field) : option (list N) :=
  match f with FStr s => Some s | _ => None end.
Definition as_id (f : field) : option (option Z) :=
  match f with FNull => Some None | FInt z => Some (Some z) | _ => None end.
Definition as_outcomes (f : field) : option (list (gmap (list N) value)) :=
  match f with FOutcomes os => Some os | _ => None end.

(** The record the handlers work on, for a dictionary that has the five keys
    of [default_guild_config] with values of the kinds the bot writes: a
    string, three ids that are [None] or an [int], a list of outcomes.  The
    handlers are modelled on such records only. *)
Definition record_of (d : raw_record) : option GuildConfig :=
  e ← d !! lit "trigger_emoji" ≫= as_text;
  m ← d !! lit "trigger_message_id" ≫= as_id;
  c ← d !! lit "trigger_channel_id" ≫= as_id;
  l ← d !! lit "mod_channel_id" ≫= as_id;
  os ← d !! lit "outcomes" ≫= as_outcomes;
  Some {| trigger_emoji := e; trigger_message_id := m; trigger_channel_id := c;
          mod_channel_id := l; outcomes := os |}.

(** The records of a mapping whose dictionaries are all complete. *)
Definition records (raw : gmap (list N) raw_record) : option (gmap (list N) GuildConfig) :=
  if forallb (fun kd => bool_decide (is_Some (record_of kd.2))) (map_to_list raw)
  then Some (omap record_of raw)
  else None.

(** [save_config(cfg)].  The write itself is taken to succeed: the event
    records the mapping handed to [json.dump].  [writable] below says for
    which mappings the encoding cannot fail. *)
Definition save_config : M unit := fun w st => emit (SaveConfig (cfg st)) w st.

(** A string that the file, opened with [encoding="utf-8"], can take from
    [json.dump(..., ensure_ascii=False)]: one without a surrogate code
    point. *)
Definition utf8_str (s : list N) : bool :=
  forallb (fun c => (c <? 55296)%N || (57343 <? c)%N) s.

(** A mapping all of whose strings can be encoded.  What a [VOther] value
    holds is not modelled, so a mapping with such a value does not count. *)
Definition writable_value (v : value) : bool :=
  match v with
  | VStr s => utf8_str s
  | VOther => false
  | _ => true
  end.
Definition writable_outcome (o : gmap (list N) value) : bool :=
  forallb (fun kv => utf8_str kv.1 && writable_value kv.2) (map_to_list o).
Definition writable_record (g : GuildConfig) : bool :=
  utf8_str (trigger_emoji g) && forallb writable_outcome (outcomes g).
Definition writable (c : gmap (list N) GuildConfig) : bool :=
  forallb (fun kg => utf8_str kg.1 && writable_record kg.2) (map_to_list c).

(** An event that is not a write, or the write of a mapping that can be
    encoded. *)
Definition written (e : event) : bool :=
  match e with
  | SaveConfig c => writable c
  | _ => true
  end.

(** The file after a run that started with [file], when every write of the
    run went through: the last mapping written, or [file]. *)
Definition file_after (file : option (gmap (list N) GuildConfig)) (tr : list event)
  : option (gmap (list N) GuildConfig) :=
  foldl (fun f e => match e with SaveConfig c => Some c | _ => f end) file tr.

Definition get_guild_config (gid : Z) : M GuildConfig := fun w st =>
  let k := guild_key gid in
  match cfg st !! k with
  | None =>
      let st1 := {| cfg := <[k := default_guild_config]> (cfg st);
                    drawn := drawn st; trace := trace st |} in
      (save_config ≫= fun _ => mret default_guild_config) w st1
  | Some gconf => (Ret gconf, st)
  end.

(** [gconf[field] = x] on the record of guild [gid]: the dictionary returned
    by [get_guild_config] is the one stored in [cfg]. *)
Definition update_guild (gid : Z) (f : GuildConfig -> GuildConfig) : M unit := fun _ st =>
  (Ret tt, {| cfg := alter f (guild_key gid) (cfg st); drawn := drawn st; trace := trace st |}).

Definition set_mod_channel (x : option Z) (g : GuildConfig) : GuildConfig :=
  {| trigger_emoji := trigger_emoji g; trigger_message_id := trigger_message_id g;
     trigger_channel_id := trigger_channel_id g; mod_channel_id := x;
     outcomes := outcomes g |}.
Definition set_trigger_emoji (x : list N) (g : GuildConfig) : GuildConfig :=
  {| trigger_emoji := x; trigger_message_id := trigger_message_id g;
     trigger_channel_id := trigger_channel_id g; mod_channel_id := mod_channel_id g;
     outcomes := outcomes g |}.
Definition set_trigger (mid cid : option Z) (g : GuildConfig) : GuildConfig :=
  {| trigger_emoji := trigger_emoji g; trigger_message_id := mid;
     trigger_channel_id := cid; mod_channel_id := mod_channel_id g;
     outcomes := outcomes g |}.
Definition set_outcomes (x : list (gmap (list N) value)) (g : GuildConfig) : GuildConfig :=
  {| trigger_emoji := trigger_emoji g; trigger_message_id := trigger_message_id g;
     trigger_channel_id := trigger_channel_id g; mod_channel_id := mod_channel_id g;
     outcomes := x |}.

(** ** Texts *)

Module Text.

Import PyStr.

Definition nl : list N := [10%N].

(** [str(v)], as an f-string renders a value. *)
Definition of_value (v : value) : result (list N) :=
  match v with
  | VStr s => Ret s
  | VInt z => Ret (of_int z)
  | VBool b => Ret (if b then lit "True" else lit "False")
  | VNone => Ret (lit "None")
  | VOther => Unmodelled
  end.

Definition of_id (x : option Z) : list N :=
  match x with Some z => of_int z | None => lit "None" end.

Definition user_mention (uid : Z) : list N := lit "<@" ++ of_int uid ++ lit ">".
Definition channel_mention (cid : Z) : list N := lit "<#" ++ of_int cid ++ lit ">".

Definition use_in_server : list N := lit "Use this in a server.".
Definition need_mod : list N := lit "You need Manage Messages (or Admin) to do this.".
Definition mod_channel_set (cid : Z) : list N :=
  lit "✅ Mod log channel set to " ++ channel_mention cid.
Definition emoji_set (emoji : list N) : list N := lit "✅ Trigger emoji set to: " ++ emoji.
Definition bad_format : list N := lit "❌ Bad format. Use: name=weight; ...".
Definition weight_not_int (p : list N) : list N :=
  lit "❌ Weight must be an integer: `" ++ p ++ lit "`".
Definition invalid (msg : list N) : list N := lit "❌ " ++ msg.
Definition odds_line (name weight : list N) : list N :=
  lit "- **" ++ name ++ lit "**: " ++ weight ++ lit "%".
Definition odds_updated (parsed : list (list N * Z)) : list N :=
  lit "✅ Odds updated:" ++ nl
    ++ join nl (map (fun '(name, weight) => odds_line name (of_int weight)) parsed).
Definition roller (message emoji : list N) : list N :=
  message ++ nl ++ nl ++ lit "React with " ++ emoji ++ lit " to roll a **d100**.".
Definition roller_posted (cid mid : Z) (emoji : list N) : list N :=
  lit "✅ Roller posted in " ++ channel_mention cid ++ lit " (message id: `" ++ of_int mid
    ++ lit "`)" ++ nl ++ lit "Users must react with " ++ emoji ++ lit ".".
Definition show (emoji : list N) (mid mod_ch : option Z) (pretty : list N) : list N :=
  lit "**Trigger emoji:** " ++ emoji ++ nl
    ++ lit "**Trigger message id:** " ++ of_id mid ++ nl
    ++ lit "**Mod channel:** "
    ++ (if truthy mod_ch then lit "<#" ++ of_id mod_ch ++ lit ">" else lit "Not set")
    ++ nl ++ nl ++ lit "**Odds:**" ++ nl ++ pretty.
Definition mod_channel_unset : list N := lit "❌ Mod channel is not set. Use /setmodchannel.".
Definition mod_channel_missing : list N := lit "❌ Mod channel not found.".
Definition id_not_number : list N := lit "❌ message_id must be a number.".
Definition message_missing : list N :=
  lit "❌ That message ID wasn't found in the mod channel.".
Definition not_my_message : list N := lit "❌ I can only edit my own log messages.".
Definition edited : list N := lit "✅ Edited the roll log message.".
Definition dm (d100 : Z) (outcome emoji guild : list N) : list N :=
  lit "🎲 **Your roll:** " ++ of_int d100 ++ lit "/100" ++ nl
    ++ lit "✨ **Outcome:** " ++ outcome ++ nl ++ nl
    ++ lit "(Triggered by reacting with " ++ emoji ++ lit " in **" ++ guild ++ lit "**.)".
Definition roll_log (uid d100 : Z) (outcome : list N) (dm_ok : bool) (mid cid : Z) : list N :=
  lit "📋 **Roll Log**" ++ nl
    ++ lit "User: " ++ user_mention uid ++ lit " (`" ++ of_int uid ++ lit "`)" ++ nl
    ++ lit "Roll: **" ++ of_int d100 ++ lit "**/100" ++ nl
    ++ lit "Outcome: **" ++ outcome ++ lit "**" ++ nl
    ++ lit "DM delivered: " ++ (if dm_ok then lit "✅" else lit "❌ (user has DMs closed?)") ++ nl
    ++ lit "Trigger message: `" ++ of_int mid ++ lit "` in <#" ++ of_int cid ++ lit ">".

End Text.

(** ** Commands *)

Definition respond (text : list N) : M unit := request (Respond text).

Definition is_mod (i : interaction) : bool :=
  match i_guild i, i_user i with
  | Some _, Some u => manage_messages u || administrator u
  | _, _ => false
  end.

(** The checks every moderator command starts with. *)
Definition as_moderator (i : interaction) (body : guild -> M unit) : M unit :=
  match i_guild i with
  | None => respond Text.use_in_server
  | Some g => if negb (is_mod i) then respond Text.need_mod else body g
  end.

Definition setmodchannel (i : interaction) (ch : channel) : M unit :=
  as_moderator i (fun g =>
    _ ← get_guild_config (guild_id g);
    _ ← update_guild (guild_id g) (set_mod_channel (Some (channel_id ch)));
    _ ← save_config;
    respond (Text.mod_channel_set (channel_id ch))).

Definition setemoji (i : interaction) (emoji : list N) : M unit :=
  as_moderator i (fun g =>
    _ ← get_guild_config (guild_id g);
    _ ← update_guild (guild_id g) (set_trigger_emoji emoji);
    _ ← save_config;
    respond (Text.emoji_set emoji)).

(** [[p.strip() for p in odds.split(";") if p.strip()]] *)
Definition odds_parts (odds : list N) : list (list N) :=
  filter (fun p => p ≠ []) (map PyStr.strip (PyStr.split 59 odds)).

(** The parsing loop of [setodds]: the text of an early reply, or the list
    [parsed] of names and weights. *)
Fixpoint parse_odds (parts : list (list N)) (parsed : list (list N * Z))
  : result (list N + list (list N * Z)) :=
  match parts with
  | [] => Ret (inr parsed)
  | p :: rest =>
      match PyStr.split_once 61 p with
      | None => Ret (inl Text.bad_format)
      | Some (name, weight_str) =>
          let name := PyStr.strip name in
          let weight_str := PyStr.strip weight_str in
          if negb (PyStr.isdigit weight_str) then Ret (inl (Text.weight_not_int p))
          else
            match PyInt.int weight_str with
            | Ret weight => parse_odds rest (parsed ++ [(name, weight)])
            | Raise e => Raise e
            | Unmodelled => Unmodelled
            end
      end
  end.

(** The dictionaries [{"name": name, "weight": weight}] of [parsed]. *)
Definition entries (parsed : list (list N * Z)) : list (gmap (list N) value) :=
  map (fun '(name, weight) => mk_outcome name weight) parsed.

Definition setodds (i : interaction) (odds : list N) : M unit :=
  as_moderator i (fun g =>
    r ← lift (parse_odds (odds_parts odds) []);
    match r with
    | inl text => respond text
    | inr parsed =>
        v ← lift (validate_outcomes (entries parsed));
        let '(ok, msg) := v in
        if negb ok then respond (Text.invalid msg)
        else
          _ ← get_guild_config (guild_id g);
          _ ← update_guild (guild_id g) (set_outcomes (entries parsed));
          _ ← save_config;
          respond (Text.odds_updated parsed)
    end).

Definition postroller (i : interaction) (ch : channel) (message_text : list N) : M unit :=
  as_moderator i (fun g =>
    gconf ← get_guild_config (guild_id g);
    let emoji := trigger_emoji gconf in
    let text := Text.roller message_text emoji in
    _ ← request (ChannelSend (channel_id ch) text);
    w ← ask;
    let roller_msg := sent_message w (channel_id ch) text in
    _ ← try_except (request (AddReaction (channel_id ch) (message_id roller_msg) emoji))
          is_discord (mret tt);
    _ ← update_guild (guild_id g)
          (set_trigger (Some (message_id roller_msg)) (Some (channel_id ch)));
    _ ← save_config;
    respond (Text.roller_posted (channel_id ch) (message_id roller_msg) emoji)).

(** One line of [showodds] per outcome. *)
Fixpoint odds_lines (outs : list (gmap (list N) value)) : result (list (list N)) :=
  match outs with
  | [] => Ret []
  | o :: rest =>
      match o !! k_name, o !! k_weight with
      | Some n, Some w =>
          match Text.of_value n, Text.of_value w, odds_lines rest with
          | Ret n', Ret w', Ret ls => Ret (Text.odds_line n' w' :: ls)
          | Ret _, Ret _, r => r
          | _, _, _ => Unmodelled
          end
      | _, _ => Raise KeyError
      end
  end.

Definition showodds (i : interaction) : M unit :=
  match i_guild i with
  | None => respond Text.use_in_server
  | Some g =>
      gconf ← get_guild_config (guild_id g);
      ls ← lift (odds_lines (outcomes gconf));
      respond (Text.show (trigger_emoji gconf) (trigger_message_id gconf)
                 (mod_channel_id gconf) (PyStr.join Text.nl ls))
  end.

(** [editrolllog] from the lookup of the moderator channel on. *)
Definition edit_log (g : guild) (gconf : GuildConfig) (message_id_arg new_text : list N)
  : M unit :=
  if negb (truthy (mod_channel_id gconf)) then respond Text.mod_channel_unset
  else
    match mod_channel_id gconf ≫= get_channel g with
    | Some ch =>
        if negb (is_text_channel ch) then respond Text.mod_channel_missing
        else
          match PyInt.int message_id_arg with
          | Raise ValueError => respond Text.id_not_number
          | Raise e => lift (Raise e)
          | Unmodelled => lift Unmodelled
          | Ret mid =>
              fetched ← try_except
                          (_ ← request (FetchMessage (channel_id ch) mid);
                           w ← ask;
                           mret (Some (fetched_message w (channel_id ch) mid)))
                          is_not_found
                          (_ ← respond Text.message_missing; mret None);
              match fetched with
              | None => mret tt
              | Some msg =>
                  w ← ask;
                  if negb (author_id msg =? bot_user_id w) then respond Text.not_my_message
                  else
                    _ ← request (MessageEdit (channel_id ch) mid new_text);
                    respond Text.edited
              end
          end
    | None => respond Text.mod_channel_missing
    end.

Definition editrolllog (i : interaction) (message_id_arg new_text : list N) : M unit :=
  as_moderator i (fun g =>
    gconf ← get_guild_config (guild_id g);
    edit_log g gconf message_id_arg new_text).

(** ** The reaction trigger *)

(** The part of [on_raw_reaction_add] after the checks: resolve the user,
    draw, notify, log, clean up. *)
Definition dispatch (p : payload) (g : guild) (gconf : GuildConfig) (mid cid : Z) : M unit :=
  u ← match get_member g (p_user_id p) with
      | Some m => mret m
      | None =>
          _ ← request (FetchUser (p_user_id p));
          w ← ask; mret (fetched_user w (p_user_id p))
      end;
  d100 ← roll_d100;
  outcome ← weighted_choice (outcomes gconf);
  shown ← lift (Text.of_value outcome);
  dm_ok ← try_except
            (_ ← request (UserSend (user_id u)
                            (Text.dm d100 shown (trigger_emoji gconf) (guild_name g)));
             mret true)
            is_discord (mret false);
  _ ← (if truthy (mod_channel_id gconf) then
         match mod_channel_id gconf ≫= get_channel g with
         | Some mod_ch =>
             if is_text_channel mod_ch then
               request (ChannelSend (channel_id mod_ch)
                          (Text.roll_log (user_id u) d100 shown dm_ok mid cid))
             else mret tt
         | None => mret tt
         end
       else mret tt);
  try_except
    (match get_channel g (p_channel_id p) with
     | Some ch =>
         if is_text_channel ch then
           _ ← request (FetchMessage (channel_id ch) (p_message_id p));
           request (RemoveReaction (channel_id ch) (p_message_id p) (p_emoji p) (user_id u))
         else mret tt
     | None => mret tt
     end)
    (fun _ => true) (mret tt).

(** The checks of [on_raw_reaction_add] that follow [get_guild_config], and
    the dispatch when they pass. *)
Definition check_trigger (p : payload) (g : guild) (gconf : GuildConfig) : M unit :=
  if negb (truthy (trigger_message_id gconf)) || negb (truthy (trigger_channel_id gconf))
  then mret tt
  else
    match trigger_message_id gconf, trigger_channel_id gconf with
    | Some mid, Some cid =>
        if negb (p_message_id p =? mid) || negb (p_channel_id p =? cid) then mret tt
        else if bool_decide (p_emoji p ≠ trigger_emoji gconf) then mret tt
        else dispatch p g gconf mid cid
    | _, _ => mret tt
    end.

Definition on_raw_reaction_add (p : payload) : M unit :=
  w ← ask;
  if p_user_id p =? bot_user_id w then mret tt
  else
    match (if truthy (p_guild_id p) then p_guild_id p ≫= get_guild w else None) with
    | None => mret tt
    | Some g =>
        gconf ← get_guild_config (guild_id g);
        check_trigger p g gconf
    end.

(** ** Vocabulary of the properties *)

(** A string that is empty or holds blanks only. *)
Definition blank (s : list N) : Prop := Forall (fun c => PyStr.is_space c = true) s.

(** An entry as [validate_outcomes] wants it: a name that is a string with a
    character that is not a blank, and a weight that is an integer (a
    [bool] counts, as 0 or 1) and not negative. *)
Definition well_formed (o : gmap (list N) value) : Prop :=
  ∃ name w z, o !! k_name = Some (VStr name) ∧ ¬ blank name
              ∧ o !! k_weight = Some w ∧ as_int w = Some z ∧ 0 ≤ z.

(** The name and the integer weight of an entry that has both. *)
Definition shape (o : gmap (list N) value) : option (value * Z) :=
  n ← o !! k_name; z ← o !! k_weight ≫= as_int; Some (n, z).

(** The table of names and weights of a list of such entries. *)
Definition table (outcomes : list (gmap (list N) value)) : option (list (value * Z)) :=
  mapM shape outcomes.

(** Every entry has a weight, and it is an integer. *)
Definition integer_weights (outcomes : list (gmap (list N) value)) : Prop :=
  Forall (fun o => ∃ w z, o !! k_weight = Some w ∧ as_int w = Some z) outcomes.

(** The sum of the weights of a table. *)
Definition total (tbl : list (value * Z)) : Z := foldr (fun nw s => nw.2 + s) 0 tbl.

(** The cumulative sum after the first [i] entries. *)
Definition cumulative_upto (tbl : list (value * Z)) (i : nat) : Z := total (take i tbl).

(** Entry [i] is the first one whose cumulative sum exceeds [r]. *)
Definition first_hit (tbl : list (value * Z)) (r : Z) (i : nat) : Prop :=
  (i < length tbl)%nat ∧ r < cumulative_upto tbl (S i)
  ∧ ∀ j, (j < i)%nat → cumulative_upto tbl (S j) ≤ r.

(** The sum [validate_outcomes] compares with 100. *)
Definition total_weight (outcomes : list (gmap (list N) value)) : Z :=
  foldr (fun o s => default 0 (o !! k_weight ≫= as_int) + s) 0 outcomes.

(** The table A 25, B 25, C 50. *)
Definition table_abc : list (gmap (list N) value) :=
  [mk_outcome (lit "A") 25; mk_outcome (lit "B") 25; mk_outcome (lit "C") 50].

(** The events a run added to the trace. *)
Definition added (st st' : state) (evs : list event) : Prop := trace st' = trace st ++ evs.

(** The message edits requested in a trace. *)
Definition edits (tr : list event) : list (Z * Z * list N) :=
  omap (fun e => match e with Called (MessageEdit c m t) => Some (c, m, t) | _ => None end) tr.

(** An event that draws, notifies, logs or cleans up a reaction. *)
Definition roll_event (e : event) : bool :=
  match e with
  | SecretsRandbelow _ _ => true
  | Called (UserSend _ _) | Called (ChannelSend _ _) => true
  | Called (FetchMessage _ _) | Called (RemoveReaction _ _ _ _) => true
  | Called (FetchUser _) => true
  | _ => false
  end.

(** The record [get_guild_config] returns for a guild: the stored one, or
    the default when there is none. *)
Definition stored_or_default (st : state) (gid : Z) : GuildConfig :=
  default default_guild_config (cfg st !! guild_key gid).

(** The guild of a reaction event, when it has one the client knows. *)
Definition event_guild (w : world) (p : payload) : option guild :=
  if truthy (p_guild_id p) then p_guild_id p ≫= get_guild w else None.

(** The reasons for which the trigger leaves an event alone: it comes from
    the bot itself; it has no guild; its guild has no stored configuration;
    the trigger binding is unset; the message or the channel is not the bound
    one; the emoji is not the configured one. *)
Definition ignored (w : world) (st : state) (p : payload) : Prop :=
  p_user_id p = bot_user_id w
  ∨ event_guild w p = None
  ∨ ∃ g, event_guild w p = Some g
         ∧ (cfg st !! guild_key (guild_id g) = None
            ∨ ∃ gconf, cfg st !! guild_key (guild_id g) = Some gconf
                ∧ (truthy (trigger_message_id gconf) = false
                   ∨ truthy (trigger_channel_id gconf) = false
                   ∨ trigger_message_id gconf ≠ Some (p_message_id p)
                   ∨ trigger_channel_id gconf ≠ Some (p_channel_id p)
                   ∨ p_emoji p ≠ trigger_emoji gconf)).

(** The checks of [editrolllog] on the record [gconf] of the guild [g]: the
    moderator channel is set and is a text channel [ch], the id parses to
    [mid], the message is found there and was written by the bot. *)
Definition edit_checks (w : world) (g : guild) (gconf : GuildConfig)
    (message_id_arg : list N) (ch : channel) (mid : Z) : Prop :=
  truthy (mod_channel_id gconf) = true
  ∧ mod_channel_id gconf ≫= get_channel g = Some ch
  ∧ is_text_channel ch = true
  ∧ PyInt.int message_id_arg = Ret mid
  ∧ api w (FetchMessage (channel_id ch) mid) = None
  ∧ author_id (fetched_message w (channel_id ch) mid) = bot_user_id w.

(** All the checks of [editrolllog] pass: a moderator, in a guild, and the
    checks above on the record of the guild. *)
Definition edit_allowed (w : world) (st : state) (i : interaction)
    (message_id_arg : list N) (ch : channel) (mid : Z) : Prop :=
  ∃ g, i_guild i = Some g ∧ is_mod i = true
       ∧ edit_checks w g (stored_or_default st (guild_id g)) message_id_arg ch mid.

(** The ways [editrolllog] fails for a moderator, each with the checks before
    it passed. *)
Inductive edit_failure :=
| NoModChannel
| ChannelUnresolved
| IdNotNumeric
| MessageMissing
| NotOwnMessage.

Definition edit_fails (w : world) (g : guild) (gconf : GuildConfig)
    (message_id_arg : list N) (f : edit_failure) : Prop :=
  match f with
  | NoModChannel => truthy (mod_channel_id gconf) = false
  | ChannelUnresolved =>
      truthy (mod_channel_id gconf) = true
      ∧ (mod_channel_id gconf ≫= get_channel g = None
         ∨ ∃ ch, mod_channel_id gconf ≫= get_channel g = Some ch
                 ∧ is_text_channel ch = false)
  | IdNotNumeric =>
      truthy (mod_channel_id gconf) = true
      ∧ (∃ ch, mod_channel_id gconf ≫= get_channel g = Some ch
               ∧ is_text_channel ch = true)
      ∧ PyInt.int message_id_arg = Raise ValueError
  | MessageMissing =>
      truthy (mod_channel_id gconf) = true
      ∧ ∃ ch mid, mod_channel_id gconf ≫= get_channel g = Some ch
                  ∧ is_text_channel ch = true
                  ∧ PyInt.int message_id_arg = Ret mid
                  ∧ api w (FetchMessage (channel_id ch) mid) = Some NotFound
  | NotOwnMessage =>
      truthy (mod_channel_id gconf) = true
      ∧ ∃ ch mid, mod_channel_id gconf ≫= get_channel g = Some ch
                  ∧ is_text_channel ch = true
                  ∧ PyInt.int message_id_arg = Ret mid
                  ∧ api w (FetchMessage (channel_id ch) mid) = None
                  ∧ author_id (fetched_message w (channel_id ch) mid) ≠ bot_user_id w
  end.

Definition edit_failure_text (f : edit_failure) : list N :=
  match f with
  | NoModChannel => Text.mod_channel_unset
  | ChannelUnresolved => Text.mod_channel_missing
  | IdNotNumeric => Text.id_not_number
  | MessageMissing => Text.message_missing
  | NotOwnMessage => Text.not_my_message
  end.

(** ** A small server, for examples *)

Module Example.

Definition log_channel : channel := {| channel_id := 10; is_text_channel := true |}.
Definition voice_channel : channel := {| channel_id := 11; is_text_channel := false |}.

Definition the_guild : guild :=
  {| guild_id := 1;
     guild_name := lit "Dice";
     get_member := fun _ => None;
     get_channel := fun c =>
       if c =? 10 then Some log_channel
       else if c =? 11 then Some voice_channel else None |}.

(** The bot is user 999; every request succeeds; message 556 of the log
    channel was written by somebody else. *)
Definition the_world : world :=
  {| bot_user_id := 999;
     get_guild := fun i => if i =? 1 then Some the_guild else None;
     api := fun _ => None;
     fetched_user := fun u => {| user_id := u |};
     fetched_message := fun c m =>
       {| message_id := m; author_id := if m =? 556 then 7 else 999 |};
     sent_message := fun c t => {| message_id := 555; author_id := 999 |};
     entropy := fun n => 30 + Z.of_nat n |}.

Definition fresh : state := {| cfg := ∅; drawn := 0; trace := [] |}.

Definition moderator : interaction :=
  {| i_guild := Some the_guild;
     i_user := Some {| manage_messages := true; administrator := false |} |}.

(** The record of the guild after [/postroller] in the log channel and
    [/setmodchannel]. *)
Definition set_up_config : GuildConfig :=
  set_mod_channel (Some 10) (set_trigger (Some 555) (Some 10) default_guild_config).

Definition set_up : state :=
  {| cfg := {[ guild_key 1 := set_up_config ]}; drawn := 0; trace := [] |}.

Definition reaction (uid mid : Z) (emoji : list N) : payload :=
  {| p_user_id := uid; p_guild_id := Some 1; p_channel_id := 10;
     p_message_id := mid; p_emoji := emoji |}.

(** The file of [set_up] as [json.load] returns it. *)
Definition set_up_file : gmap (list N) raw_record :=
  {[ guild_key 1 :=
       {[ lit "trigger_emoji" := FStr (lit "🎲");
          lit "trigger_message_id" := FInt 555;
          lit "trigger_channel_id" := FInt 10;
          lit "mod_channel_id" := FInt 10;
          lit "outcomes" := FOutcomes (outcomes default_guild_config) ]} ]}.

(** An argument of [/setodds] of 4306 characters: the weight of [a] is
    written with 4300 nines, the most digits [int] reads. *)
Definition long_odds : list N := lit "a=" ++ replicate 4300 57%N ++ lit ";b=1".

End Example.

(** ** The handlers as one family *)

(** What reaches the bot: a command with its arguments, or a reaction. *)
Inductive op :=
| SetModChannel (i : interaction) (ch : channel)
| SetEmoji (i : interaction) (emoji : list N)
| SetOdds (i : interaction) (odds : list N)
| PostRoller (i : interaction) (ch : channel) (message_text : list N)
| ShowOdds (i : interaction)
| EditRollLog (i : interaction) (message_id_arg new_text : list N)
| Reaction (p : payload).

Definition handle (o : op) : M unit :=
  match o with
  | SetModChannel i ch => setmodchannel i ch
  | SetEmoji i emoji => setemoji i emoji
  | SetOdds i odds => setodds i odds
  | PostRoller i ch message_text => postroller i ch message_text
  | ShowOdds i => showodds i
  | EditRollLog i a t => editrolllog i a t
  | Reaction p => on_raw_reaction_add p
  end.

(** The guild an operation is about, when it has one. *)
Definition op_guild (w : world) (o : op) : option guild :=
  match o with
  | SetModChannel i _ | SetEmoji i _ | SetOdds i _ | PostRoller i _ _
  | ShowOdds i | EditRollLog i _ _ => i_guild i
  | Reaction p => event_guild w p
  end.

(** The interaction of a command that changes the configuration or a log
    message. *)
Definition op_moderated (o : op) : option interaction :=
  match o with
  | SetModChannel i _ | SetEmoji i _ | SetOdds i _ | PostRoller i _ _
  | EditRollLog i _ _ => Some i
  | ShowOdds _ | Reaction _ => None
  end.

(** The state after a sequence of operations, each in its surroundings. *)
Fixpoint run_all (steps : list (world * op)) (st : state) : state :=
  match steps with
  | [] => st
  | (w, o) :: rest => run_all rest (handle o w st).2
  end.

(** Every record holds a table that [validate_outcomes] accepts. *)
Definition valid_cfg (c : gmap (list N) GuildConfig) : Prop :=
  ∀ k gconf, c !! k = Some gconf →
             validate_outcomes (outcomes gconf) = Ret (true, Validate.msg_ok).

(** The file, as the writes of the trace leave it, holds what [cfg] holds:
    [load_config] at a restart would give the same mapping. *)
Definition synced (file : option (gmap (list N) GuildConfig)) (st : state) : Prop :=
  load_config (file_after file (trace st)) = cfg st.

(** A write of the file with valid tables only, or an event of another kind. *)
Definition valid_write (e : event) : Prop := ∀ c, e = SaveConfig c → valid_cfg c.

(** What a run, or a part of one, may do to the state when it is about the
    guild with key [key] (or about none): the other records stay, valid
    tables stay valid and only such are written, a file in step with [cfg]
    stays so, and the trace and the count of samples only grow. *)
Definition evolves (file : option (gmap (list N) GuildConfig)) (key : option (list N))
    (st st' : state) : Prop :=
  (∀ k, key ≠ Some k → cfg st' !! k = cfg st !! k)
  ∧ (valid_cfg (cfg st) → valid_cfg (cfg st'))
  ∧ (synced file st → synced file st')
  ∧ (∃ evs, trace st' = trace st ++ evs
            ∧ (valid_cfg (cfg st) → Forall valid_write evs))
  ∧ (drawn st ≤ drawn st')%nat.

(** The process as it starts: [cfg = load_config()]. *)
Definition startup (file : option (gmap (list N) GuildConfig)) : state :=
  {| cfg := load_config file; drawn := 0; trace := [] |}.

Definition respects (file : option (gmap (list N) GuildConfig)) (key : option (list N))
    {A} (m : M A) : Prop :=
  ∀ w st, evolves file key st (m w st).2.

(** A run that ends normally or with a failure of the platform. *)
Definition benign (r : result unit) : Prop := r = Ret tt ∨ ∃ e, r = Raise (Discord e).

(** The sample [r] makes the loop of [weighted_choice] return at entry [i]
    of the table. *)
Definition hits (tbl : list (value * Z)) (i : nat) (r : Z) : Prop :=
  0 ≤ r < 100 ∧ first_hit tbl r i.

(** A computation that returns a value with property [Q] or raises an
    exception that [allow] lets through, in every state and surroundings. *)
Definition safe (allow : exn -> bool) {A} (Q : A -> Prop) (m : M A) : Prop :=
  ∀ w st, match (m w st).1 with
          | Ret a => Q a
          | Raise e => allow e = true
          | Unmodelled => False
          end.

(** The user a dispatch notifies: the member of the guild, or else the user
    the platform returns for the id. *)
Definition resolve_user (w : world) (g : guild) (uid : Z) : result user :=
  match get_member g uid with
  | Some m => Ret m
  | None =>
      match api w (FetchUser uid) with
      | None => Ret (fetched_user w uid)
      | Some e => Raise (Discord e)
      end
  end.

(** The request this resolution sends, if any. *)
Definition lookup_events (g : guild) (uid : Z) : list event :=
  match get_member g uid with
  | Some _ => []
  | None => [Called (FetchUser uid)]
  end.

(** The channel a dispatch logs to: the moderator channel of the record when
    it is set and resolves to a text channel of the guild. *)
Definition mod_log_channel (g : guild) (gconf : GuildConfig) : option channel :=
  if truthy (mod_channel_id gconf) then
    match mod_channel_id gconf ≫= get_channel g with
    | Some ch => if is_text_channel ch then Some ch else None
    | None => None
    end
  else None.

(** The platform accepts the request. *)
Definition accepted (w : world) (c : call) : bool :=
  match api w c with None => true | Some _ => false end.

(** The two samples a dispatch takes in state [st], and the roll. *)
Definition first_sample (w : world) (st : state) : Z := entropy w (drawn st) `mod` 100.
Definition second_sample (w : world) (st : state) : Z := entropy w (S (drawn st)) `mod` 100.

(** The answers to the caller among some events. *)
Definition responses (evs : list event) : list (list N) :=
  omap (fun e => match e with Called (Respond text) => Some text | _ => None end) evs.

(** A run that sends no answer. *)
Definition quiet {A} (m : M A) (w : world) (st : state) : Prop :=
  ∃ evs, trace (m w st).2 = trace st ++ evs ∧ responses evs = [].

(** A run that answers once, as its last action, when it ends normally, and
    at most once when it raises. *)
Definition answered (m : M unit) (w : world) (st : state) : Prop :=
  ∃ evs, trace (m w st).2 = trace st ++ evs
         ∧ (((m w st).1 = Ret tt
             ∧ ∃ pre text, evs = pre ++ [Called (Respond text)] ∧ responses pre = [])
            ∨ ((m w st).1 ≠ Ret tt ∧ (length (responses evs) ≤ 1)%nat)).

(** ** Strings *)

Lemma lstrip_by_nil f s : PyStr.lstrip_by f s = [] ↔ Forall (fun c => f c = true) s.
Proof.
  induction s as [|c s IH]; simpl.
  - split; [constructor | done].
  - destruct (f c) eqn:E.
    + rewrite IH. split; [by constructor | by inversion 1].
    + split; [done | inversion 1; congruence].
Qed.

Lemma lstrip_by_head f s c r : PyStr.lstrip_by f s = c :: r → f c = false.
Proof.
  induction s as [|a s IH]; simpl; [done|].
  destruct (f a) eqn:E; [done|]. intros [= -> _]. done.
Qed.

Lemma rstrip_by_nil f s : PyStr.rstrip_by f s = [] ↔ Forall (fun c => f c = true) s.
Proof.
  unfold PyStr.rstrip_by. split.
  - intros H. apply (f_equal (@rev N)) in H. rewrite rev_involutive in H. simpl in H.
    apply lstrip_by_nil, List.Forall_rev in H. by rewrite rev_involutive in H.
  - intros H. apply List.Forall_rev, lstrip_by_nil in H. by rewrite H.
Qed.

(** [s.strip()] is empty exactly when [s] is blank. *)
Lemma strip_nil s : PyStr.strip s = [] ↔ blank s.
Proof.
  unfold PyStr.strip, blank. rewrite rstrip_by_nil. split.
  - intros H. apply lstrip_by_nil.
    destruct (PyStr.lstrip_by PyStr.is_space s) as [|c r] eqn:E; [done|].
    apply lstrip_by_head in E. inversion H; congruence.
  - intros H. apply lstrip_by_nil in H. rewrite H. constructor.
Qed.

(** ** Outcome tables *)

Lemma k_name_weight : k_name ≠ k_weight.
Proof. by vm_compute. Qed.

Lemma mk_outcome_name n w : mk_outcome n w !! k_name = Some (VStr n).
Proof. unfold mk_outcome. by rewrite lookup_insert_eq. Qed.

Lemma mk_outcome_weight n w : mk_outcome n w !! k_weight = Some (VInt w).
Proof.
  unfold mk_outcome. rewrite lookup_insert_ne by apply k_name_weight.
  by rewrite lookup_singleton_eq.
Qed.

Lemma validate_loop_good o rest t name w z :
  o !! k_name = Some (VStr name) → ¬ blank name →
  o !! k_weight = Some w → as_int w = Some z → 0 ≤ z →
  validate_loop (o :: rest) t = validate_loop rest (t + z).
Proof.
  intros Hn Hb Hw Hz Hpos. simpl. rewrite Hn, Hw, Hz.
  destruct (PyStr.strip name) eqn:E; [by apply strip_nil in E|].
  destruct (Z.ltb_spec z 0); [lia | done].
Qed.

Lemma total_weight_good o rest w z :
  o !! k_weight = Some w → as_int w = Some z →
  total_weight (o :: rest) = z + total_weight rest.
Proof. intros Hw Hz. simpl. by rewrite Hw; simpl; rewrite Hz. Qed.

Lemma validate_loop_well_formed os t :
  Forall well_formed os →
  validate_loop os t =
    if negb (t + total_weight os =? 100)
    then refuse_total (t + total_weight os)
    else Ret (true, Validate.msg_ok).
Proof.
  intros H. revert t. induction H as [|o rest Ho _ IH]; intros t.
  - simpl. by rewrite Z.add_0_r.
  - destruct Ho as (name & w & z & Hn & Hb & Hw & Hz & Hpos).
    rewrite (validate_loop_good _ _ _ _ _ _ Hn Hb Hw Hz Hpos), IH.
    rewrite (total_weight_good _ _ _ _ Hw Hz). by rewrite Z.add_assoc.
Qed.

(** The limit of [str] is far above the sums a valid table can reach. *)
Lemma str_limit_large : 4300 < PyInt.str_limit.
Proof.
  unfold PyInt.str_limit. change (Z.of_N PyInt.int_max_str_digits) with 4300.
  apply Z.pow_gt_lin_r; lia.
Qed.

Lemma str_small n : Z.abs n < PyInt.str_limit → PyInt.str n = Ret (PyStr.of_int n).
Proof.
  intros H. unfold PyInt.str.
  destruct (Z.leb_spec PyInt.str_limit (Z.abs n)); [lia | done].
Qed.

Lemma str_large n : PyInt.str_limit ≤ Z.abs n → PyInt.str n = Raise ValueError.
Proof.
  intros H. unfold PyInt.str.
  destruct (Z.leb_spec PyInt.str_limit (Z.abs n)); [done | lia].
Qed.

(** The refusal of a sum: the message with the sum, or [ValueError]. *)
Lemma refuse_total_cases t :
  (Z.abs t < PyInt.str_limit
   ∧ refuse_total t = Ret (false, Validate.msg_total (PyStr.of_int t)))
  ∨ (PyInt.str_limit ≤ Z.abs t ∧ refuse_total t = Raise ValueError).
Proof.
  unfold refuse_total. destruct (Z.lt_ge_cases (Z.abs t) PyInt.str_limit) as [H|H].
  - left. by rewrite str_small.
  - right. by rewrite str_large.
Qed.

Lemma validate_loop_accepts os t msg :
  validate_loop os t = Ret (true, msg) →
  Forall well_formed os ∧ t + total_weight os = 100 ∧ msg = Validate.msg_ok.
Proof.
  revert t. induction os as [|o rest IH]; intros t; simpl.
  - destruct (Z.eqb_spec t 100); simpl.
    + intros [= <-]. split; [constructor | split; [lia | done]].
    + by destruct (refuse_total_cases t) as [[_ ->]|[_ ->]].
  - destruct (o !! k_name) as [[| | |s|]|] eqn:Hn; try done;
      destruct (o !! k_weight) as [w|] eqn:Hw; try done.
    destruct (PyStr.strip s) eqn:Hs; [done|].
    simpl. destruct (as_int w) as [z|] eqn:Hz; [|done].
    destruct (Z.ltb_spec z 0); [done|]. intros (Hrest & Hsum & Hmsg)%IH.
    split; [|split; [simpl; lia | done]]. constructor; [|done].
    exists s, w, z. repeat split; try done.
    intros Hb%strip_nil. congruence.
Qed.

Lemma validate_loop_skip good os t :
  Forall well_formed good →
  validate_loop (good ++ os) t = validate_loop os (t + total_weight good).
Proof.
  intros H. revert t. induction H as [|o rest Ho _ IH]; intros t.
  - simpl. by rewrite Z.add_0_r.
  - destruct Ho as (name & w & z & Hn & Hb & Hw & Hz & Hpos). simpl app.
    rewrite (validate_loop_good _ _ _ _ _ _ Hn Hb Hw Hz Hpos), IH.
    rewrite (total_weight_good _ _ _ _ Hw Hz). by rewrite Z.add_assoc.
Qed.

Lemma validate_outcomes_loop os : os ≠ [] → validate_outcomes os = validate_loop os 0.
Proof. by destruct os. Qed.

Lemma msg_total_nonempty t : Validate.msg_total t ≠ [].
Proof.
  unfold Validate.msg_total.
  discriminate.
Qed.

Lemma msg_fixed_nonempty :
  Validate.msg_empty ≠ [] ∧ Validate.msg_keys ≠ [] ∧ Validate.msg_name ≠ []
  ∧ Validate.msg_weight ≠ [].
Proof. vm_compute. split; [|split; [|split]]; discriminate. Qed.

Lemma validate_loop_reason os t msg : validate_loop os t = Ret (false, msg) → msg ≠ [].
Proof.
  destruct msg_fixed_nonempty as (He & Hk & Hn & Hw).
  revert t. induction os as [|o rest IH]; intros t; simpl.
  - destruct (negb (t =? 100)); [|discriminate].
    destruct (refuse_total_cases t) as [[_ ->]|[_ ->]]; [|done].
    intros [= <-]. apply msg_total_nonempty.
  - destruct (o !! k_name) as [[| | |s|]|]; destruct (o !! k_weight) as [w|];
      try (intros [= <-]; assumption).
    destruct (PyStr.strip s); [intros [= <-]; assumption|].
    destruct (as_int w) as [z|]; [|intros [= <-]; assumption].
    destruct (z <? 0); [intros [= <-]; assumption|]. apply IH.
Qed.

(** The loop raises only when every entry is well formed and the sum is too
    long to print, and then [ValueError]; it never leaves the model. *)
Lemma validate_loop_raises os t :
  validate_loop os t ≠ Unmodelled
  ∧ ∀ e, validate_loop os t = Raise e →
         e = ValueError ∧ Forall well_formed os
         ∧ PyInt.str_limit ≤ Z.abs (t + total_weight os).
Proof.
  revert t. induction os as [|o rest IH]; intros t; cbn [validate_loop].
  - simpl. rewrite Z.add_0_r. destruct (negb (t =? 100)); [|by split].
    destruct (refuse_total_cases t) as [[_ ->]|[Hbig ->]]; [by split|].
    split; [done|]. by intros e [= <-].
  - destruct (o !! k_name) as [[| | |s|]|] eqn:Hn; destruct (o !! k_weight) as [w|] eqn:Hw;
      try (by split).
    destruct (PyStr.strip s) eqn:Hs; [by split|].
    destruct (as_int w) as [z|] eqn:Hz; [|by split].
    destruct (Z.ltb_spec z 0); [by split|].
    destruct (IH (t + z)) as [Hmodel Hraise]. split; [done|].
    intros e (-> & Hwf & Hbig)%Hraise. split; [done|].
    rewrite (total_weight_good _ _ _ _ Hw Hz).
    split; [|by rewrite Z.add_assoc].
    constructor; [|done]. exists s, w, z. repeat split; try done.
    intros Hb%strip_nil. congruence.
Qed.

Lemma validate_outcomes_accepts os msg :
  validate_outcomes os = Ret (true, msg) →
  os ≠ [] ∧ Forall well_formed os ∧ total_weight os = 100.
Proof.
  destruct os as [|o rest]; [done|]. intros H.
  rewrite validate_outcomes_loop in H by done.
  apply validate_loop_accepts in H as (? & ? & ?). split; [done|]. split; [done | lia].
Qed.

Lemma total_weight_nonneg os : Forall well_formed os → 0 ≤ total_weight os.
Proof.
  induction 1 as [|o rest (name & w & z & Hn & Hb & Hw & Hz & Hz0) _ IH]; [done|].
  rewrite (total_weight_good _ _ _ _ Hw Hz). lia.
Qed.

(** [validate_outcomes] accepts a list exactly when it is not empty, every
    entry is well formed (a name that is a string and not blank, a weight
    that is a non-negative integer, a [bool] counting as an integer) and the
    weights sum to 100.  The empty list is refused as such; the first entry
    that is not well formed is refused with the message for its defect; a
    list of well formed entries with another sum is refused with a message
    that shows the sum, unless the sum has more digits than [str] prints:
    then, and only then, the call raises [ValueError] instead of returning.
    Every refusal that is returned carries a non-empty message. *)
Lemma validate_outcomes_cases (os : list (gmap (list N) value)) :
  (validate_outcomes os = Ret (true, Validate.msg_ok)
     ↔ os ≠ [] ∧ Forall well_formed os ∧ total_weight os = 100)
  ∧ (∀ msg, validate_outcomes os = Ret (true, msg) → msg = Validate.msg_ok)
  ∧ (os = [] → validate_outcomes os = Ret (false, Validate.msg_empty))
  ∧ (os ≠ [] → Forall well_formed os → total_weight os ≠ 100 →
       (total_weight os < PyInt.str_limit →
          validate_outcomes os
          = Ret (false, Validate.msg_total (PyStr.of_int (total_weight os))))
       ∧ (PyInt.str_limit ≤ total_weight os → validate_outcomes os = Raise ValueError))
  ∧ (∀ good o rest, os = good ++ o :: rest → Forall well_formed good →
       (o !! k_name = None ∨ o !! k_weight = None →
          validate_outcomes os = Ret (false, Validate.msg_keys))
       ∧ (is_Some (o !! k_name) → is_Some (o !! k_weight) →
          (∀ s, o !! k_name = Some (VStr s) → blank s) →
          validate_outcomes os = Ret (false, Validate.msg_name))
       ∧ (∀ s w, o !! k_name = Some (VStr s) → ¬ blank s → o !! k_weight = Some w →
          (∀ z, as_int w = Some z → z < 0) →
          validate_outcomes os = Ret (false, Validate.msg_weight)))
  ∧ (∀ msg, validate_outcomes os = Ret (false, msg) → msg ≠ [])
  ∧ validate_outcomes os ≠ Unmodelled
  ∧ (∀ e, validate_outcomes os = Raise e →
          e = ValueError ∧ os ≠ [] ∧ Forall well_formed os
          ∧ PyInt.str_limit ≤ total_weight os).
Proof.
  pose proof (validate_outcomes_accepts os) as Hacc.
  pose proof (total_weight_nonneg os) as Hpos.
  assert (Hok : os ≠ [] → Forall well_formed os → total_weight os = 100 →
                validate_outcomes os = Ret (true, Validate.msg_ok)).
  { intros Hne Hwf Hsum. rewrite validate_outcomes_loop, validate_loop_well_formed by done.
    by rewrite Z.add_0_l, Hsum. }
  split; [|split; [|split; [|split; [|split; [|split; [|split]]]]]].
  - split; [intros H; by apply Hacc in H | intros (? & ? & ?); by apply Hok].
  - intros msg H. pose proof H as (? & ? & ?)%Hacc. rewrite Hok in H by done. congruence.
  - by intros ->.
  - intros Hne Hwf Hsum. rewrite validate_outcomes_loop, validate_loop_well_formed by done.
    rewrite Z.add_0_l. destruct (Z.eqb_spec (total_weight os) 100); [done|]. simpl.
    specialize (Hpos Hwf).
    destruct (refuse_total_cases (total_weight os)) as [[Hsmall ->]|[Hbig ->]];
      split; intros; try done; lia.
  - intros good o rest -> Hgood.
    rewrite validate_outcomes_loop by (by destruct good).
    rewrite validate_loop_skip by done. simpl. split; [|split].
    + intros [-> | ->]; [done | by destruct (o !! k_name)].
    + intros [n Hn] [w Hw] Hblank. rewrite Hn, Hw.
      destruct n as [| | |s|]; try done.
      specialize (Hblank s Hn). apply strip_nil in Hblank. by rewrite Hblank.
    + intros s w Hn Hb Hw Hneg. rewrite Hn, Hw.
      destruct (PyStr.strip s) eqn:E; [by apply strip_nil in E|].
      destruct (as_int w) as [z|] eqn:Hz; [|done].
      specialize (Hneg z eq_refl). by destruct (Z.ltb_spec z 0); [|lia].
  - destruct os as [|o rest]; [intros msg [= <-]; apply msg_fixed_nonempty|].
    rewrite validate_outcomes_loop by done. apply validate_loop_reason.
  - destruct os as [|o rest]; [done|].
    rewrite validate_outcomes_loop by done. apply validate_loop_raises.
  - destruct os as [|o rest]; [done|].
    rewrite validate_outcomes_loop by done.
    intros e (-> & Hwf & Hbig)%validate_loop_raises. rewrite Z.add_0_l in Hbig.
    specialize (Hpos Hwf). split; [done|]. split; [done|]. split; [done | lia].
Qed.

(** [validate_outcomes] returns, or raises [ValueError]. *)
Lemma validate_outcomes_result os :
  (∃ ok msg, validate_outcomes os = Ret (ok, msg)) ∨ validate_outcomes os = Raise ValueError.
Proof.
  destruct (validate_outcomes_cases os) as (_ & _ & _ & _ & _ & _ & Hmodel & Hraise).
  destruct (validate_outcomes os) as [[ok msg]|e|]; [eauto | | done].
  right. by destruct (Hraise e eq_refl) as [-> _].
Qed.

Lemma validate_outcomes_ok os msg :
  validate_outcomes os = Ret (true, msg) → validate_outcomes os = Ret (true, Validate.msg_ok).
Proof.
  intros H. rewrite H. do 3 f_equal.
  by apply (proj1 (proj2 (validate_outcomes_cases os))).
Qed.

(** ** The cumulative-sum loop *)

Lemma shape_Some o n z :
  shape o = Some (n, z) ↔
  o !! k_name = Some n ∧ ∃ w, o !! k_weight = Some w ∧ as_int w = Some z.
Proof.
  unfold shape. split.
  - destruct (o !! k_name) as [n'|]; simpl; [|done].
    destruct (o !! k_weight) as [w|]; simpl; [|done].
    destruct (as_int w) as [z'|] eqn:E; simpl; [|done].
    intros [= -> ->]. eauto.
  - intros (-> & w & -> & Hz). simpl. by rewrite Hz.
Qed.

Lemma shape_mk_outcome n z : shape (mk_outcome n z) = Some (VStr n, z).
Proof.
  apply shape_Some. rewrite mk_outcome_name, mk_outcome_weight. eauto.
Qed.

Lemma choice_loop_step o rest r c n z :
  shape o = Some (n, z) →
  choice_loop r c (o :: rest) =
    if r <? c + z then Ret (Some n) else choice_loop r (c + z) rest.
Proof.
  intros (Hn & w & Hw & Hz)%shape_Some. simpl. rewrite Hw, Hn.
  destruct w; simpl in Hz; try done; by injection Hz as <-.
Qed.

Lemma table_Forall2 os tbl :
  table os = Some tbl ↔ Forall2 (fun o nz => shape o = Some nz) os tbl.
Proof. apply mapM_Some. Qed.

Lemma cumulative_upto_0 tbl : cumulative_upto tbl 0 = 0.
Proof. done. Qed.

Lemma cumulative_upto_S nz tbl j :
  cumulative_upto (nz :: tbl) (S j) = nz.2 + cumulative_upto tbl j.
Proof. done. Qed.

Lemma cumulative_upto_all tbl : cumulative_upto tbl (length tbl) = total tbl.
Proof. unfold cumulative_upto. by rewrite firstn_all. Qed.

(** The loop returns the name of the first entry whose cumulative sum,
    counted from [c], exceeds [r]. *)
Lemma choice_loop_hit os tbl r c i n z :
  Forall2 (fun o nz => shape o = Some nz) os tbl →
  tbl !! i = Some (n, z) →
  r < c + cumulative_upto tbl (S i) →
  (∀ j, (j < i)%nat → c + cumulative_upto tbl (S j) ≤ r) →
  choice_loop r c os = Ret (Some n).
Proof.
  intros H. revert c i. induction H as [|o [n0 z0] os tbl Ho _ IH]; intros c i Hi Hlt Hbefore.
  - done.
  - rewrite (choice_loop_step _ _ _ _ _ _ Ho). destruct i as [|i].
    + injection Hi as -> ->. rewrite cumulative_upto_S, cumulative_upto_0 in Hlt. simpl in Hlt.
      by destruct (Z.ltb_spec r (c + z)); [|lia].
    + pose proof (Hbefore 0%nat ltac:(lia)) as H0.
      rewrite cumulative_upto_S, cumulative_upto_0 in H0. simpl in H0.
      destruct (Z.ltb_spec r (c + z0)); [lia|].
      apply (IH _ i); [done | |].
      * rewrite cumulative_upto_S in Hlt. simpl in Hlt. lia.
      * intros j Hj. specialize (Hbefore (S j) ltac:(lia)).
        rewrite cumulative_upto_S in Hbefore. simpl in Hbefore. lia.
Qed.

(** The loop runs to its end when no cumulative sum exceeds [r]. *)
Lemma choice_loop_miss os tbl r c :
  Forall2 (fun o nz => shape o = Some nz) os tbl →
  (∀ j, (j < length tbl)%nat → c + cumulative_upto tbl (S j) ≤ r) →
  choice_loop r c os = Ret None.
Proof.
  intros H. revert c. induction H as [|o [n0 z0] os tbl Ho _ IH]; intros c Hall.
  - done.
  - rewrite (choice_loop_step _ _ _ _ _ _ Ho).
    pose proof (Hall 0%nat ltac:(simpl; lia)) as H0.
    rewrite cumulative_upto_S, cumulative_upto_0 in H0. simpl in H0.
    destruct (Z.ltb_spec r (c + z0)); [lia|]. apply IH.
    intros j Hj. specialize (Hall (S j) ltac:(simpl; lia)).
    rewrite cumulative_upto_S in Hall. simpl in Hall. lia.
Qed.

(** Some entry is hit when [r] lies below the full sum. *)
Lemma first_hit_exists tbl r c :
  c ≤ r → r < c + total tbl →
  ∃ i, (i < length tbl)%nat ∧ r < c + cumulative_upto tbl (S i)
       ∧ ∀ j, (j < i)%nat → c + cumulative_upto tbl (S j) ≤ r.
Proof.
  revert c. induction tbl as [|[n z] tbl IH]; intros c Hc Hlt; simpl in Hlt.
  - lia.
  - destruct (Z.lt_ge_cases r (c + z)) as [Hr|Hr].
    + exists 0%nat. rewrite cumulative_upto_S, cumulative_upto_0. simpl.
      split; [lia|]. split; [lia|]. intros j Hj. lia.
    + destruct (IH (c + z)) as (i & Hi & Hlti & Hbefore); [lia | lia |].
      exists (S i). rewrite cumulative_upto_S. simpl. split; [lia|]. split; [lia|].
      intros [|j] Hj.
      * rewrite cumulative_upto_S, cumulative_upto_0. simpl. lia.
      * rewrite cumulative_upto_S. simpl. specialize (Hbefore j ltac:(lia)). lia.
Qed.

Lemma first_hit_unique tbl r i i' : first_hit tbl r i → first_hit tbl r i' → i = i'.
Proof.
  intros (_ & Hlt & Hbefore) (_ & Hlt' & Hbefore').
  destruct (Nat.lt_trichotomy i i') as [H|[H|H]]; [|done|].
  - specialize (Hbefore' i H). lia.
  - specialize (Hbefore i' H). lia.
Qed.

Lemma cumulative_upto_mono tbl i j :
  Forall (fun nz : value * Z => 0 ≤ nz.2) tbl → (i ≤ j)%nat →
  cumulative_upto tbl i ≤ cumulative_upto tbl j.
Proof.
  intros H. revert i j. induction H as [|nz tbl Hnz _ IH]; intros i j Hij.
  - unfold cumulative_upto. by rewrite !take_nil.
  - destruct i as [|i]; destruct j as [|j]; try lia.
    + rewrite cumulative_upto_0, cumulative_upto_S.
      specialize (IH 0%nat j ltac:(lia)). rewrite cumulative_upto_0 in IH. lia.
    + rewrite !cumulative_upto_S. specialize (IH i j ltac:(lia)). lia.
Qed.

(** With weights that are not negative, entry [i] is hit exactly on its
    half-open interval. *)
Lemma first_hit_interval tbl r i :
  Forall (fun nz : value * Z => 0 ≤ nz.2) tbl → 0 ≤ r →
  first_hit tbl r i ↔
  (i < length tbl)%nat ∧ cumulative_upto tbl i ≤ r < cumulative_upto tbl (S i).
Proof.
  intros Hpos Hr. unfold first_hit. split.
  - intros (Hi & Hlt & Hbefore). split; [done|]. split; [|done].
    destruct i as [|i]; [by rewrite cumulative_upto_0|]. apply Hbefore. lia.
  - intros (Hi & Hge & Hlt). split; [done|]. split; [done|].
    intros j Hj. pose proof (cumulative_upto_mono tbl (S j) i Hpos ltac:(lia)). lia.
Qed.

Lemma well_formed_table os :
  Forall well_formed os →
  ∃ tbl, table os = Some tbl ∧ total tbl = total_weight os
         ∧ Forall (fun nz : value * Z => 0 ≤ nz.2) tbl.
Proof.
  induction 1 as [|o os Ho _ (tbl & Htbl & Htot & Hpos)].
  - by exists [].
  - destruct Ho as (name & w & z & Hn & _ & Hw & Hz & Hz0).
    exists ((VStr name, z) :: tbl). split; [|split].
    + apply table_Forall2. constructor; [|by apply table_Forall2].
      apply shape_Some. eauto.
    + rewrite (total_weight_good _ _ _ _ Hw Hz). simpl. by rewrite Htot.
    + by constructor.
Qed.

Lemma table_lookup os tbl i nz :
  table os = Some tbl → tbl !! i = Some nz → ∃ o, os !! i = Some o ∧ shape o = Some nz.
Proof.
  intros H%table_Forall2 Hi.
  destruct (Forall2_lookup_r _ _ _ _ _ H Hi) as (o & Ho & Hs). eauto.
Qed.

Lemma weighted_choice_hit os tbl r i n z :
  table os = Some tbl → tbl !! i = Some (n, z) → first_hit tbl r i →
  choice_loop r 0 os = Ret (Some n) ∧ weighted_choice_from r os = Ret n.
Proof.
  intros Htbl%table_Forall2 Hi (_ & Hlt & Hbefore).
  assert (choice_loop r 0 os = Ret (Some n)) as Hloop.
  { apply (choice_loop_hit os tbl r 0 i n z); [done | done | lia |].
    intros j Hj. specialize (Hbefore j Hj). lia. }
  split; [done|]. unfold weighted_choice_from. by rewrite Hloop.
Qed.

Lemma weighted_choice_abc r :
  weighted_choice_from r table_abc =
    Ret (VStr (if r <? 25 then lit "A" else if r <? 50 then lit "B" else lit "C")).
Proof.
  unfold weighted_choice_from, table_abc.
  rewrite !(choice_loop_step _ _ _ _ _ _ (shape_mk_outcome _ _)).
  change (0 + 25 + 25 + 50) with 100. change (0 + 25 + 25) with 50. change (0 + 25) with 25.
  destruct (Z.ltb_spec r 25); [done|]. destruct (Z.ltb_spec r 50); [done|].
  destruct (Z.ltb_spec r 100); [done|].
  unfold last_name. simpl. by rewrite mk_outcome_name.
Qed.

(** C1. For a list of entries with names and integer weights and a sample
    [r] in [[0,100)], [weighted_choice] returns the name of the first entry
    whose cumulative sum exceeds [r].  On the table A 25, B 25, C 50 it
    returns A on [[0,25)], B on [[25,50)] and C on [[50,100)].  When the
    weights sum to 100 exactly one entry is hit, and it is the one returned;
    with weights that are not negative, entry [i] is hit exactly on the
    interval from the sum before it to the sum including it. *)
Theorem weighted_choice_first_hit
    (os : list (gmap (list N) value)) (tbl : list (value * Z)) (r : Z)
    (Htbl : table os = Some tbl) (Hr : 0 ≤ r < 100) :
  (∀ i n z, tbl !! i = Some (n, z) → first_hit tbl r i →
     weighted_choice_from r os = Ret n)
  ∧ ((0 ≤ r < 25 → weighted_choice_from r table_abc = Ret (VStr (lit "A")))
     ∧ (25 ≤ r < 50 → weighted_choice_from r table_abc = Ret (VStr (lit "B")))
     ∧ (50 ≤ r < 100 → weighted_choice_from r table_abc = Ret (VStr (lit "C"))))
  ∧ (total tbl = 100 →
     ∃ i n z, tbl !! i = Some (n, z) ∧ first_hit tbl r i
              ∧ weighted_choice_from r os = Ret n
              ∧ ∀ i', first_hit tbl r i' → i' = i)
  ∧ (Forall (fun nz : value * Z => 0 ≤ nz.2) tbl →
     ∀ i, first_hit tbl r i ↔
          (i < length tbl)%nat ∧ cumulative_upto tbl i ≤ r < cumulative_upto tbl (S i)).
Proof.
  split; [|split; [|split]].
  - intros i n z Hi Hhit. by apply (weighted_choice_hit os tbl r i n z).
  - rewrite weighted_choice_abc. repeat split; intros H.
    + by destruct (Z.ltb_spec r 25); [|lia].
    + destruct (Z.ltb_spec r 25); [lia|]. by destruct (Z.ltb_spec r 50); [|lia].
    + destruct (Z.ltb_spec r 25); [lia|]. by destruct (Z.ltb_spec r 50); [lia|].
  - intros Htot.
    destruct (first_hit_exists tbl r 0) as (i & Hi & Hlt & Hbefore); [lia | lia |].
    assert (first_hit tbl r i) as Hhit.
    { split; [done|]. split; [lia|]. intros j Hj. specialize (Hbefore j Hj). lia. }
    destruct (lookup_lt_is_Some_2 tbl i Hi) as [[n z] Hnz].
    exists i, n, z. split; [done|]. split; [done|]. split.
    + by apply (weighted_choice_hit os tbl r i n z).
    + intros i' Hhit'. by apply (first_hit_unique tbl r).
  - intros Hpos i. apply first_hit_interval; [done | lia].
Qed.

Lemma weighted_choice_first_hit_witness :
  weighted_choice_from 30 table_abc = Ret (VStr (lit "B")).
Proof.
  assert (table table_abc
          = Some [(VStr (lit "A"), 25); (VStr (lit "B"), 25); (VStr (lit "C"), 50)])
    as Htbl by (by vm_compute).
  assert (0 ≤ 30 < 100) as Hr by lia.
  apply (proj1 (weighted_choice_first_hit _ _ 30 Htbl Hr) 1%nat (VStr (lit "B")) 25).
  - reflexivity.
  - split; [simpl; lia|]. split; [by vm_compute|].
    intros j Hj. assert (j = 0%nat) as -> by lia. by vm_compute.
Defined.

(** C3. For a list accepted by [validate_outcomes] and a sample in
    [[0,100)], the loop of [weighted_choice] returns a name itself: the
    statement after the loop is not reached. *)
Theorem validated_choice_returns_in_loop
    (os : list (gmap (list N) value)) (r : Z)
    (Hvalid : validate_outcomes os = Ret (true, Validate.msg_ok)) (Hr : 0 ≤ r < 100) :
  ∃ n, choice_loop r 0 os = Ret (Some n) ∧ weighted_choice_from r os = Ret n.
Proof.
  apply validate_outcomes_accepts in Hvalid as (_ & Hwf & Hsum).
  destruct (well_formed_table os Hwf) as (tbl & Htbl & Htot & _).
  destruct (first_hit_exists tbl r 0) as (i & Hi & Hlt & Hbefore); [lia | lia |].
  destruct (lookup_lt_is_Some_2 tbl i Hi) as [[n z] Hnz].
  exists n. apply (weighted_choice_hit os tbl r i n z); [done | done |].
  split; [done|]. split; [lia|]. intros j Hj. specialize (Hbefore j Hj). lia.
Qed.

Lemma validated_choice_returns_in_loop_witness :
  ∃ n, choice_loop 99 0 (outcomes default_guild_config) = Ret (Some n)
       ∧ weighted_choice_from 99 (outcomes default_guild_config) = Ret n.
Proof.
  apply (validated_choice_returns_in_loop (outcomes default_guild_config) 99).
  - by vm_compute.
  - lia.
Defined.

Lemma choice_loop_cases os tbl r c :
  Forall2 (fun o nz => shape o = Some nz) os tbl →
  choice_loop r c os = Ret None
  ∨ ∃ n o, choice_loop r c os = Ret (Some n) ∧ o ∈ os ∧ o !! k_name = Some n.
Proof.
  intros H. revert c. induction H as [|o [n z] os tbl Ho _ IH]; intros c.
  - by left.
  - rewrite (choice_loop_step _ _ _ _ _ _ Ho). destruct (r <? c + z).
    + right. exists n, o. split; [done|]. split; [by left|].
      by apply shape_Some in Ho as [? _].
    + destruct (IH (c + z)) as [->|(n' & o' & -> & Hin & Hn)]; [by left|].
      right. exists n', o'. split; [done|]. split; [by right | done].
Qed.

Lemma last_name_table os tbl :
  os ≠ [] → Forall2 (fun o nz => shape o = Some nz) os tbl →
  ∃ n o, last_name os = Ret n ∧ last os = Some o ∧ o ∈ os ∧ o !! k_name = Some n.
Proof.
  intros Hne H. unfold last_name.
  destruct (last os) as [o|] eqn:Hlast; [|by apply last_None in Hlast].
  assert (o ∈ os) as Hin.
  { rewrite last_lookup in Hlast. by apply list_elem_of_lookup_2 in Hlast. }
  destruct (list_elem_of_lookup_1 _ _ Hin) as [i Hi].
  destruct (Forall2_lookup_l _ _ _ _ _ H Hi) as ([n z] & _ & (Hn & _)%shape_Some).
  exists n, o. by rewrite Hn.
Qed.

(** C9, as stated, fails: integer weights are not enough.  The list with
    the one entry [{"weight": 100}] is not empty and its weight is an
    integer, but the draw returns no name for any sample: [o["name"]] raises
    [KeyError], in the loop for a sample below 100 and after it otherwise. *)
Lemma weighted_choice_nameless_entry_raises :
  ¬ (∀ os r, os ≠ [] → integer_weights os →
             ∃ n o, weighted_choice_from r os = Ret n ∧ o ∈ os ∧ o !! k_name = Some n).
Proof.
  intros H.
  destruct (H [{[ k_weight := VInt 100 ]}] 0) as (n & o & Hrun & _).
  - discriminate.
  - repeat constructor. exists (VInt 100), 100. by rewrite lookup_singleton_eq.
  - by vm_compute in Hrun.
Qed.

(** C9, amended. On a list that is not empty and whose entries have a name
    and an integer weight, [weighted_choice] returns, for any sample, the
    name of an entry of the list, whatever the weights sum to; when no
    cumulative sum exceeds the sample it is the name of the last entry.  On
    the empty list it raises [IndexError]. *)
Theorem weighted_choice_total
    (os : list (gmap (list N) value)) (tbl : list (value * Z)) (r : Z)
    (Hne : os ≠ []) (Htbl : table os = Some tbl) :
  (∃ n o, weighted_choice_from r os = Ret n ∧ o ∈ os ∧ o !! k_name = Some n)
  ∧ ((∀ j, (j < length tbl)%nat → cumulative_upto tbl (S j) ≤ r) →
     ∃ n o, weighted_choice_from r os = Ret n ∧ last os = Some o ∧ o !! k_name = Some n)
  ∧ weighted_choice_from r [] = Raise IndexError.
Proof.
  apply table_Forall2 in Htbl.
  destruct (last_name_table os tbl Hne Htbl) as (nl & ol & Hlast & Hol & Hin & Hnl).
  split; [|split].
  - unfold weighted_choice_from.
    destruct (choice_loop_cases os tbl r 0 Htbl) as [->|(n & o & -> & Ho & Hn)]; eauto.
  - intros Hall. unfold weighted_choice_from.
    rewrite (choice_loop_miss os tbl r 0 Htbl).
    + eauto.
    + intros j Hj. specialize (Hall j Hj). lia.
  - reflexivity.
Qed.

Lemma weighted_choice_total_witness :
  ∃ n o, weighted_choice_from 99 [mk_outcome (lit "a") 10; mk_outcome (lit "b") 20] = Ret n
         ∧ last [mk_outcome (lit "a") 10; mk_outcome (lit "b") 20] = Some o
         ∧ o !! k_name = Some n.
Proof.
  assert ([mk_outcome (lit "a") 10; mk_outcome (lit "b") 20] ≠ []) as Hne by discriminate.
  assert (table [mk_outcome (lit "a") 10; mk_outcome (lit "b") 20]
          = Some [(VStr (lit "a"), 10); (VStr (lit "b"), 20)]) as Htbl by (by vm_compute).
  apply (proj1 (proj2 (weighted_choice_total _ _ 99 Hne Htbl))).
  intros j Hj. simpl in Hj.
  destruct j as [|[|j]]; [by vm_compute | by vm_compute | lia].
Defined.

(** ** Running a handler *)

Lemma edits_app l l' : edits (l ++ l') = edits l ++ edits l'.
Proof. unfold edits. apply omap_app. Qed.

Ltac unfold_requests :=
  unfold respond, request, try_except, mbind, M_bind, mret, M_ret, ask, lift; simpl.

Ltac run_requests :=
  unfold_requests;
  repeat match goal with
         | |- context [api ?w ?c] => destruct (api w c) as [[]|] eqn:?; simpl
         end;
  rewrite ?edits_app; simpl; rewrite ?app_nil_r.

Ltac split_on_platform :=
  repeat (simpl;
          match goal with
          | |- context [api ?w ?c] => destruct (api w c) as [?|] eqn:?
          | |- context [get_channel ?g ?c] => destruct (get_channel g c) as [?|] eqn:?
          | |- context [is_text_channel ?c] => destruct (is_text_channel c) eqn:?
          | |- context [(?a =? 0)] => destruct (a =? 0) eqn:?
          end).

(** ** The d100 *)

Lemma randbelow_range (w : world) (st : state) (n : Z) :
  0 < n →
  ∃ r, 0 ≤ r < n
       ∧ randbelow n w st
         = (Ret r, {| cfg := cfg st; drawn := S (drawn st);
                      trace := trace st ++ [SecretsRandbelow n r] |}).
Proof.
  intros Hn. exists (entropy w (drawn st) `mod` n). split; [|done].
  by apply Z.mod_pos_bound.
Qed.

(** A dispatch for a member of the guild takes two samples, the first for
    the roll and the second for the outcome, and shows both in the direct
    message. *)
Lemma dispatch_draws w st p g gconf mid cid u name :
  get_member g (p_user_id p) = Some u →
  weighted_choice_from (entropy w (S (drawn st)) `mod` 100) (outcomes gconf)
  = Ret (VStr name) →
  drawn (dispatch p g gconf mid cid w st).2 = S (S (drawn st))
  ∧ ∃ rest,
      trace (dispatch p g gconf mid cid w st).2
      = trace st
        ++ [SecretsRandbelow 100 (entropy w (drawn st) `mod` 100);
            SecretsRandbelow 100 (entropy w (S (drawn st)) `mod` 100);
            Called (UserSend (user_id u)
                      (Text.dm (roll_d100_from (entropy w (drawn st) `mod` 100)) name
                         (trigger_emoji gconf) (guild_name g)))]
        ++ rest
      ∧ Forall (fun e => ∀ n r, e ≠ SecretsRandbelow n r) rest.
Proof.
  intros Hu Hchoice. unfold dispatch. rewrite Hu.
  unfold roll_d100, weighted_choice, randbelow.
  destruct (mod_channel_id gconf) as [mc|]; unfold_requests; rewrite Hchoice; simpl.
  all: split_on_platform.
  all: split; [done|].
  all: simpl; repeat rewrite <- app_assoc; simpl.
  all: eexists; split; [reflexivity|].
  all: repeat constructor; discriminate.
Qed.

(** *** The laws of the two draws *)

Lemma fmap_bind_list {A B C} (f : B → C) (g : A → list B) (l : list A) :
  f <$> (l ≫= g) = l ≫= (fun x => f <$> g x).
Proof.
  induction l as [|x l IH]; [done|]. by rewrite !bind_cons, fmap_app, IH.
Qed.

Lemma bind_singleton_fmap {A B} (g : A → B) (l : list A) :
  l ≫= (fun x => [g x]) = g <$> l.
Proof. induction l as [|x l IH]; [done|]. by rewrite bind_cons, IH. Qed.

Lemma bind_ext_in {A B} (f g : A → list B) (l : list A) :
  Forall (fun x => f x = g x) l → l ≫= f = l ≫= g.
Proof. induction 1 as [|x l Hx _ IH]; [done|]. by rewrite !bind_cons, Hx, IH. Qed.

Lemma law_one {A} (m : M A) w st n :
  law m w st n 1 = (fun r => (m (with_samples w (drawn st) [r]) st).1) <$> seqZ 0 n.
Proof.
  unfold law. cbn [samples]. rewrite fmap_bind_list. cbn [fmap list_fmap].
  apply bind_singleton_fmap.
Qed.

Lemma law_two {A} (m : M A) w st n :
  law m w st n 2
  = r1 ← seqZ 0 n; (fun r2 => (m (with_samples w (drawn st) [r1; r2]) st).1) <$> seqZ 0 n.
Proof.
  unfold law. cbn [samples]. rewrite fmap_bind_list. apply bind_ext_in, Forall_forall.
  intros r1 _. rewrite <- list_fmap_compose, fmap_bind_list. cbn [fmap list_fmap].
  by rewrite bind_singleton_fmap.
Qed.

Lemma with_samples_first w d r rs : entropy (with_samples w d (r :: rs)) d = r.
Proof. simpl. by rewrite Nat.leb_refl, Nat.sub_diag. Qed.

Lemma with_samples_second w d r1 r2 rs :
  entropy (with_samples w d (r1 :: r2 :: rs)) (S d) = r2.
Proof.
  simpl. destruct (Nat.leb_spec d (S d)); [|lia].
  by replace (S d - d)%nat with 1%nat by lia.
Qed.

Lemma roll_d100_law w st : law roll_d100 w st 100 1 = Ret <$> seqZ 1 100.
Proof.
  rewrite law_one.
  transitivity ((fun r => Ret (roll_d100_from r)) <$> seqZ 0 100); [|by vm_compute].
  apply Forall_fmap_ext, Forall_seqZ. intros r Hr.
  unfold roll_d100, mbind, M_bind, randbelow. cbn [fst]. rewrite with_samples_first.
  by rewrite Z.mod_small by lia.
Qed.

Lemma weighted_choice_law w st os :
  law (weighted_choice os) w st 100 1 = (fun r => weighted_choice_from r os) <$> seqZ 0 100.
Proof.
  rewrite law_one. apply Forall_fmap_ext, Forall_seqZ. intros r Hr.
  unfold weighted_choice, mbind, M_bind, randbelow, lift. cbn [fst].
  rewrite with_samples_first. by rewrite Z.mod_small by lia.
Qed.

(** The two results together, when the second draw returns. *)
Lemma draw_both_run w st os :
  let r1 := entropy w (drawn st) `mod` 100 in
  let r2 := entropy w (S (drawn st)) `mod` 100 in
  draw_both os w st
  = (match weighted_choice_from r2 os with
     | Ret outcome => Ret (roll_d100_from r1, outcome)
     | Raise e => Raise e
     | Unmodelled => Unmodelled
     end,
     {| cfg := cfg st; drawn := S (S (drawn st));
        trace := trace st ++ [SecretsRandbelow 100 r1; SecretsRandbelow 100 r2] |}).
Proof.
  unfold draw_both, roll_d100, weighted_choice, mbind, M_bind, randbelow, lift.
  simpl. rewrite <- app_assoc. simpl.
  by destruct (weighted_choice_from _ os).
Qed.

Lemma draw_both_law w st os :
  law (draw_both os) w st 100 2
  = r1 ← seqZ 0 100;
    (fun r2 => (fun o => (roll_d100_from r1, o)) <$> weighted_choice_from r2 os)
      <$> seqZ 0 100.
Proof.
  rewrite law_two. apply bind_ext_in, Forall_seqZ. intros r1 Hr1.
  apply Forall_fmap_ext, Forall_seqZ. intros r2 Hr2.
  rewrite draw_both_run. cbn [fst].
  rewrite with_samples_first, with_samples_second.
  rewrite !Z.mod_small by lia. by destruct (weighted_choice_from r2 os).
Qed.

Lemma cases_app {A} `{EqDecision A} (x : A) l l' :
  cases x (l ++ l') = (cases x l + cases x l')%nat.
Proof. unfold cases. by rewrite filter_app, length_app. Qed.

Lemma cases_cons {A} `{EqDecision A} (x y : A) l :
  cases x (y :: l) = ((if decide (x = y) then 1 else 0) + cases x l)%nat.
Proof. unfold cases. rewrite filter_cons. by destruct (decide (x = y)). Qed.

(** Pairs of a first result [f r1] and a second result [g r2] over all
    [r1] of [l1] and [r2] of [l2]: the pair [(v, o)] comes up as often as
    [v] among the first results times [o] among the second. *)
Lemma cases_product {B} `{EqDecision B} (f : Z → Z) (g : Z → result B) l1 l2 v o :
  cases (Ret (v, o)) (r1 ← l1; (fun r2 => (fun b => (f r1, b)) <$> g r2) <$> l2)
  = (cases (Ret v) ((fun r => Ret (f r)) <$> l1) * cases (Ret o) (g <$> l2))%nat.
Proof.
  assert (∀ a, cases (Ret (v, o)) ((fun r2 => (fun b => (f a, b)) <$> g r2) <$> l2)
               = ((if decide (Ret v = Ret (f a) :> result Z) then 1 else 0)
                  * cases (Ret o) (g <$> l2))%nat) as Hrow.
  { intros a. induction l2 as [|r2 l2 IH]; [by rewrite Nat.mul_0_r|].
    rewrite !fmap_cons, !cases_cons, IH.
    destruct (g r2) as [b| |]; cbn [fmap result_fmap];
      repeat case_decide; simplify_eq; lia. }
  induction l1 as [|a l1 IH]; [done|].
  rewrite bind_cons, cases_app, IH, Hrow, fmap_cons, cases_cons. lia.
Qed.

Lemma cases_once {A} `{EqDecision A} (x : A) l : NoDup l → x ∈ l → cases x l = 1%nat.
Proof.
  assert (∀ l : list A, x ∉ l → cases x l = 0%nat) as Hnone.
  { intros l'. induction l' as [|y l' IH]; [done|]. intros Hx. rewrite cases_cons.
    rewrite not_elem_of_cons in Hx. destruct Hx as [Hxy Hx].
    rewrite decide_False by done. by rewrite IH. }
  induction 1 as [|y l Hy _ IH]; [by intros ?%elem_of_nil|].
  intros Hx. rewrite cases_cons. destruct (decide (x = y)) as [->|Hxy].
  - by rewrite Hnone.
  - apply elem_of_cons in Hx as [?|Hx]; [done|]. by rewrite IH.
Qed.

Lemma cases_Ret {A} `{EqDecision A} (x : A) l : cases (Ret x) (Ret <$> l) = cases x l.
Proof.
  induction l as [|y l IH]; [done|]. rewrite fmap_cons, !cases_cons, IH.
  repeat case_decide; simplify_eq; done.
Qed.


(** ** The configuration store: creation on first use *)

Lemma uint_codes_inj u u' : PyStr.uint_codes u = PyStr.uint_codes u' → u = u'.
Proof.
  revert u'. induction u as [|u IH|u IH|u IH|u IH|u IH|u IH|u IH|u IH|u IH|u IH];
    intros [|u'|u'|u'|u'|u'|u'|u'|u'|u'|u']; simpl; intros H; try discriminate;
    try reflexivity; injection H as H; f_equal; by apply IH.
Qed.

Lemma uint_codes_no_sign u r : PyStr.uint_codes u ≠ 45%N :: r.
Proof. destruct u; simpl; congruence. Qed.

(** Distinct guilds have distinct keys. *)
Lemma guild_key_inj gid gid' : guild_key gid = guild_key gid' → gid = gid'.
Proof.
  unfold guild_key, PyStr.of_int. intros H.
  rewrite <- (DecimalZ.of_to gid), <- (DecimalZ.of_to gid'). f_equal.
  destruct (Z.to_int gid) as [u|u], (Z.to_int gid') as [u'|u']; simpl in H.
  - f_equal. by apply uint_codes_inj.
  - by apply uint_codes_no_sign in H.
  - symmetry in H. by apply uint_codes_no_sign in H.
  - injection H as H. f_equal. by apply uint_codes_inj.
Qed.

Lemma get_guild_config_absent w st gid :
  cfg st !! guild_key gid = None →
  get_guild_config gid w st
  = (Ret default_guild_config,
     {| cfg := <[guild_key gid := default_guild_config]> (cfg st);
        drawn := drawn st;
        trace := trace st
                 ++ [SaveConfig (<[guild_key gid := default_guild_config]> (cfg st))] |}).
Proof. intros H. unfold get_guild_config. by rewrite H. Qed.

Lemma get_guild_config_present w st gid gconf :
  cfg st !! guild_key gid = Some gconf → get_guild_config gid w st = (Ret gconf, st).
Proof. intros H. unfold get_guild_config. by rewrite H. Qed.

(** [get_guild_config] returns, draws nothing and asks nothing of the
    platform. *)
Lemma get_guild_config_returns w st gid :
  ∃ st1, get_guild_config gid w st = (Ret (stored_or_default st gid), st1)
         ∧ drawn st1 = drawn st
         ∧ (trace st1 = trace st ∨ ∃ c, trace st1 = trace st ++ [SaveConfig c])
         ∧ cfg st1 !! guild_key gid = Some (stored_or_default st gid).
Proof.
  unfold stored_or_default. destruct (cfg st !! guild_key gid) as [gconf|] eqn:E.
  - exists st. rewrite (get_guild_config_present _ _ _ _ E). eauto.
  - rewrite (get_guild_config_absent _ _ _ E). eexists. split; [reflexivity|]. simpl.
    split; [done|]. split; [eauto|]. by rewrite lookup_insert_eq.
Qed.



(** ** The reaction trigger: events left alone *)

Lemma on_raw_reaction_add_unfold p w st :
  on_raw_reaction_add p w st =
    if p_user_id p =? bot_user_id w then (Ret tt, st)
    else match event_guild w p with
         | None => (Ret tt, st)
         | Some g => (get_guild_config (guild_id g) ≫= check_trigger p g) w st
         end.
Proof.
  unfold on_raw_reaction_add, event_guild, mbind at 1, M_bind, ask.
  destruct (p_user_id p =? bot_user_id w); [done|].
  by destruct (if truthy (p_guild_id p) then _ else _).
Qed.

Lemma check_trigger_ignored p g gconf w st :
  truthy (trigger_message_id gconf) = false
  ∨ truthy (trigger_channel_id gconf) = false
  ∨ trigger_message_id gconf ≠ Some (p_message_id p)
  ∨ trigger_channel_id gconf ≠ Some (p_channel_id p)
  ∨ p_emoji p ≠ trigger_emoji gconf →
  check_trigger p g gconf w st = (Ret tt, st).
Proof.
  intros H. unfold check_trigger.
  destruct (truthy (trigger_message_id gconf)) eqn:Hm; [|done].
  destruct (truthy (trigger_channel_id gconf)) eqn:Hc; [|done]. simpl.
  destruct (trigger_message_id gconf) as [mid|]; [|done].
  destruct (trigger_channel_id gconf) as [cid|]; [|done].
  destruct (Z.eqb_spec (p_message_id p) mid) as [<-|]; simpl;
    [|done].
  destruct (Z.eqb_spec (p_channel_id p) cid) as [<-|]; simpl; [|done].
  case_bool_decide; [done|].
  destruct H as [H|[H|[H|[H|H]]]]; done.
Qed.

(** C6. The trigger leaves an event alone when it comes from the bot itself,
    when it has no guild the client knows, when the guild has no stored
    configuration, when the trigger binding is unset, when the message or
    the channel differs from the bound one, or when the emoji text differs
    from the configured one: the handler returns without drawing a sample and
    without any request to the platform (no direct message, no log post, no
    removal of the reaction). *)
Theorem ignored_reaction_has_no_effect (w : world) (st : state) (p : payload)
    (Hignored : ignored w st p) :
  ∃ st' evs,
    on_raw_reaction_add p w st = (Ret tt, st')
    ∧ drawn st' = drawn st
    ∧ trace st' = trace st ++ evs
    ∧ Forall (fun e => roll_event e = false) evs
    ∧ Forall (fun e => ∀ c, e ≠ Called c) evs.
Proof.
  rewrite on_raw_reaction_add_unfold.
  assert (∃ st' evs, (Ret tt, st) = (Ret tt, st') ∧ drawn st' = drawn st
                     ∧ trace st' = trace st ++ evs
                     ∧ Forall (fun e => roll_event e = false) evs
                     ∧ Forall (fun e => ∀ c, e ≠ Called c) evs) as Hnothing.
  { exists st, []. by rewrite app_nil_r. }
  destruct (Z.eqb_spec (p_user_id p) (bot_user_id w)) as [|Hbot]; [done|].
  destruct Hignored as [?|[->|(g & -> & Hg)]]; [done | done |].
  unfold mbind, M_bind.
  destruct Hg as [Habsent|(gconf & Hpresent & Hcheck)].
  - rewrite (get_guild_config_absent _ _ _ Habsent).
    rewrite check_trigger_ignored by (by left).
    eexists _, [_]. split; [done|]. split; [done|]. split; [done|].
    split; by repeat constructor.
  - rewrite (get_guild_config_present _ _ _ _ Hpresent).
    by rewrite check_trigger_ignored.
Qed.

Lemma ignored_reaction_has_no_effect_witness :
  ∃ st' evs,
    on_raw_reaction_add (Example.reaction 5 777 (lit "🎲")) Example.the_world Example.set_up
    = (Ret tt, st')
    ∧ drawn st' = 0%nat ∧ trace st' = [] ++ evs
    ∧ Forall (fun e => roll_event e = false) evs
    ∧ Forall (fun e => ∀ c, e ≠ Called c) evs.
Proof.
  apply (ignored_reaction_has_no_effect Example.the_world Example.set_up
           (Example.reaction 5 777 (lit "🎲"))).
  right. right. exists Example.the_guild. split; [reflexivity|].
  right. exists Example.set_up_config. split; [by vm_compute|].
  right. right. left. by vm_compute.
Defined.

(** ** The reaction trigger: creation of the default record *)




(** ** Editing a log message *)

(** Either all checks pass and one edit is requested, of the message found
    and with the new text, or some check fails and none is. *)
Lemma edit_log_cases w st g gconf a t :
  let st' := (edit_log g gconf a t w st).2 in
  (∃ ch mid, edit_checks w g gconf a ch mid
             ∧ edits (trace st') = edits (trace st) ++ [(channel_id ch, mid, t)])
  ∨ ((∀ ch mid, ¬ edit_checks w g gconf a ch mid) ∧ edits (trace st') = edits (trace st)).
Proof.
  unfold edit_log, edit_checks.
  destruct (truthy (mod_channel_id gconf)) eqn:Hset; simpl.
  2:{ right. split; [intros ch mid (? & _); congruence | by run_requests]. }
  destruct (mod_channel_id gconf ≫= get_channel g) as [ch|] eqn:Hch.
  2:{ right. split; [intros ch mid (_ & ? & _); congruence | by run_requests]. }
  destruct (is_text_channel ch) eqn:Htext; simpl.
  2:{ right. split; [intros ch' mid (_ & ? & ? & _); congruence | by run_requests]. }
  destruct (PyInt.int a) as [mid|e|] eqn:Hint.
  2:{ right. split; [intros ch' mid (_ & _ & _ & ? & _); congruence|].
      destruct e; by run_requests. }
  2:{ right. split; [intros ch' mid (_ & _ & _ & ? & _); congruence | by run_requests]. }
  destruct (api w (FetchMessage (channel_id ch) mid)) as [e|] eqn:Hfetch.
  { right. split; [intros ch' mid' (_ & [= <-] & _ & [= <-] & ? & _); congruence|].
    unfold_requests. rewrite Hfetch. simpl. destruct e; simpl; by run_requests. }
  destruct (Z.eqb_spec (author_id (fetched_message w (channel_id ch) mid)) (bot_user_id w))
    as [Hown|Hown].
  - left. exists ch, mid. split; [done|].
    unfold_requests. rewrite Hfetch. simpl.
    destruct (Z.eqb_spec (author_id (fetched_message w (channel_id ch) mid))
                (bot_user_id w)); [|done].
    simpl. by run_requests.
  - right. split; [intros ch' mid' (_ & [= <-] & _ & [= <-] & _ & ?); congruence|].
    unfold_requests. rewrite Hfetch. simpl.
    destruct (Z.eqb_spec (author_id (fetched_message w (channel_id ch) mid))
                (bot_user_id w)); [done|].
    simpl. by run_requests.
Qed.

(** A failed check ends the command with the reply for that check. *)
Lemma edit_log_fails w st g gconf a t f :
  edit_fails w g gconf a f →
  ∃ evs, trace (edit_log g gconf a t w st).2
         = trace st ++ evs ++ [Called (Respond (edit_failure_text f))].
Proof.
  unfold edit_log. destruct f; simpl.
  - intros ->. simpl. exists []. by run_requests.
  - intros [-> [->|(ch & -> & ->)]]; simpl; exists []; by run_requests.
  - intros (-> & (ch & -> & ->) & ->). simpl. exists []. by run_requests.
  - intros (-> & ch & mid & -> & -> & -> & Hfetch). simpl.
    exists [Called (FetchMessage (channel_id ch) mid)].
    unfold_requests. rewrite Hfetch. simpl.
    destruct (api w (Respond Text.message_missing)); simpl; by rewrite <- app_assoc.
  - intros (-> & ch & mid & -> & -> & -> & Hfetch & Hown). simpl.
    exists [Called (FetchMessage (channel_id ch) mid)].
    unfold_requests. rewrite Hfetch. simpl.
    destruct (Z.eqb_spec (author_id (fetched_message w (channel_id ch) mid))
                (bot_user_id w)); [done|].
    simpl. destruct (api w (Respond Text.not_my_message)); simpl; by rewrite <- app_assoc.
Qed.

Lemma edit_fails_checks w g gconf a f ch mid :
  edit_fails w g gconf a f → ¬ edit_checks w g gconf a ch mid.
Proof.
  unfold edit_checks. intros Hf (Hset & Hch & Htext & Hint & Hfetch & Hown).
  destruct f; simpl in Hf.
  - congruence.
  - destruct Hf as [_ [?|(ch' & ? & ?)]]; congruence.
  - destruct Hf as (_ & _ & ?). congruence.
  - destruct Hf as (_ & ch' & mid' & ? & _ & ? & ?). congruence.
  - destruct Hf as (_ & ch' & mid' & ? & _ & ? & _ & ?). congruence.
Qed.

Lemma editrolllog_moderator w st i a t g :
  i_guild i = Some g → is_mod i = true →
  ∃ st1, editrolllog i a t w st = edit_log g (stored_or_default st (guild_id g)) a t w st1
         ∧ edits (trace st1) = edits (trace st)
         ∧ ∃ evs, trace st1 = trace st ++ evs.
Proof.
  intros Hg Hmod. unfold editrolllog, as_moderator. rewrite Hg, Hmod. simpl.
  destruct (get_guild_config_returns w st (guild_id g)) as (st1 & Hcfg & _ & Htr & _).
  exists st1. unfold mbind, M_bind. rewrite Hcfg. split; [done|].
  destruct Htr as [->|[c ->]].
  - split; [done|]. exists []. by rewrite app_nil_r.
  - rewrite edits_app. simpl. rewrite app_nil_r. eauto.
Qed.

(** C7. [editrolllog] requests the edit of a message exactly when all its
    checks pass, and then of the message found, with the new text.  For a
    moderator it ends with the reply of the first check that fails and
    without any edit: no moderator channel configured, moderator channel not
    resolved to a text channel, id that [int] refuses, message not found in
    the channel, message written by somebody else. *)
Theorem editrolllog_checks (w : world) (st : state) (i : interaction)
    (message_id_arg new_text : list N) :
  let st' := (editrolllog i message_id_arg new_text w st).2 in
  (∀ ch mid, edit_allowed w st i message_id_arg ch mid →
     edits (trace st') = edits (trace st) ++ [(channel_id ch, mid, new_text)])
  ∧ ((∀ ch mid, ¬ edit_allowed w st i message_id_arg ch mid) →
     edits (trace st') = edits (trace st))
  ∧ (∀ g f, i_guild i = Some g → is_mod i = true →
       edit_fails w g (stored_or_default st (guild_id g)) message_id_arg f →
       edits (trace st') = edits (trace st)
       ∧ ∃ evs, trace st' = trace st ++ evs ++ [Called (Respond (edit_failure_text f))]).
Proof.
  intros st'. subst st'.
  destruct (i_guild i) as [g|] eqn:Hg.
  2:{ assert (edits (trace (editrolllog i message_id_arg new_text w st).2)
              = edits (trace st)) as Hnone.
      { unfold editrolllog, as_moderator. rewrite Hg. by run_requests. }
      split; [intros ch mid (g' & ? & _); congruence|]. split; [done|].
      intros g' f ?. congruence. }
  destruct (is_mod i) eqn:Hmod.
  2:{ assert (edits (trace (editrolllog i message_id_arg new_text w st).2)
              = edits (trace st)) as Hnone.
      { unfold editrolllog, as_moderator. rewrite Hg, Hmod. by run_requests. }
      split; [intros ch mid (g' & _ & ? & _); congruence|]. split; [done|].
      intros g' f _ ?. congruence. }
  destruct (editrolllog_moderator w st i message_id_arg new_text g Hg Hmod)
    as (st1 & -> & Hed & evs1 & Htr).
  pose proof (edit_log_cases w st1 g (stored_or_default st (guild_id g))
                message_id_arg new_text) as Hcases.
  simpl in Hcases. rewrite Hed in Hcases.
  split; [|split].
  - intros ch mid (g' & Hg' & _ & Hchecks).
    rewrite Hg in Hg'. injection Hg' as <-.
    destruct Hcases as [(ch' & mid' & Hchecks' & ->)|[Hno _]]; [|by destruct (Hno ch mid)].
    destruct Hchecks as (_ & Hch & _ & Hint & _), Hchecks' as (_ & Hch' & _ & Hint' & _).
    congruence.
  - intros Hno. destruct Hcases as [(ch & mid & Hchecks & _)|[_ ?]]; [|done].
    destruct (Hno ch mid). by exists g.
  - intros g' f Hg' _ Hf. injection Hg' as <-. split.
    + destruct Hcases as [(ch & mid & Hchecks & _)|[_ ?]]; [|done].
      by destruct (edit_fails_checks _ _ _ _ _ ch mid Hf).
    + destruct (edit_log_fails w st1 g _ message_id_arg new_text f Hf) as [evs ->].
      exists (evs1 ++ evs). rewrite Htr. by rewrite <- !app_assoc.
Qed.

Lemma editrolllog_checks_witness :
  edits (trace (editrolllog Example.moderator (lit "556") (lit "fixed")
                  Example.the_world Example.set_up).2)
  = edits (trace Example.set_up).
Proof.
  apply (proj2 (proj2 (editrolllog_checks Example.the_world Example.set_up Example.moderator
                         (lit "556") (lit "fixed")))
           Example.the_guild NotOwnMessage).
  - reflexivity.
  - reflexivity.
  - split; [by vm_compute|]. exists Example.log_channel, 556.
    repeat split; by vm_compute.
Defined.

(** ** Setting the odds *)

Lemma int_unsigned_result s : (∃ v, PyInt.unsigned s = Ret v) ∨ PyInt.unsigned s = Raise ValueError.
Proof.
  unfold PyInt.unsigned. destruct s as [|c r]; [by right|].
  destruct (PyStr.decimal_value c); [|by right].
  destruct (PyInt.digits _ _ _) as [[[v n] rest]|]; [|by right].
  destruct (_ <? _)%N; [by right|]. destruct (forallb _ _); eauto.
Qed.

(** [int] returns or raises [ValueError]. *)
Lemma int_result s : (∃ v, PyInt.int s = Ret v) ∨ PyInt.int s = Raise ValueError.
Proof.
  unfold PyInt.int. destruct (PyStr.lstrip_by _ s) as [|c r]; [by right|].
  destruct (c =? 45)%N.
  - destruct (int_unsigned_result r) as [[v ->]| ->]; eauto.
  - destruct (c =? 43)%N; apply int_unsigned_result.
Qed.

Lemma parse_odds_result parts parsed :
  (∃ r, parse_odds parts parsed = Ret r) ∨ parse_odds parts parsed = Raise ValueError.
Proof.
  revert parsed. induction parts as [|p rest IH]; intros parsed; simpl; [eauto|].
  destruct (PyStr.split_once 61 p) as [[name weight_str]|]; [|eauto].
  destruct (PyStr.isdigit _); simpl; [|eauto].
  destruct (int_result (PyStr.strip weight_str)) as [[v ->]| ->]; [apply IH | by right].
Qed.

Lemma alter_after_lookup (m : gmap (list N) GuildConfig) k f x :
  m !! k = Some x → alter f k m = <[k := f x]> m.
Proof.
  intros H. apply map_eq. intros k'. rewrite lookup_alter, lookup_insert.
  case_decide; [subst; by rewrite H | done].
Qed.

(** What [setodds] does: it raises [ValueError], from [int] or from printing
    the sum of the weights, and leaves the state as it was; or it answers
    with one message and changes neither the records nor the file; or, for a
    moderator whose text parses to a list that [validate_outcomes] accepts,
    it replaces the outcomes of the guild by that list, writes the file and
    confirms. *)
Lemma setodds_cases w st i odds :
  (setodds i odds w st = (Raise ValueError, st))
  ∨ (∃ text, (setodds i odds w st).2
             = {| cfg := cfg st; drawn := drawn st;
                  trace := trace st ++ [Called (Respond text)] |})
  ∨ (∃ g parsed evs,
       i_guild i = Some g ∧ is_mod i = true
       ∧ parse_odds (odds_parts odds) [] = Ret (inr parsed)
       ∧ validate_outcomes (entries parsed) = Ret (true, Validate.msg_ok)
       ∧ cfg (setodds i odds w st).2
         = <[guild_key (guild_id g)
             := set_outcomes (entries parsed) (stored_or_default st (guild_id g))]> (cfg st)
       ∧ trace (setodds i odds w st).2
         = trace st ++ evs ++ [SaveConfig (cfg (setodds i odds w st).2);
                               Called (Respond (Text.odds_updated parsed))]).
Proof.
  remember (setodds i odds w st) as run eqn:Hrun.
  unfold setodds, as_moderator in Hrun.
  destruct (i_guild i) as [g|] eqn:Hg.
  2:{ right. left. eexists. subst run. by run_requests. }
  destruct (is_mod i) eqn:Hmod; simpl in Hrun.
  2:{ right. left. eexists. subst run. by run_requests. }
  unfold mbind at 1, M_bind at 1, lift at 1 in Hrun.
  destruct (parse_odds_result (odds_parts odds) []) as [[[text|parsed] Hparse]|Hparse];
    rewrite Hparse in Hrun.
  - right. left. eexists. subst run. by run_requests.
  - simpl in Hrun. unfold mbind at 1, M_bind at 1, lift at 1 in Hrun.
    destruct (validate_outcomes_result (entries parsed)) as [(ok & msg & Hvalid)|Hvalid];
      rewrite Hvalid in Hrun; [|by left].
    destruct ok; simpl in Hrun.
    2:{ right. left. eexists. subst run. by run_requests. }
    right. right. exists g, parsed.
    pose proof (validate_outcomes_ok _ _ Hvalid) as Hok.
    unfold stored_or_default. unfold mbind, M_bind in Hrun.
    destruct (cfg st !! guild_key (guild_id g)) as [gconf|] eqn:Hcfg.
    + exists [].
      rewrite (get_guild_config_present _ _ _ _ Hcfg) in Hrun.
      unfold update_guild, save_config, emit in Hrun. simpl in Hrun.
      rewrite (alter_after_lookup _ _ _ _ Hcfg) in Hrun.
      subst run. repeat split; try done; run_requests; by rewrite <- ?app_assoc.
    + exists [SaveConfig (<[guild_key (guild_id g) := default_guild_config]> (cfg st))].
      rewrite (get_guild_config_absent _ _ _ Hcfg) in Hrun.
      unfold update_guild, save_config, emit in Hrun. simpl in Hrun.
      rewrite (alter_after_lookup _ _ _ default_guild_config) in Hrun
        by apply lookup_insert_eq.
      rewrite insert_insert_eq in Hrun.
      subst run. repeat split; try done; run_requests; by rewrite <- ?app_assoc.
  - by left.
Qed.

(** Three inputs of [setodds]: one that parses, one whose weights sum to 120,
    one whose weight is a word. *)
Lemma setodds_examples :
  parse_odds (odds_parts (lit "powers, curse=25; powers, blessing=25; no powers=50")) []
  = Ret (inr [(lit "powers, curse", 25); (lit "powers, blessing", 25); (lit "no powers", 50)])
  ∧ setodds Example.moderator (lit "a=60;b=60") Example.the_world Example.set_up
    = (Ret tt,
       {| cfg := cfg Example.set_up; drawn := 0;
          trace := [Called (Respond (Text.invalid (Validate.msg_total (lit "120"))))] |})
  ∧ setodds Example.moderator (lit "a=five") Example.the_world Example.set_up
    = (Ret tt,
       {| cfg := cfg Example.set_up; drawn := 0;
          trace := [Called (Respond (Text.weight_not_int (lit "a=five")))] |}).
Proof. by vm_compute. Qed.

(** [int] on a run of nines. *)
Lemma digits_nines n acc count :
  PyInt.digits acc count (replicate n 57%N)
  = Some (acc * 10 ^ Z.of_nat n + (10 ^ Z.of_nat n - 1), (count + N.of_nat n)%N, []).
Proof.
  revert acc count. induction n as [|n IH]; intros acc count.
  - simpl. do 2 f_equal. f_equal; lia.
  - change (replicate (S n) 57%N) with (57%N :: replicate n 57%N). cbn [PyInt.digits].
    change (PyStr.decimal_value 57) with (Some 9). lazy beta iota. rewrite IH.
    rewrite Nat2Z.inj_succ, Z.pow_succ_r by lia.
    generalize (10 ^ Z.of_nat n). intros x. do 2 f_equal. f_equal; lia.
Qed.

Lemma int_nines n :
  (N.of_nat (S n) ≤ PyInt.int_max_str_digits)%N →
  PyInt.int (replicate (S n) 57%N) = Ret (10 ^ Z.of_nat (S n) - 1).
Proof.
  intros Hn. change (replicate (S n) 57%N) with (57%N :: replicate n 57%N).
  unfold PyInt.int. cbn [PyStr.lstrip_by].
  change (PyInt.int_space 57) with false. cbn iota.
  change (57 =? 45)%N with false. change (57 =? 43)%N with false. cbn iota.
  unfold PyInt.unsigned. change (PyStr.decimal_value 57) with (Some 9).
  lazy beta iota. rewrite digits_nines.
  destruct (N.ltb_spec PyInt.int_max_str_digits (1 + N.of_nat n)); [lia|].
  cbn [forallb]. rewrite Nat2Z.inj_succ, Z.pow_succ_r by lia.
  generalize (10 ^ Z.of_nat n). intros x. f_equal. lia.
Qed.

Lemma isdigit_nines n : PyStr.isdigit (replicate (S n) 57%N) = true.
Proof.
  unfold PyStr.isdigit. change (replicate (S n) 57%N) with (57%N :: replicate n 57%N).
  apply forallb_forall. intros c Hc.
  assert (c = 57%N) as ->; [|by vm_compute].
  apply list_elem_of_In in Hc. apply elem_of_cons in Hc as [->|Hc]; [done|].
  by apply elem_of_replicate in Hc as [-> _].
Qed.

(** A text that neither starts nor ends with a blank is its own [strip]. *)
Lemma strip_between c s c' :
  PyStr.is_space c = false → PyStr.is_space c' = false →
  PyStr.strip (c :: s ++ [c']) = c :: s ++ [c'].
Proof.
  intros Hc Hc'. unfold PyStr.strip, PyStr.rstrip_by. cbn [PyStr.lstrip_by]. rewrite Hc.
  change (c :: s ++ [c']) with ((c :: s) ++ [c']). rewrite rev_unit.
  cbn [PyStr.lstrip_by]. rewrite Hc'.
  by rewrite <- (rev_unit (c :: s) c'), rev_involutive.
Qed.

Lemma replicate_snoc {A} n (x : A) : replicate (S n) x = replicate n x ++ [x].
Proof. induction n as [|n IH]; [done|]. cbn [replicate app] in *. by rewrite <- IH. Qed.

Lemma strip_nines n :
  PyStr.strip (replicate (S (S n)) 57%N) = replicate (S (S n)) 57%N.
Proof.
  change (replicate (S (S n)) 57%N) with (57%N :: replicate (S n) 57%N).
  rewrite replicate_snoc. by apply strip_between.
Qed.

Lemma strip_before_nines n :
  PyStr.strip (lit "a=" ++ replicate (S n) 57%N) = lit "a=" ++ replicate (S n) 57%N.
Proof.
  rewrite replicate_snoc.
  change (PyStr.strip (97%N :: (61%N :: replicate n 57%N) ++ [57%N])
          = 97%N :: (61%N :: replicate n 57%N) ++ [57%N]).
  by apply strip_between.
Qed.

(** What [setodds] reads from [Example.long_odds]: two well formed entries
    whose weights sum to [PyInt.str_limit]. *)
Lemma parse_long_odds :
  parse_odds (odds_parts Example.long_odds) []
  = Ret (inr [(lit "a", PyInt.str_limit - 1); (lit "b", 1)]).
Proof.
  assert (PyStr.strip (replicate 4300 57%N) = replicate 4300 57%N) as Hnines
    by exact (strip_nines 4298).
  assert (odds_parts Example.long_odds = [lit "a=" ++ replicate 4300 57%N; lit "b=1"]) as ->.
  { unfold odds_parts.
    assert (PyStr.split 59 Example.long_odds = [lit "a=" ++ replicate 4300 57%N; lit "b=1"])
      as -> by (by vm_compute).
    cbn [map].
    assert (PyStr.strip (lit "a=" ++ replicate 4300 57%N) = lit "a=" ++ replicate 4300 57%N)
      as -> by exact (strip_before_nines 4299).
    assert (PyStr.strip (lit "b=1") = lit "b=1") as -> by (by vm_compute).
    by vm_compute. }
  cbn [parse_odds].
  assert (PyStr.split_once 61 (lit "a=" ++ replicate 4300 57%N)
          = Some (lit "a", replicate 4300 57%N)) as -> by (by vm_compute).
  cbn beta iota zeta. rewrite Hnines.
  rewrite (isdigit_nines 4299). cbn [negb]. cbn iota.
  rewrite (int_nines 4299) by (by vm_compute).
  assert (PyStr.split_once 61 (lit "b=1") = Some (lit "b", lit "1")) as ->
    by (by vm_compute).
  cbn beta iota zeta.
  assert (PyStr.strip (lit "a") = lit "a") as -> by (by vm_compute).
  assert (PyStr.strip (lit "b") = lit "b") as -> by (by vm_compute).
  assert (PyStr.strip (lit "1") = lit "1") as -> by (by vm_compute).
  assert (PyStr.isdigit (lit "1") = true) as -> by (by vm_compute).
  assert (PyInt.int (lit "1") = Ret 1) as -> by (by vm_compute).
  cbn [negb app]. cbn iota. reflexivity.
Qed.

(** C2, where the code departs from it: for two well formed entries whose
    weights sum to [10 ^ 4300], a sum other than 100, [validate_outcomes]
    does not return a refusal with its reason: building the message that
    shows the sum raises [ValueError], because [str] prints no integer of
    more than 4300 digits.  A moderator reaches this with the text
    [Example.long_odds], of 4306 characters; [setodds] then raises before it
    answers, with nothing changed. *)
Theorem validate_outcomes_long_total_raises :
  let os := [mk_outcome (lit "a") (PyInt.str_limit - 1); mk_outcome (lit "b") 1] in
  (os ≠ [] ∧ Forall well_formed os ∧ total_weight os = PyInt.str_limit
   ∧ total_weight os ≠ 100)
  ∧ validate_outcomes os = Raise ValueError
  ∧ (∀ ok msg, validate_outcomes os ≠ Ret (ok, msg))
  ∧ parse_odds (odds_parts Example.long_odds) []
    = Ret (inr [(lit "a", PyInt.str_limit - 1); (lit "b", 1)])
  ∧ ∀ w st, setodds Example.moderator Example.long_odds w st = (Raise ValueError, st).
Proof.
  intros os. pose proof str_limit_large as Hlarge.
  assert (os ≠ []) as Hne by done.
  assert (Forall well_formed os) as Hwf.
  { repeat constructor.
    - exists (lit "a"), (VInt (PyInt.str_limit - 1)), (PyInt.str_limit - 1).
      rewrite mk_outcome_name, mk_outcome_weight.
      split; [done|]. split; [|split; [done|split; [done|lia]]].
      intros Hb. inversion Hb as [|c r Hc _]. by vm_compute in Hc.
    - exists (lit "b"), (VInt 1), 1. rewrite mk_outcome_name, mk_outcome_weight.
      split; [done|]. split; [|split; [done|split; [done|lia]]].
      intros Hb. inversion Hb as [|c r Hc _]. by vm_compute in Hc. }
  assert (total_weight os = PyInt.str_limit) as Htotal.
  { unfold os. rewrite (total_weight_good _ _ _ _ (mk_outcome_weight _ _) eq_refl).
    rewrite (total_weight_good _ _ _ _ (mk_outcome_weight _ _) eq_refl).
    change (total_weight []) with 0. lia. }
  assert (validate_outcomes os = Raise ValueError) as Hraise.
  { destruct (validate_outcomes_cases os) as (_ & _ & _ & Hsum & _).
    apply Hsum; [exact Hne | exact Hwf | lia | lia]. }
  split; [split; [exact Hne|split; [exact Hwf|split; [exact Htotal | lia]]]|].
  split; [exact Hraise|].
  split; [intros ok msg; rewrite Hraise; discriminate|]. split; [apply parse_long_odds|].
  intros w st. unfold setodds, as_moderator.
  change (i_guild Example.moderator) with (Some Example.the_guild).
  change (is_mod Example.moderator) with true. cbn [negb]. cbn iota.
  unfold mbind at 1, M_bind at 1, lift at 1. rewrite parse_long_odds.
  unfold mbind at 1, M_bind at 1, lift at 1.
  change (entries [(lit "a", PyInt.str_limit - 1); (lit "b", 1)]) with os.
  rewrite Hraise. reflexivity.
Qed.

(** C5, where the code departs from it: the weight U+00B2 (superscript two)
    passes [isdigit] and is refused by [int]; [setodds] raises [ValueError]
    and sends no reply. *)
Theorem setodds_superscript_weight_raises :
  PyStr.isdigit (lit "²") = true
  ∧ PyInt.int (lit "²") = Raise ValueError
  ∧ setodds Example.moderator (lit "a=²") Example.the_world Example.set_up
    = (Raise ValueError, Example.set_up).
Proof. by vm_compute. Qed.

(** ** Instances *)


(** ** What every handler keeps *)

Lemma evolves_refl file key st : evolves file key st st.
Proof.
  repeat split; try done. exists []. by rewrite app_nil_r.
Qed.

Lemma evolves_added file key st st' :
  evolves file key st st' → ∃ evs, trace st' = trace st ++ evs.
Proof. intros (_ & _ & _ & (evs & H & _) & _). eauto. Qed.

Lemma evolves_trans file key st1 st2 st3 :
  evolves file key st1 st2 → evolves file key st2 st3 → evolves file key st1 st3.
Proof.
  intros (Hf1 & Hv1 & Hs1 & (e1 & He1 & Hw1) & Hd1) (Hf2 & Hv2 & Hs2 & (e2 & He2 & Hw2) & Hd2).
  split; [|split; [|split; [|split]]].
  - intros k Hk. by rewrite Hf2, Hf1.
  - auto.
  - auto.
  - exists (e1 ++ e2). split; [by rewrite He2, He1, app_assoc|].
    intros Hv. apply Forall_app. auto.
  - lia.
Qed.

Lemma file_after_app file tr tr' :
  file_after file (tr ++ tr') = file_after (file_after file tr) tr'.
Proof. unfold file_after. by rewrite foldl_app. Qed.

(** A step that only adds a request or a sample to the trace. *)
Lemma evolves_event file key st e n :
  (∀ c, e ≠ SaveConfig c) →
  evolves file key st
    {| cfg := cfg st; drawn := (n + drawn st)%nat; trace := trace st ++ [e] |}.
Proof.
  intros He. split; [done|]. split; [done|]. split; [|split].
  - unfold synced. simpl. rewrite file_after_app. simpl.
    destruct e; try done. by destruct (He cfg0).
  - exists [e]. split; [done|]. intros _. constructor; [|done].
    intros c ->. by destruct (He c).
  - simpl. lia.
Qed.

(** A step that changes the record of the guild, keeps its table valid, and
    writes the file. *)
Lemma evolves_write file key st c :
  (∀ k, key ≠ Some k → c !! k = cfg st !! k) →
  (valid_cfg (cfg st) → valid_cfg c) →
  evolves file key st {| cfg := c; drawn := drawn st; trace := trace st ++ [SaveConfig c] |}.
Proof.
  intros Hf Hv. split; [done|]. split; [done|]. split; [|split].
  - intros _. unfold synced. simpl. by rewrite file_after_app.
  - exists [SaveConfig c]. split; [done|]. intros Hvalid. constructor; [|done].
    intros c' [= <-]. auto.
  - done.
Qed.

Lemma default_outcomes_valid :
  validate_outcomes (outcomes default_guild_config) = Ret (true, Validate.msg_ok).
Proof. by vm_compute. Qed.

Lemma valid_cfg_insert c k gconf :
  valid_cfg c → validate_outcomes (outcomes gconf) = Ret (true, Validate.msg_ok) →
  valid_cfg (<[k := gconf]> c).
Proof.
  intros Hc Hg k' g'. rewrite lookup_insert. case_decide; [by intros [= <-]|]. apply Hc.
Qed.

Lemma valid_cfg_alter c k f :
  valid_cfg c →
  (∀ gconf, validate_outcomes (outcomes gconf) = Ret (true, Validate.msg_ok) →
            validate_outcomes (outcomes (f gconf)) = Ret (true, Validate.msg_ok)) →
  valid_cfg (alter f k c).
Proof.
  intros Hc Hf k' g'. rewrite lookup_alter. case_decide; [|apply Hc]. subst k'.
  destruct (c !! k) as [g|] eqn:E; simpl; [|done]. intros [= <-]. eauto.
Qed.

Lemma respects_ret file key {A} (a : A) : respects file key (mret a : M A).
Proof. intros w st. apply evolves_refl. Qed.

Lemma respects_lift file key {A} (r : result A) : respects file key (lift r).
Proof. intros w st. apply evolves_refl. Qed.

Lemma respects_ask file key : respects file key ask.
Proof. intros w st. apply evolves_refl. Qed.

Lemma respects_bind file key {A B} (m : M A) (f : A → M B) :
  respects file key m → (∀ a, respects file key (f a)) → respects file key (m ≫= f).
Proof.
  intros Hm Hf w st. unfold mbind, M_bind. specialize (Hm w st).
  destruct (m w st) as [[a|e|] st1]; simpl in *; [|done|done].
  eapply evolves_trans; [done | apply Hf].
Qed.

Lemma respects_try file key {A} (body handler : M A) catches :
  respects file key body → respects file key handler →
  respects file key (try_except body catches handler).
Proof.
  intros Hb Hh w st. unfold try_except. specialize (Hb w st).
  destruct (body w st) as [[a|e|] st1]; simpl in *; [done| |done].
  destruct (catches e); [|done]. eapply evolves_trans; [done | apply Hh].
Qed.

Lemma respects_request file key c : respects file key (request c).
Proof.
  intros w st. unfold request.
  pose proof (evolves_event file key st (Called c) 0 ltac:(done)) as H.
  by destruct (api w c).
Qed.

Lemma respects_randbelow file key n : respects file key (randbelow n).
Proof.
  intros w st. unfold randbelow. simpl.
  apply (evolves_event file key st (SecretsRandbelow n _) 1). done.
Qed.

Lemma respects_get_guild_config file gid :
  respects file (Some (guild_key gid)) (get_guild_config gid).
Proof.
  intros w st. destruct (cfg st !! guild_key gid) as [gconf|] eqn:E.
  - rewrite (get_guild_config_present _ _ _ _ E). apply evolves_refl.
  - rewrite (get_guild_config_absent _ _ _ E). simpl. apply evolves_write.
    + intros k Hk. apply lookup_insert_ne. congruence.
    + intros Hv. apply valid_cfg_insert; [done | apply default_outcomes_valid].
Qed.

(** [gconf[field] = x; save_config(cfg)] and what follows. *)
Lemma respects_update_save file gid f {A} (rest : M A) :
  (∀ gconf, validate_outcomes (outcomes gconf) = Ret (true, Validate.msg_ok) →
            validate_outcomes (outcomes (f gconf)) = Ret (true, Validate.msg_ok)) →
  respects file (Some (guild_key gid)) rest →
  respects file (Some (guild_key gid))
    (update_guild gid f ≫= fun _ => save_config ≫= fun _ => rest).
Proof.
  intros Hf Hrest w st. unfold mbind, M_bind, update_guild, save_config, emit. simpl.
  eapply evolves_trans; [|apply Hrest].
  apply evolves_write.
  - intros k Hk. rewrite lookup_alter. case_decide; [congruence | done].
  - intros Hv. by apply valid_cfg_alter.
Qed.

Lemma respects_as_moderator file i body :
  (∀ g, i_guild i = Some g → respects file (Some (guild_key (guild_id g))) (body g)) →
  respects file (guild_key ∘ guild_id <$> i_guild i) (as_moderator i body).
Proof.
  intros Hbody. unfold as_moderator. destruct (i_guild i) as [g|]; simpl.
  - destruct (negb (is_mod i)); [apply respects_request | by apply Hbody].
  - apply respects_request.
Qed.

Lemma respects_setmodchannel file i ch :
  respects file (guild_key ∘ guild_id <$> i_guild i) (setmodchannel i ch).
Proof.
  apply respects_as_moderator. intros g _.
  apply respects_bind; [apply respects_get_guild_config|]. intros _.
  apply respects_update_save; [done | apply respects_request].
Qed.

Lemma respects_setemoji file i emoji :
  respects file (guild_key ∘ guild_id <$> i_guild i) (setemoji i emoji).
Proof.
  apply respects_as_moderator. intros g _.
  apply respects_bind; [apply respects_get_guild_config|]. intros _.
  apply respects_update_save; [done | apply respects_request].
Qed.

Lemma respects_setodds file i odds :
  respects file (guild_key ∘ guild_id <$> i_guild i) (setodds i odds).
Proof.
  apply respects_as_moderator. intros g _.
  apply respects_bind; [apply respects_lift|]. intros [text|parsed].
  - apply respects_request.
  - intros w st. unfold mbind at 1, M_bind at 1, lift at 1.
    destruct (validate_outcomes_result (entries parsed)) as [(ok & msg & Hvalid)|Hvalid];
      rewrite Hvalid; [|apply evolves_refl].
    destruct ok; simpl; [|apply respects_request].
    apply (respects_bind _ _ (get_guild_config (guild_id g)));
      [apply respects_get_guild_config|]. intros _.
    apply respects_update_save; [|apply respects_request].
    intros gconf _. simpl. by apply validate_outcomes_ok in Hvalid.
Qed.

Lemma respects_postroller file i ch message_text :
  respects file (guild_key ∘ guild_id <$> i_guild i) (postroller i ch message_text).
Proof.
  apply respects_as_moderator. intros g _.
  apply respects_bind; [apply respects_get_guild_config|]. intros gconf.
  apply respects_bind; [apply respects_request|]. intros _.
  apply respects_bind; [apply respects_ask|]. intros w.
  apply respects_bind.
  { apply respects_try; [apply respects_request | apply respects_ret]. }
  intros _. apply respects_update_save; [done | apply respects_request].
Qed.

Lemma respects_showodds file i :
  respects file (guild_key ∘ guild_id <$> i_guild i) (showodds i).
Proof.
  unfold showodds. destruct (i_guild i) as [g|]; simpl; [|apply respects_request].
  apply respects_bind; [apply respects_get_guild_config|]. intros gconf.
  apply respects_bind; [apply respects_lift|]. intros ls. apply respects_request.
Qed.

Lemma respects_edit_log file key g gconf a t : respects file key (edit_log g gconf a t).
Proof.
  unfold edit_log. destruct (negb (truthy (mod_channel_id gconf))); [apply respects_request|].
  destruct (mod_channel_id gconf ≫= get_channel g) as [ch|]; [|apply respects_request].
  destruct (negb (is_text_channel ch)); [apply respects_request|].
  destruct (PyInt.int a) as [mid|[]|]; try apply respects_lift; try apply respects_request.
  apply respects_bind.
  - apply respects_try.
    + apply respects_bind; [apply respects_request|]. intros _.
      apply respects_bind; [apply respects_ask|]. intros w. apply respects_ret.
    + apply respects_bind; [apply respects_request|]. intros _. apply respects_ret.
  - intros [msg|]; [|apply respects_ret].
    apply respects_bind; [apply respects_ask|]. intros w.
    destruct (negb (author_id msg =? bot_user_id w)); [apply respects_request|].
    apply respects_bind; [apply respects_request|]. intros _. apply respects_request.
Qed.

Lemma respects_editrolllog file i a t :
  respects file (guild_key ∘ guild_id <$> i_guild i) (editrolllog i a t).
Proof.
  apply respects_as_moderator. intros g _.
  apply respects_bind; [apply respects_get_guild_config|]. intros gconf.
  apply respects_edit_log.
Qed.

Lemma respects_dispatch file key p g gconf mid cid :
  respects file key (dispatch p g gconf mid cid).
Proof.
  unfold dispatch. apply respects_bind.
  { destruct (get_member g (p_user_id p)); [apply respects_ret|].
    apply respects_bind; [apply respects_request|]. intros _.
    apply respects_bind; [apply respects_ask|]. intros w. apply respects_ret. }
  intros u. apply respects_bind.
  { apply respects_bind; [apply respects_randbelow|]. intros r. apply respects_ret. }
  intros d100. apply respects_bind.
  { apply respects_bind; [apply respects_randbelow|]. intros r. apply respects_lift. }
  intros outcome. apply respects_bind; [apply respects_lift|]. intros shown.
  apply respects_bind.
  { apply respects_try; [|apply respects_ret].
    apply respects_bind; [apply respects_request|]. intros _. apply respects_ret. }
  intros dm_ok. apply respects_bind.
  { destruct (truthy (mod_channel_id gconf)); [|apply respects_ret].
    destruct (mod_channel_id gconf ≫= get_channel g) as [mod_ch|]; [|apply respects_ret].
    destruct (is_text_channel mod_ch); [apply respects_request | apply respects_ret]. }
  intros _. apply respects_try; [|apply respects_ret].
  destruct (get_channel g (p_channel_id p)) as [ch|]; [|apply respects_ret].
  destruct (is_text_channel ch); [|apply respects_ret].
  apply respects_bind; [apply respects_request|]. intros _. apply respects_request.
Qed.

Lemma respects_check_trigger file key p g gconf : respects file key (check_trigger p g gconf).
Proof.
  unfold check_trigger. destruct (_ || _); [apply respects_ret|].
  destruct (trigger_message_id gconf) as [mid|]; [|apply respects_ret].
  destruct (trigger_channel_id gconf) as [cid|]; [|apply respects_ret].
  destruct (_ || _); [apply respects_ret|].
  destruct (bool_decide _); [apply respects_ret | apply respects_dispatch].
Qed.

Lemma evolves_on_raw_reaction_add file p w st :
  evolves file (guild_key ∘ guild_id <$> event_guild w p) st (on_raw_reaction_add p w st).2.
Proof.
  rewrite on_raw_reaction_add_unfold.
  destruct (p_user_id p =? bot_user_id w); [apply evolves_refl|].
  destruct (event_guild w p) as [g|]; [|apply evolves_refl]. simpl.
  apply respects_bind; [apply respects_get_guild_config|]. intros gconf.
  apply respects_check_trigger.
Qed.

(** Every operation evolves the state of the guild it is about. *)
Lemma evolves_handle file w o st :
  evolves file (guild_key ∘ guild_id <$> op_guild w o) st (handle o w st).2.
Proof.
  destruct o; simpl.
  - apply respects_setmodchannel.
  - apply respects_setemoji.
  - apply respects_setodds.
  - apply respects_postroller.
  - apply respects_showodds.
  - apply respects_editrolllog.
  - apply evolves_on_raw_reaction_add.
Qed.

Lemma run_all_valid steps st : valid_cfg (cfg st) → valid_cfg (cfg (run_all steps st)).
Proof.
  revert st. induction steps as [|[w o] rest IH]; intros st Hv; simpl; [done|].
  apply IH. by apply (evolves_handle None w o st).
Qed.

Lemma run_all_writes steps st :
  valid_cfg (cfg st) →
  ∃ evs, trace (run_all steps st) = trace st ++ evs ∧ Forall valid_write evs.
Proof.
  revert st. induction steps as [|[w o] rest IH]; intros st Hv; simpl.
  - exists []. by rewrite app_nil_r.
  - destruct (evolves_handle None w o st) as (_ & Hv' & _ & (e1 & He1 & Hw1) & _).
    destruct (IH _ (Hv' Hv)) as (e2 & He2 & Hw2).
    exists (e1 ++ e2). rewrite He2, He1, app_assoc. split; [done|].
    apply Forall_app. auto.
Qed.

Lemma run_all_synced file steps st : synced file st → synced file (run_all steps st).
Proof.
  revert st. induction steps as [|[w o] rest IH]; intros st Hs; simpl; [done|].
  apply IH. by apply (evolves_handle file w o st).
Qed.

(** X1. An operation changes no record of a guild other than its own:
    whatever command or reaction is handled, the record stored for any other
    guild id is the one from before. *)
Theorem handle_leaves_other_guilds (w : world) (o : op) (st : state) (gid : Z)
    (Hother : ∀ g, op_guild w o = Some g → guild_id g ≠ gid) :
  cfg (handle o w st).2 !! guild_key gid = cfg st !! guild_key gid.
Proof.
  destruct (evolves_handle None w o st) as (Hframe & _). apply Hframe.
  destruct (op_guild w o) as [g|]; simpl; [|done].
  intros [= Heq]. apply guild_key_inj in Heq. by apply (Hother g).
Qed.

Lemma handle_leaves_other_guilds_witness :
  cfg (handle (SetModChannel Example.moderator Example.log_channel)
         Example.the_world Example.set_up).2 !! guild_key 2
  = cfg Example.set_up !! guild_key 2.
Proof.
  apply (handle_leaves_other_guilds Example.the_world
           (SetModChannel Example.moderator Example.log_channel) Example.set_up 2).
  intros g [= <-]. by vm_compute.
Defined.

(** X2. From a start with a file whose tables [validate_outcomes] accepts
    (or with no file), after any sequence of commands and reactions every
    stored table is still accepted, and every write of the file since the
    start wrote accepted tables only. *)
Theorem tables_stay_valid (file : option (gmap (list N) GuildConfig))
    (steps : list (world * op)) (Hfile : valid_cfg (load_config file)) :
  valid_cfg (cfg (run_all steps (startup file)))
  ∧ Forall valid_write (trace (run_all steps (startup file))).
Proof.
  split; [by apply run_all_valid|].
  destruct (run_all_writes steps (startup file) Hfile) as (evs & -> & Hw). done.
Qed.

Lemma tables_stay_valid_witness :
  valid_cfg (cfg (run_all [(Example.the_world, SetOdds Example.moderator (lit "a=40;b=60"))]
                    (startup None))).
Proof.
  apply (tables_stay_valid None
           [(Example.the_world, SetOdds Example.moderator (lit "a=40;b=60"))]).
  intros k gconf H. unfold load_config in H. simpl in H. by rewrite lookup_empty in H.
Defined.

(** X3. As long as every mapping handed to [save_config] could be encoded
    (no string with a surrogate code point) and the operating system carried
    out the writes, the file holds, after any sequence of commands and
    reactions, what the process holds in memory: [load_config] at a restart
    gives the mapping the process ended with, also when requests to the
    platform failed and handlers raised on the way.  No handler changes
    [cfg] and then asks anything of the platform before it has saved. *)
Theorem file_stays_in_step (file : option (gmap (list N) GuildConfig))
    (steps : list (world * op))
    (Hwritten : forallb written (trace (run_all steps (startup file))) = true) :
  load_config (file_after file (trace (run_all steps (startup file))))
  = cfg (run_all steps (startup file)).
Proof. by apply (run_all_synced file steps (startup file)). Qed.

Lemma file_stays_in_step_witness :
  load_config
    (file_after None
       (trace (run_all
                 [(Example.the_world,
                   PostRoller Example.moderator Example.log_channel (lit "Roll!"));
                  (Example.the_world, SetEmoji Example.moderator (lit "⚄"))]
                 (startup None))))
  = {[ guild_key 1
       := set_trigger_emoji (lit "⚄")
            (set_trigger (Some 555) (Some 10) default_guild_config) ]}.
Proof.
  rewrite (file_stays_in_step None
             [(Example.the_world,
               PostRoller Example.moderator Example.log_channel (lit "Roll!"));
              (Example.the_world, SetEmoji Example.moderator (lit "⚄"))]).
  - by vm_compute.
  - by vm_compute.
Defined.

(** ** What the handlers raise *)

Lemma safe_ret allow {A} (Q : A → Prop) a : Q a → safe allow Q (mret a).
Proof. by intros H w st. Qed.

Lemma safe_ask allow : safe allow (fun _ => True) ask.
Proof. by intros w st. Qed.

Lemma safe_weaken allow {A} (Q R : A → Prop) m :
  safe allow Q m → (∀ a, Q a → R a) → safe allow R m.
Proof.
  intros Hm HQR w st. specialize (Hm w st). destruct ((m w st).1); auto.
Qed.

Lemma safe_bind allow {A B} (Q : A → Prop) (R : B → Prop) (m : M A) (f : A → M B) :
  safe allow Q m → (∀ a, Q a → safe allow R (f a)) → safe allow R (m ≫= f).
Proof.
  intros Hm Hf w st. unfold mbind, M_bind. specialize (Hm w st).
  destruct (m w st) as [[a|e|] st1]; simpl in *; [|done|done]. by apply Hf.
Qed.

Lemma safe_try allow {A} (Q : A → Prop) body catches handler :
  safe allow Q body → safe allow Q handler → safe allow Q (try_except body catches handler).
Proof.
  intros Hb Hh w st. unfold try_except. specialize (Hb w st).
  destruct (body w st) as [[a|e|] st1]; simpl in *; [done| |done].
  destruct (catches e); [apply Hh | done].
Qed.

Lemma safe_request allow c :
  (∀ e, allow (Discord e) = true) → safe allow (fun _ => True) (request c).
Proof. intros Ha w st. unfold request. destruct (api w c); simpl; [apply Ha | done]. Qed.

Lemma safe_randbelow allow n : 0 < n → safe allow (fun r => 0 ≤ r < n) (randbelow n).
Proof. intros Hn w st. simpl. by apply Z.mod_pos_bound. Qed.

Lemma safe_update_guild allow gid f : safe allow (fun _ => True) (update_guild gid f).
Proof. by intros w st. Qed.

Lemma safe_save_config allow : safe allow (fun _ => True) save_config.
Proof. by intros w st. Qed.

Lemma safe_get_guild_config allow gid : safe allow (fun _ => True) (get_guild_config gid).
Proof.
  intros w st. by destruct (get_guild_config_returns w st gid) as (st1 & -> & _).
Qed.

Lemma well_formed_table_names os :
  Forall well_formed os →
  ∃ tbl, table os = Some tbl ∧ total tbl = total_weight os
         ∧ Forall (fun nz : value * Z => ∃ s, nz.1 = VStr s) tbl.
Proof.
  induction 1 as [|o os Ho _ (tbl & Htbl & Htot & Hnames)].
  - by exists [].
  - destruct Ho as (name & w & z & Hn & _ & Hw & Hz & Hz0).
    exists ((VStr name, z) :: tbl). split; [|split].
    + apply table_Forall2. constructor; [|by apply table_Forall2].
      apply shape_Some. eauto.
    + rewrite (total_weight_good _ _ _ _ Hw Hz). simpl. by rewrite Htot.
    + constructor; [by exists name | done].
Qed.

(** A draw from an accepted table returns a name that is a string. *)
Lemma valid_choice_name os r :
  validate_outcomes os = Ret (true, Validate.msg_ok) → 0 ≤ r < 100 →
  ∃ s, weighted_choice_from r os = Ret (VStr s).
Proof.
  intros (_ & Hwf & Hsum)%validate_outcomes_accepts Hr.
  destruct (well_formed_table_names os Hwf) as (tbl & Htbl & Htot & Hnames).
  destruct (first_hit_exists tbl r 0) as (i & Hi & Hlt & Hbefore); [lia | lia |].
  destruct (lookup_lt_is_Some_2 tbl i Hi) as [[n z] Hnz].
  destruct (proj1 (Forall_lookup _ _) Hnames i _ Hnz) as [s Hs]. simpl in Hs. subst n.
  exists s. apply (weighted_choice_hit os tbl r i (VStr s) z); [done | done |].
  split; [done|]. split; [lia|]. intros j Hj. specialize (Hbefore j Hj). lia.
Qed.

Lemma safe_weighted_choice allow os :
  validate_outcomes os = Ret (true, Validate.msg_ok) →
  safe allow (fun v => ∃ s, v = VStr s) (weighted_choice os).
Proof.
  intros Hvalid w st. unfold weighted_choice, mbind, M_bind, randbelow, lift. simpl.
  destruct (valid_choice_name os (entropy w (drawn st) `mod` 100) Hvalid) as [s ->];
    [by apply Z.mod_pos_bound | by exists s].
Qed.

Lemma safe_dispatch p g gconf mid cid :
  validate_outcomes (outcomes gconf) = Ret (true, Validate.msg_ok) →
  safe is_discord (fun _ => True) (dispatch p g gconf mid cid).
Proof.
  intros Hvalid. unfold dispatch.
  apply (safe_bind _ (fun _ => True)).
  { destruct (get_member g (p_user_id p)); [by apply safe_ret|].
    apply (safe_bind _ (fun _ => True)); [by apply safe_request|]. intros _ _.
    apply (safe_bind _ (fun _ => True)); [apply safe_ask|]. intros w _. by apply safe_ret. }
  intros u _. apply (safe_bind _ (fun _ => True)).
  { apply (safe_bind _ (fun _ => True)).
    - eapply safe_weaken; [by apply (safe_randbelow _ 100) | done].
    - intros r _. by apply safe_ret. }
  intros d100 _. apply (safe_bind _ (fun v => ∃ s, v = VStr s));
    [by apply safe_weighted_choice|].
  intros outcome [s ->]. simpl.
  apply (safe_bind _ (fun _ => True)); [by apply (safe_ret _ (fun _ => True))|].
  intros shown _. apply (safe_bind _ (fun _ => True)).
  { apply safe_try; [|by apply safe_ret].
    apply (safe_bind _ (fun _ => True)); [by apply safe_request|]. intros _ _.
    by apply safe_ret. }
  intros dm_ok _. apply (safe_bind _ (fun _ => True)).
  { destruct (truthy (mod_channel_id gconf)); [|by apply safe_ret].
    destruct (mod_channel_id gconf ≫= get_channel g) as [mod_ch|]; [|by apply safe_ret].
    destruct (is_text_channel mod_ch); [by apply safe_request | by apply safe_ret]. }
  intros _ _. apply safe_try; [|by apply safe_ret].
  destruct (get_channel g (p_channel_id p)) as [ch|]; [|by apply safe_ret].
  destruct (is_text_channel ch); [|by apply safe_ret].
  apply (safe_bind _ (fun _ => True)); [by apply safe_request|]. intros _ _.
  by apply safe_request.
Qed.

Lemma safe_check_trigger p g gconf :
  validate_outcomes (outcomes gconf) = Ret (true, Validate.msg_ok) →
  safe is_discord (fun _ => True) (check_trigger p g gconf).
Proof.
  intros Hvalid. unfold check_trigger. destruct (_ || _); [by apply safe_ret|].
  destruct (trigger_message_id gconf) as [mid|]; [|by apply safe_ret].
  destruct (trigger_channel_id gconf) as [cid|]; [|by apply safe_ret].
  destruct (_ || _); [by apply safe_ret|].
  destruct (bool_decide _); [by apply safe_ret | by apply safe_dispatch].
Qed.

Lemma stored_or_default_valid st gid :
  valid_cfg (cfg st) →
  validate_outcomes (outcomes (stored_or_default st gid)) = Ret (true, Validate.msg_ok).
Proof.
  intros Hv. unfold stored_or_default.
  destruct (cfg st !! guild_key gid) as [gconf|] eqn:E; simpl;
    [by apply (Hv _ _ E) | apply default_outcomes_valid].
Qed.

Lemma safe_as_moderator allow i body :
  (∀ e, allow (Discord e) = true) →
  (∀ g, safe allow (fun _ => True) (body g)) →
  safe allow (fun _ => True) (as_moderator i body).
Proof.
  intros Ha Hbody. unfold as_moderator. destruct (i_guild i) as [g|];
    [|by apply safe_request].
  destruct (negb (is_mod i)); [by apply safe_request | apply Hbody].
Qed.

Lemma safe_update_save_respond allow gid f text :
  (∀ e, allow (Discord e) = true) →
  safe allow (fun _ => True)
    (update_guild gid f ≫= fun _ => save_config ≫= fun _ => respond text).
Proof.
  intros Ha. apply (safe_bind _ (fun _ => True)); [apply safe_update_guild|]. intros _ _.
  apply (safe_bind _ (fun _ => True)); [apply safe_save_config|]. intros _ _.
  by apply safe_request.
Qed.

Lemma safe_edit_log g gconf a t : safe is_discord (fun _ => True) (edit_log g gconf a t).
Proof.
  unfold edit_log. destruct (negb (truthy (mod_channel_id gconf))); [by apply safe_request|].
  destruct (mod_channel_id gconf ≫= get_channel g) as [ch|]; [|by apply safe_request].
  destruct (negb (is_text_channel ch)); [by apply safe_request|].
  destruct (int_result a) as [[mid ->]| ->]; [|by apply safe_request].
  apply (safe_bind _ (fun _ => True)).
  - apply safe_try.
    + apply (safe_bind _ (fun _ => True)); [by apply safe_request|]. intros _ _.
      apply (safe_bind _ (fun _ => True)); [apply safe_ask|]. intros w _. by apply safe_ret.
    + apply (safe_bind _ (fun _ => True)); [by apply safe_request|]. intros _ _.
      by apply safe_ret.
  - intros [msg|] _; [|by apply safe_ret].
    apply (safe_bind _ (fun _ => True)); [apply safe_ask|]. intros w _.
    destruct (negb (author_id msg =? bot_user_id w)); [by apply safe_request|].
    apply (safe_bind _ (fun _ => True)); [by apply safe_request|]. intros _ _.
    by apply safe_request.
Qed.

Lemma odds_lines_valid os :
  Forall well_formed os → ∃ ls, odds_lines os = Ret ls.
Proof.
  induction 1 as [|o os Ho _ [ls IH]]; simpl; [eauto|].
  destruct Ho as (name & w & z & -> & _ & -> & Hz & _). simpl.
  destruct w; simpl in Hz; try done; rewrite IH; eauto.
Qed.

Lemma safe_setodds i odds :
  safe (fun e => is_discord e || is_value_error e) (fun _ => True) (setodds i odds).
Proof.
  apply safe_as_moderator; [done|]. intros g w st. unfold mbind at 1, M_bind at 1, lift at 1.
  destruct (parse_odds_result (odds_parts odds) []) as [[[text|parsed] ->]| ->]; [| |done].
  - by apply safe_request.
  - simpl. unfold mbind at 1, M_bind at 1, lift at 1.
    destruct (validate_outcomes_result (entries parsed)) as [([] & msg & ->)| ->];
      simpl; [| |done].
    + apply (safe_bind _ (fun _ => True)); [apply safe_get_guild_config|]. intros _ _.
      by apply safe_update_save_respond.
    + by apply safe_request.
Qed.

Lemma safe_setmodchannel i ch : safe is_discord (fun _ => True) (setmodchannel i ch).
Proof.
  apply safe_as_moderator; [done|]. intros g.
  apply (safe_bind _ (fun _ => True)); [apply safe_get_guild_config|]. intros _ _.
  by apply safe_update_save_respond.
Qed.

Lemma safe_setemoji i emoji : safe is_discord (fun _ => True) (setemoji i emoji).
Proof.
  apply safe_as_moderator; [done|]. intros g.
  apply (safe_bind _ (fun _ => True)); [apply safe_get_guild_config|]. intros _ _.
  by apply safe_update_save_respond.
Qed.

Lemma safe_postroller i ch message_text :
  safe is_discord (fun _ => True) (postroller i ch message_text).
Proof.
  apply safe_as_moderator; [done|]. intros g.
  apply (safe_bind _ (fun _ => True)); [apply safe_get_guild_config|]. intros gconf _.
  apply (safe_bind _ (fun _ => True)); [by apply safe_request|]. intros _ _.
  apply (safe_bind _ (fun _ => True)); [apply safe_ask|]. intros w _.
  apply (safe_bind _ (fun _ => True)).
  { apply safe_try; [by apply safe_request | by apply safe_ret]. }
  intros _ _. by apply safe_update_save_respond.
Qed.

Lemma safe_editrolllog i a t : safe is_discord (fun _ => True) (editrolllog i a t).
Proof.
  apply safe_as_moderator; [done|]. intros g.
  apply (safe_bind _ (fun _ => True)); [apply safe_get_guild_config|]. intros gconf _.
  apply safe_edit_log.
Qed.

(** What a handler can raise in a state whose tables are accepted. *)
Lemma handle_raises w o st :
  valid_cfg (cfg st) →
  match (handle o w st).1 with
  | Ret _ => True
  | Raise (Discord _) => True
  | Raise ValueError => ∃ i odds, o = SetOdds i odds
  | _ => False
  end.
Proof.
  intros Hv.
  assert (∀ m : M unit, safe is_discord (fun _ => True) m →
            match (m w st).1 with
            | Ret _ => True
            | Raise (Discord _) => True
            | Raise ValueError => ∃ i odds, o = SetOdds i odds
            | _ => False
            end) as Hsafe.
  { intros m Hm. specialize (Hm w st). by destruct ((m w st).1) as [|[]|]. }
  destruct o; simpl.
  - apply Hsafe, safe_setmodchannel.
  - apply Hsafe, safe_setemoji.
  - pose proof (safe_setodds i odds w st) as H.
    destruct ((setodds i odds w st).1) as [|[]|]; try done. eauto.
  - apply Hsafe, safe_postroller.
  - unfold showodds. destruct (i_guild i) as [g|]; [|by apply Hsafe, safe_request].
    unfold mbind at 1, M_bind at 1.
    destruct (get_guild_config_returns w st (guild_id g)) as (st1 & -> & _).
    pose proof (stored_or_default_valid st (guild_id g) Hv) as Hg.
    apply validate_outcomes_accepts in Hg as (_ & Hwf & _).
    destruct (odds_lines_valid _ Hwf) as [ls Hls].
    unfold mbind, M_bind, lift. rewrite Hls.
    pose proof (safe_request is_discord
                  (Respond (Text.show (trigger_emoji (stored_or_default st (guild_id g)))
                              (trigger_message_id (stored_or_default st (guild_id g)))
                              (mod_channel_id (stored_or_default st (guild_id g)))
                              (PyStr.join Text.nl ls)))
                  ltac:(done) w st1) as H.
    unfold respond. by destruct ((request _ w st1).1) as [|[]|].
  - apply Hsafe, safe_editrolllog.
  - rewrite on_raw_reaction_add_unfold.
    destruct (p_user_id p =? bot_user_id w); [done|].
    destruct (event_guild w p) as [g|]; [|done].
    unfold mbind, M_bind.
    destruct (get_guild_config_returns w st (guild_id g)) as (st1 & -> & _).
    pose proof (safe_check_trigger p g _ (stored_or_default_valid st (guild_id g) Hv) w st1)
      as H.
    by destruct ((check_trigger _ _ _ w st1).1) as [|[]|].
Qed.

(** X4. Take a start from a file whose records are complete (the five keys,
    with values of the kinds the bot writes) and hold accepted tables, and
    let every mapping handed to [save_config] be one that can be encoded.
    Then, whatever commands and reactions came before, a handler ends
    normally or with a failure of the platform; the one exception is
    [setodds], which can also raise [ValueError], from [int] on a weight or
    from printing the sum of the weights.  No handler raises [KeyError],
    [TypeError] or [IndexError]: the statement after the loop of
    [weighted_choice] never fails, and a draw always finds its weights and
    names. *)
Theorem handlers_raise_platform_errors_only
    (raw : option (gmap (list N) raw_record))
    (file : option (gmap (list N) GuildConfig)) (steps : list (world * op))
    (w : world) (o : op)
    (Hcomplete : records (load_config raw) = Some (load_config file))
    (Hfile : valid_cfg (load_config file))
    (Hwritten : forallb written (trace (handle o w (run_all steps (startup file))).2)
                = true) :
  match (handle o w (run_all steps (startup file))).1 with
  | Ret _ => True
  | Raise (Discord _) => True
  | Raise ValueError => ∃ i odds, o = SetOdds i odds
  | _ => False
  end.
Proof. apply handle_raises. by apply run_all_valid. Qed.

Lemma handlers_raise_platform_errors_only_witness :
  match (handle (Reaction (Example.reaction 5 555 (lit "🎲"))) Example.the_world
           (run_all [(Example.the_world,
                      PostRoller Example.moderator Example.log_channel (lit "Roll!"))]
              (startup (Some (cfg Example.set_up))))).1 with
  | Ret _ => True
  | Raise (Discord _) => True
  | Raise ValueError =>
      ∃ i odds, Reaction (Example.reaction 5 555 (lit "🎲")) = SetOdds i odds
  | _ => False
  end.
Proof.
  apply (handlers_raise_platform_errors_only (Some Example.set_up_file)
           (Some (cfg Example.set_up))).
  - by vm_compute.
  - intros k gconf H. unfold load_config in H. simpl in H.
    destruct (decide (k = guild_key 1)) as [->|Hne].
    + rewrite lookup_singleton_eq in H. injection H as <-. by vm_compute.
    + by rewrite lookup_singleton_ne in H.
  - by vm_compute.
Defined.

(** ** The permission check *)

Lemma as_moderator_refused i body w st :
  is_mod i = false →
  ∃ text, (text = Text.use_in_server ∨ text = Text.need_mod)
          ∧ as_moderator i body w st = respond text w st.
Proof.
  intros Hno. unfold as_moderator. destruct (i_guild i) as [g|]; [|eauto].
  rewrite Hno. simpl. eauto.
Qed.

(** X5. A command that changes the configuration or a log message, called
    by somebody who is not a moderator of a guild (no guild, or neither
    Manage Messages nor Administrator), only answers with the refusal: no
    record changes, the file is not written, nothing else is asked of the
    platform. *)
Theorem unauthorised_command_changes_nothing (w : world) (o : op) (st : state)
    (i : interaction) (Hop : op_moderated o = Some i) (Hno : is_mod i = false) :
  ∃ text, (text = Text.use_in_server ∨ text = Text.need_mod)
          ∧ (handle o w st).2
            = {| cfg := cfg st; drawn := drawn st;
                 trace := trace st ++ [Called (Respond text)] |}.
Proof.
  assert (∀ body, ∃ text, (text = Text.use_in_server ∨ text = Text.need_mod)
            ∧ (as_moderator i body w st).2
              = {| cfg := cfg st; drawn := drawn st;
                   trace := trace st ++ [Called (Respond text)] |}) as Hrefused.
  { intros body. destruct (as_moderator_refused i body w st Hno) as (text & Htext & ->).
    exists text. split; [done|]. unfold respond, request. by destruct (api w _). }
  destruct o; simpl in Hop; try discriminate; injection Hop as ->; apply Hrefused.
Qed.

Lemma unauthorised_command_changes_nothing_witness :
  ∃ text, (text = Text.use_in_server ∨ text = Text.need_mod)
          ∧ (handle (SetOdds {| i_guild := Some Example.the_guild;
                                i_user := Some {| manage_messages := false;
                                                  administrator := false |} |}
                       (lit "a=100"))
               Example.the_world Example.set_up).2
            = {| cfg := cfg Example.set_up; drawn := 0;
                 trace := [Called (Respond text)] |}.
Proof.
  apply (unauthorised_command_changes_nothing Example.the_world _ Example.set_up
           {| i_guild := Some Example.the_guild;
              i_user := Some {| manage_messages := false; administrator := false |} |}).
  - reflexivity.
  - reflexivity.
Defined.

(** ** More on outcome tables *)

Lemma validate_outcomes_accepted os :
  os ≠ [] → Forall well_formed os → total_weight os = 100 →
  validate_outcomes os = Ret (true, Validate.msg_ok).
Proof.
  intros Hne Hwf Hsum. rewrite validate_outcomes_loop, validate_loop_well_formed by done.
  by rewrite Z.add_0_l, Hsum.
Qed.

Lemma total_weight_perm os os' : os ≡ₚ os' → total_weight os = total_weight os'.
Proof.
  induction 1 as [|o os os' _ IH|o o' os|os1 os2 os3 _ IH1 _ IH2]; simpl; lia.
Qed.

(** X6. Whether [validate_outcomes] accepts a table, refuses it or raises
    does not depend on the order of its entries. *)
Theorem validate_outcomes_any_order (os os' : list (gmap (list N) value))
    (Hperm : os ≡ₚ os') :
  fst <$> validate_outcomes os = fst <$> validate_outcomes os'.
Proof.
  assert (∀ a b, a ≡ₚ b → validate_outcomes a = Ret (true, Validate.msg_ok) →
                 validate_outcomes b = Ret (true, Validate.msg_ok)) as Hone.
  { intros a b Hab (Hne & Hwf & Hsum)%validate_outcomes_accepts.
    rewrite validate_outcomes_accepted; [done | | |].
    - intros ->. by apply Permutation_nil_r in Hab.
    - by rewrite <- Hab.
    - by rewrite <- (total_weight_perm a b). }
  assert (∀ a b, a ≡ₚ b → validate_outcomes a = Raise ValueError →
                 validate_outcomes b = Raise ValueError) as Htwo.
  { intros a b Hab Ha.
    destruct (validate_outcomes_cases a) as (_ & _ & _ & _ & _ & _ & _ & Hraise).
    destruct (Hraise _ Ha) as (_ & Hne & Hwf & Hbig).
    pose proof str_limit_large as Hlarge.
    destruct (validate_outcomes_cases b) as (_ & _ & _ & Hsum & _).
    rewrite (total_weight_perm a b Hab) in Hbig. apply Hsum; [| |lia|done].
    - intros ->. by apply Permutation_nil_r in Hab.
    - by rewrite <- Hab. }
  pose proof (symmetry Hperm) as Hperm'.
  destruct (validate_outcomes_result os) as [([] & msg & E1)|E1].
  - apply validate_outcomes_ok in E1. by rewrite E1, (Hone os os' Hperm E1).
  - destruct (validate_outcomes_result os') as [([] & msg' & E2)|E2].
    + apply validate_outcomes_ok in E2. rewrite (Hone os' os Hperm' E2) in E1. done.
    + by rewrite E1, E2.
    + rewrite (Htwo os' os Hperm' E2) in E1. done.
  - by rewrite E1, (Htwo os os' Hperm E1).
Qed.

Lemma validate_outcomes_any_order_witness :
  fst <$> validate_outcomes [mk_outcome (lit "b") 60; mk_outcome (lit "a") 40]
  = fst <$> validate_outcomes [mk_outcome (lit "a") 40; mk_outcome (lit "b") 60].
Proof.
  apply (validate_outcomes_any_order
           [mk_outcome (lit "b") 60; mk_outcome (lit "a") 40]
           [mk_outcome (lit "a") 40; mk_outcome (lit "b") 60]).
  apply Permutation_swap.
Defined.

Lemma total_app (l l' : list (value * Z)) : total (l ++ l') = total l + total l'.
Proof. induction l as [|nz l IH]; simpl; lia. Qed.

Lemma cumulative_upto_next tbl i n z :
  tbl !! i = Some (n, z) → cumulative_upto tbl (S i) = cumulative_upto tbl i + z.
Proof.
  intros H. unfold cumulative_upto. rewrite (take_S_r _ _ _ H), total_app. simpl. lia.
Qed.

Lemma table_functional os tbl tbl' : table os = Some tbl → table os = Some tbl' → tbl = tbl'.
Proof. congruence. Qed.

(** X7. In a table that [validate_outcomes] accepts, the entry at position
    [i] with weight [z] is returned for exactly [z] of the hundred samples:
    the [z] consecutive samples that start at the sum of the weights before
    it.  An entry of weight 0 is never returned by the loop. *)
Theorem outcome_share (os : list (gmap (list N) value)) (tbl : list (value * Z))
    (i : nat) (n : value) (z : Z)
    (Hvalid : validate_outcomes os = Ret (true, Validate.msg_ok)) (Htbl : table os = Some tbl)
    (Hi : tbl !! i = Some (n, z)) :
  let samples := seqZ (cumulative_upto tbl i) z in
  NoDup samples
  ∧ length samples = Z.to_nat z
  ∧ 0 ≤ z ≤ 100
  ∧ (∀ r, r ∈ samples ↔ hits tbl i r)
  ∧ (∀ r, r ∈ samples → weighted_choice_from r os = Ret n).
Proof.
  intros samples. subst samples.
  apply validate_outcomes_accepts in Hvalid as (_ & Hwf & Hsum).
  destruct (well_formed_table os Hwf) as (tbl' & Htbl' & Htot & Hpos).
  rewrite (table_functional _ _ _ Htbl' Htbl) in *. clear tbl' Htbl'.
  pose proof (cumulative_upto_next _ _ _ _ Hi) as Hnext.
  pose proof (lookup_lt_Some _ _ _ Hi) as Hlen.
  pose proof (cumulative_upto_mono tbl 0 i Hpos ltac:(lia)) as Hlow.
  pose proof (cumulative_upto_mono tbl (S i) (length tbl) Hpos ltac:(lia)) as Hhigh.
  rewrite cumulative_upto_0 in Hlow. rewrite cumulative_upto_all in Hhigh.
  assert (0 ≤ z) as Hz.
  { by apply (proj1 (Forall_lookup _ _) Hpos i (n, z)). }
  assert (∀ r, r ∈ seqZ (cumulative_upto tbl i) z ↔ hits tbl i r) as Hhits.
  { intros r. rewrite elem_of_seqZ. unfold hits. split.
    - intros Hr. split; [lia|]. apply first_hit_interval; [done | lia |]. split; [done | lia].
    - intros [Hr Hhit]. apply first_hit_interval in Hhit as [_ ?]; [lia | done | lia]. }
  split; [apply NoDup_seqZ|]. split; [apply length_seqZ|]. split; [lia|].
  split; [done|].
  intros r [_ Hhit]%Hhits. by apply (weighted_choice_hit os tbl r i n z).
Qed.

Lemma outcome_share_witness :
  length (seqZ (cumulative_upto [(VStr (lit "A"), 25); (VStr (lit "B"), 25);
                                 (VStr (lit "C"), 50)] 2) 50) = Z.to_nat 50.
Proof.
  assert (validate_outcomes table_abc = Ret (true, Validate.msg_ok)) as Hvalid by (by vm_compute).
  assert (table table_abc
          = Some [(VStr (lit "A"), 25); (VStr (lit "B"), 25); (VStr (lit "C"), 50)])
    as Htbl by (by vm_compute).
  apply (outcome_share table_abc _ 2 (VStr (lit "C")) 50 Hvalid Htbl). reflexivity.
Defined.

(** X8. Two guilds never share a key of the configuration: [guild_key] maps
    different ids to different strings. *)
Theorem guild_keys_distinct (gid gid' : Z) (Hne : gid ≠ gid') :
  guild_key gid ≠ guild_key gid'.
Proof. intros H. by apply guild_key_inj in H. Qed.

Lemma guild_keys_distinct_witness : guild_key 10 ≠ guild_key (-10).
Proof. apply (guild_keys_distinct 10 (-10)). lia. Defined.

(** ** The dispatch *)

Lemma valid_choice_member os r :
  validate_outcomes os = Ret (true, Validate.msg_ok) → 0 ≤ r < 100 →
  ∃ s o, weighted_choice_from r os = Ret (VStr s) ∧ o ∈ os ∧ o !! k_name = Some (VStr s).
Proof.
  intros Hvalid Hr. destruct (valid_choice_name os r Hvalid Hr) as [s Hs].
  pose proof Hvalid as (Hne & Hwf & _)%validate_outcomes_accepts.
  destruct (well_formed_table os Hwf) as (tbl & Htbl%table_Forall2 & _).
  exists s. unfold weighted_choice_from in Hs.
  destruct (choice_loop_cases os tbl r 0 Htbl) as [Hloop|(n & o & Hloop & Ho & Hn)];
    rewrite Hloop in Hs.
  - destruct (last_name_table os tbl Hne Htbl) as (n & o & Hlast & _ & Ho & Hn).
    exists o. rewrite Hlast in Hs. injection Hs as ->.
    split; [|done]. unfold weighted_choice_from. by rewrite Hloop.
  - exists o. injection Hs as ->. split; [|done].
    unfold weighted_choice_from. by rewrite Hloop.
Qed.

(** A dispatch whose user is found takes two samples and sends one direct
    message with the roll of the first and the outcome of the second. *)
Lemma dispatch_rolls w st p g gconf mid cid u name :
  resolve_user w g (p_user_id p) = Ret u →
  weighted_choice_from (second_sample w st) (outcomes gconf) = Ret (VStr name) →
  drawn (dispatch p g gconf mid cid w st).2 = S (S (drawn st))
  ∧ ∃ rest,
      trace (dispatch p g gconf mid cid w st).2
      = trace st ++ lookup_events g (p_user_id p)
        ++ [SecretsRandbelow 100 (first_sample w st);
            SecretsRandbelow 100 (second_sample w st);
            Called (UserSend (user_id u)
                      (Text.dm (roll_d100_from (first_sample w st)) name
                         (trigger_emoji gconf) (guild_name g)))]
        ++ rest
      ∧ Forall (fun e => (∀ n r, e ≠ SecretsRandbelow n r)
                         ∧ ∀ uid text, e ≠ Called (UserSend uid text)) rest.
Proof.
  unfold resolve_user, lookup_events, first_sample, second_sample.
  intros Hu Hchoice. unfold dispatch.
  destruct (get_member g (p_user_id p)) as [m|].
  - injection Hu as ->.
    unfold roll_d100, weighted_choice, randbelow.
    destruct (mod_channel_id gconf) as [mc|]; unfold_requests; rewrite Hchoice; simpl.
    all: split_on_platform.
    all: split; [done|].
    all: simpl; repeat rewrite <- app_assoc; simpl.
    all: eexists; split; [reflexivity|].
    all: repeat constructor; discriminate.
  - destruct (api w (FetchUser (p_user_id p))) as [e|] eqn:Hfetch; [done|].
    injection Hu as <-.
    unfold roll_d100, weighted_choice, randbelow.
    destruct (mod_channel_id gconf) as [mc|]; unfold_requests; rewrite Hfetch; simpl;
      rewrite Hchoice; simpl.
    all: split_on_platform.
    all: split; [done|].
    all: simpl; repeat rewrite <- app_assoc; simpl.
    all: eexists; split; [reflexivity|].
    all: repeat constructor; discriminate.
Qed.

Lemma check_trigger_fires p g gconf w st :
  trigger_message_id gconf = Some (p_message_id p) →
  trigger_channel_id gconf = Some (p_channel_id p) →
  p_message_id p ≠ 0 → p_channel_id p ≠ 0 →
  p_emoji p = trigger_emoji gconf →
  check_trigger p g gconf w st = dispatch p g gconf (p_message_id p) (p_channel_id p) w st.
Proof.
  intros Hm Hc Hm0 Hc0 He. unfold check_trigger. rewrite Hm, Hc. simpl.
  destruct (Z.eqb_spec (p_message_id p) 0); [done|].
  destruct (Z.eqb_spec (p_channel_id p) 0); [done|]. simpl.
  rewrite !Z.eqb_refl. simpl. by rewrite bool_decide_false by (by intros []).
Qed.

Lemma reaction_fires w st p g gconf :
  p_user_id p ≠ bot_user_id w →
  event_guild w p = Some g →
  cfg st !! guild_key (guild_id g) = Some gconf →
  trigger_message_id gconf = Some (p_message_id p) →
  trigger_channel_id gconf = Some (p_channel_id p) →
  p_message_id p ≠ 0 → p_channel_id p ≠ 0 →
  p_emoji p = trigger_emoji gconf →
  on_raw_reaction_add p w st = dispatch p g gconf (p_message_id p) (p_channel_id p) w st.
Proof.
  intros Hbot Hg Hcfg Hm Hc Hm0 Hc0 He.
  rewrite on_raw_reaction_add_unfold, Hg.
  destruct (Z.eqb_spec (p_user_id p) (bot_user_id w)); [done|].
  unfold mbind, M_bind. rewrite (get_guild_config_present _ _ _ _ Hcfg).
  by apply check_trigger_fires.
Qed.

(** X9. A reaction rolls when it comes from somebody other than the bot, in
    a guild the client knows, on the bound message in the bound channel (ids
    other than 0), with the configured emoji.  With an accepted table and a
    user that is found, the handler then takes exactly two samples and sends
    exactly one direct message, to that user, showing the roll of the first
    sample and, for the second, the name of an entry of the table. *)
Theorem reaction_rolls (w : world) (st : state) (p : payload) (g : guild)
    (gconf : GuildConfig) (u : user)
    (Hbot : p_user_id p ≠ bot_user_id w)
    (Hguild : event_guild w p = Some g)
    (Hcfg : cfg st !! guild_key (guild_id g) = Some gconf)
    (Hmessage : trigger_message_id gconf = Some (p_message_id p))
    (Hchannel : trigger_channel_id gconf = Some (p_channel_id p))
    (Hmid : p_message_id p ≠ 0) (Hcid : p_channel_id p ≠ 0)
    (Hemoji : p_emoji p = trigger_emoji gconf)
    (Hvalid : validate_outcomes (outcomes gconf) = Ret (true, Validate.msg_ok))
    (Huser : resolve_user w g (p_user_id p) = Ret u) :
  ∃ name o rest,
    weighted_choice_from (second_sample w st) (outcomes gconf) = Ret (VStr name)
    ∧ o ∈ outcomes gconf ∧ o !! k_name = Some (VStr name)
    ∧ drawn (on_raw_reaction_add p w st).2 = S (S (drawn st))
    ∧ cfg (on_raw_reaction_add p w st).2 = cfg st
    ∧ trace (on_raw_reaction_add p w st).2
      = trace st ++ lookup_events g (p_user_id p)
        ++ [SecretsRandbelow 100 (first_sample w st);
            SecretsRandbelow 100 (second_sample w st);
            Called (UserSend (user_id u)
                      (Text.dm (roll_d100_from (first_sample w st)) name
                         (trigger_emoji gconf) (guild_name g)))]
        ++ rest
    ∧ Forall (fun e => (∀ n r, e ≠ SecretsRandbelow n r)
                       ∧ ∀ uid text, e ≠ Called (UserSend uid text)) rest.
Proof.
  destruct (valid_choice_member (outcomes gconf) (second_sample w st) Hvalid)
    as (name & o & Hchoice & Ho & Hname); [by apply Z.mod_pos_bound|].
  rewrite (reaction_fires w st p g gconf) by done.
  destruct (dispatch_rolls w st p g gconf (p_message_id p) (p_channel_id p) u name
              Huser Hchoice) as (Hdrawn & rest & Htrace & Hrest).
  exists name, o, rest. repeat split; try done.
  (* the records are untouched *)
  pose proof (respects_dispatch None None p g gconf (p_message_id p) (p_channel_id p) w st)
    as (Hframe & _).
  apply map_eq. intros k. by apply Hframe.
Qed.

Lemma reaction_rolls_witness :
  ∃ name o rest,
    weighted_choice_from (second_sample Example.the_world Example.set_up)
      (outcomes Example.set_up_config) = Ret (VStr name)
    ∧ o ∈ outcomes Example.set_up_config ∧ o !! k_name = Some (VStr name)
    ∧ drawn (on_raw_reaction_add (Example.reaction 5 555 (lit "🎲"))
               Example.the_world Example.set_up).2 = 2%nat
    ∧ cfg (on_raw_reaction_add (Example.reaction 5 555 (lit "🎲"))
             Example.the_world Example.set_up).2 = cfg Example.set_up
    ∧ trace (on_raw_reaction_add (Example.reaction 5 555 (lit "🎲"))
               Example.the_world Example.set_up).2
      = [] ++ lookup_events Example.the_guild 5
        ++ [SecretsRandbelow 100 (first_sample Example.the_world Example.set_up);
            SecretsRandbelow 100 (second_sample Example.the_world Example.set_up);
            Called (UserSend 5
                      (Text.dm (roll_d100_from
                                  (first_sample Example.the_world Example.set_up))
                         name (lit "🎲") (lit "Dice")))]
        ++ rest
    ∧ Forall (fun e => (∀ n r, e ≠ SecretsRandbelow n r)
                       ∧ ∀ uid text, e ≠ Called (UserSend uid text)) rest.
Proof.
  apply (reaction_rolls Example.the_world Example.set_up (Example.reaction 5 555 (lit "🎲"))
           Example.the_guild Example.set_up_config {| user_id := 5 |});
    try reflexivity; by vm_compute.
Defined.

(** X10. A user that is neither in the guild nor found by the platform
    stops the dispatch before anything is drawn or sent: the handler raises
    the failure of the lookup, and the lookup is the only event. *)
Theorem dispatch_unknown_user (w : world) (st : state) (p : payload) (g : guild)
    (gconf : GuildConfig) (mid cid : Z) (e : exn)
    (Huser : resolve_user w g (p_user_id p) = Raise e) :
  dispatch p g gconf mid cid w st
  = (Raise e, {| cfg := cfg st; drawn := drawn st;
                 trace := trace st ++ [Called (FetchUser (p_user_id p))] |}).
Proof.
  unfold resolve_user in Huser. unfold dispatch.
  destruct (get_member g (p_user_id p)); [done|].
  destruct (api w (FetchUser (p_user_id p))) as [e'|] eqn:Hfetch; [|done].
  injection Huser as <-. unfold_requests. by rewrite Hfetch.
Qed.

Lemma dispatch_unknown_user_witness :
  dispatch (Example.reaction 5 555 (lit "🎲")) Example.the_guild Example.set_up_config 555 10
    {| bot_user_id := 999; get_guild := get_guild Example.the_world;
       api := fun c => match c with FetchUser _ => Some NotFound | _ => None end;
       fetched_user := fetched_user Example.the_world;
       fetched_message := fetched_message Example.the_world;
       sent_message := sent_message Example.the_world;
       entropy := entropy Example.the_world |}
    Example.set_up
  = (Raise (Discord NotFound),
     {| cfg := cfg Example.set_up; drawn := 0; trace := [] ++ [Called (FetchUser 5)] |}).
Proof.
  apply (dispatch_unknown_user _ Example.set_up (Example.reaction 5 555 (lit "🎲"))).
  reflexivity.
Defined.

(** The dispatch after the direct message, for each answer of the platform
    about the log channel. *)
Lemma dispatch_log w st p g gconf mid cid u name :
  resolve_user w g (p_user_id p) = Ret u →
  weighted_choice_from (second_sample w st) (outcomes gconf) = Ret (VStr name) →
  let dm := UserSend (user_id u)
              (Text.dm (roll_d100_from (first_sample w st)) name
                 (trigger_emoji gconf) (guild_name g)) in
  let start := trace st ++ lookup_events g (p_user_id p)
               ++ [SecretsRandbelow 100 (first_sample w st);
                   SecretsRandbelow 100 (second_sample w st); Called dm] in
  match mod_log_channel g gconf with
  | None =>
      (dispatch p g gconf mid cid w st).1 = Ret tt
      ∧ ∃ rest, trace (dispatch p g gconf mid cid w st).2 = start ++ rest
                ∧ Forall (fun e => ∀ c text, e ≠ Called (ChannelSend c text)) rest
  | Some mod_ch =>
      let log := ChannelSend (channel_id mod_ch)
                   (Text.roll_log (user_id u) (roll_d100_from (first_sample w st)) name
                      (accepted w dm) mid cid) in
      match api w log with
      | None =>
          (dispatch p g gconf mid cid w st).1 = Ret tt
          ∧ ∃ rest, trace (dispatch p g gconf mid cid w st).2
                    = start ++ Called log :: rest
      | Some e =>
          (dispatch p g gconf mid cid w st).1 = Raise (Discord e)
          ∧ trace (dispatch p g gconf mid cid w st).2 = start ++ [Called log]
      end
  end.
Proof.
  unfold resolve_user, lookup_events, first_sample, second_sample, mod_log_channel, accepted.
  intros Hu Hchoice. unfold dispatch.
  destruct (get_member g (p_user_id p)) as [m|].
  - injection Hu as ->.
    unfold roll_d100, weighted_choice, randbelow.
    destruct (mod_channel_id gconf) as [mc|]; unfold_requests; rewrite Hchoice; simpl.
    all: split_on_platform.
    all: simpl; (split; [reflexivity|]).
    all: try eexists.
    all: repeat rewrite <- app_assoc; simpl.
    all: first [reflexivity | split; [reflexivity|]].
    all: repeat constructor; discriminate.
  - destruct (api w (FetchUser (p_user_id p))) as [e|] eqn:Hfetch; [done|].
    injection Hu as <-.
    unfold roll_d100, weighted_choice, randbelow.
    destruct (mod_channel_id gconf) as [mc|]; unfold_requests; rewrite Hfetch; simpl;
      rewrite Hchoice; simpl.
    all: split_on_platform.
    all: simpl; (split; [reflexivity|]).
    all: try eexists.
    all: repeat rewrite <- app_assoc; simpl.
    all: first [reflexivity | split; [reflexivity|]].
    all: repeat constructor; discriminate.
Qed.

(** X11. In a dispatch whose user is found and whose draw returns a name,
    neither a refused direct message nor a failed removal of the reaction
    stops the handler: it ends normally unless the post to the moderator
    channel fails.  When the record names a moderator channel that resolves
    to a text channel, the log is posted there after the direct message and
    says whether the message was accepted; when that post fails, its failure
    is raised and the reaction is not cleaned up.  Without such a channel no
    log is posted. *)
Theorem dispatch_log_and_cleanup (w : world) (st : state) (p : payload) (g : guild)
    (gconf : GuildConfig) (mid cid : Z) (u : user) (name : list N)
    (Huser : resolve_user w g (p_user_id p) = Ret u)
    (Hchoice : weighted_choice_from (second_sample w st) (outcomes gconf)
               = Ret (VStr name)) :
  let dm := UserSend (user_id u)
              (Text.dm (roll_d100_from (first_sample w st)) name
                 (trigger_emoji gconf) (guild_name g)) in
  let log := fun mod_ch : channel =>
               ChannelSend (channel_id mod_ch)
                 (Text.roll_log (user_id u) (roll_d100_from (first_sample w st)) name
                    (accepted w dm) mid cid) in
  let start := trace st ++ lookup_events g (p_user_id p)
               ++ [SecretsRandbelow 100 (first_sample w st);
                   SecretsRandbelow 100 (second_sample w st); Called dm] in
  let run := dispatch p g gconf mid cid w st in
  (mod_log_channel g gconf = None →
     run.1 = Ret tt
     ∧ ∃ rest, trace run.2 = start ++ rest
               ∧ Forall (fun e => ∀ c text, e ≠ Called (ChannelSend c text)) rest)
  ∧ (∀ mod_ch, mod_log_channel g gconf = Some mod_ch → api w (log mod_ch) = None →
       run.1 = Ret tt ∧ ∃ rest, trace run.2 = start ++ Called (log mod_ch) :: rest)
  ∧ (∀ mod_ch e, mod_log_channel g gconf = Some mod_ch → api w (log mod_ch) = Some e →
       run.1 = Raise (Discord e) ∧ trace run.2 = start ++ [Called (log mod_ch)]).
Proof.
  intros dm log start run.
  pose proof (dispatch_log w st p g gconf mid cid u name Huser Hchoice) as H.
  simpl in H. fold dm in H. fold start in H. fold run in H.
  destruct (mod_log_channel g gconf) as [mod_ch|].
  - split; [done|]. fold (log mod_ch) in H. split.
    + intros ? [= <-] Hlog. by rewrite Hlog in H.
    + intros ? e [= <-] Hlog. by rewrite Hlog in H.
  - split; [done|]. split; [done|]. by intros ? ?.
Qed.

Lemma dispatch_log_and_cleanup_witness :
  (dispatch (Example.reaction 5 555 (lit "🎲")) Example.the_guild Example.set_up_config
     555 10 Example.the_world Example.set_up).1 = Ret tt.
Proof.
  assert (resolve_user Example.the_world Example.the_guild
            (p_user_id (Example.reaction 5 555 (lit "🎲"))) = Ret {| user_id := 5 |})
    as Huser by reflexivity.
  assert (weighted_choice_from (second_sample Example.the_world Example.set_up)
            (outcomes Example.set_up_config) = Ret (VStr (lit "powers, blessing")))
    as Hchoice by (by vm_compute).
  apply (proj1 (proj2 (dispatch_log_and_cleanup Example.the_world Example.set_up
                         (Example.reaction 5 555 (lit "🎲")) Example.the_guild
                         Example.set_up_config 555 10 _ _ Huser Hchoice))
           Example.log_channel).
  - by vm_compute.
  - reflexivity.
Defined.

(** ** Posting the roller *)

(** The state and the record [get_guild_config] leaves behind. *)
Lemma get_guild_config_run w st gid :
  ∃ st1, get_guild_config gid w st = (Ret (stored_or_default st gid), st1)
         ∧ cfg st1 = <[guild_key gid := stored_or_default st gid]> (cfg st)
         ∧ drawn st1 = drawn st
         ∧ ∃ evs, trace st1 = trace st ++ evs ∧ Forall (fun e => ∀ c, e ≠ Called c) evs.
Proof.
  unfold stored_or_default. destruct (cfg st !! guild_key gid) as [gconf|] eqn:E; simpl.
  - exists st. rewrite (get_guild_config_present _ _ _ _ E).
    split; [done|]. split; [by rewrite insert_id|]. split; [done|].
    exists []. by rewrite app_nil_r.
  - rewrite (get_guild_config_absent _ _ _ E). eexists. split; [reflexivity|]. simpl.
    split; [done|]. split; [done|]. eexists. split; [reflexivity|].
    by repeat constructor.
Qed.

Lemma update_after_config (c : gmap (list N) GuildConfig) k f x :
  alter f k (<[k := x]> c) = <[k := f x]> c.
Proof.
  rewrite (alter_after_lookup _ _ _ x) by apply lookup_insert_eq.
  apply insert_insert_eq.
Qed.

Lemma postroller_posted w st i ch message_text g :
  i_guild i = Some g → is_mod i = true →
  api w (ChannelSend (channel_id ch)
           (Text.roller message_text (trigger_emoji (stored_or_default st (guild_id g)))))
  = None →
  cfg (postroller i ch message_text w st).2
  = <[guild_key (guild_id g)
      := set_trigger
           (Some (message_id
                    (sent_message w (channel_id ch)
                       (Text.roller message_text
                          (trigger_emoji (stored_or_default st (guild_id g)))))))
           (Some (channel_id ch)) (stored_or_default st (guild_id g))]> (cfg st).
Proof.
  intros Hguild Hmod Hpost.
  unfold postroller, as_moderator. rewrite Hguild, Hmod. simpl.
  destruct (get_guild_config_run w st (guild_id g)) as (st1 & Hrun & Hcfg & _).
  unfold mbind at 1, M_bind at 1. rewrite Hrun.
  unfold_requests. rewrite Hpost. simpl.
  unfold update_guild, save_config, emit.
  destruct (api w (AddReaction _ _ _)); simpl; destruct (api w (Respond _)); simpl.
  all: by rewrite Hcfg, update_after_config.
Qed.

(** X12. [postroller], called by a moderator, posts the roller text with the
    emoji of the record.  When the post succeeds, the posted message and its
    channel become the trigger binding of the guild, the rest of the record
    stays, the emoji is added as a reaction, and a failure of that reaction
    changes nothing of this.  When the post fails, its failure is raised, no
    reaction is added and the record keeps its binding. *)
Theorem postroller_binds_trigger (w : world) (st : state) (i : interaction)
    (ch : channel) (message_text : list N) (g : guild)
    (Hguild : i_guild i = Some g) (Hmod : is_mod i = true) :
  let gconf := stored_or_default st (guild_id g) in
  let text := Text.roller message_text (trigger_emoji gconf) in
  let posted := sent_message w (channel_id ch) text in
  let react := AddReaction (channel_id ch) (message_id posted) (trigger_emoji gconf) in
  let run := postroller i ch message_text w st in
  (api w (ChannelSend (channel_id ch) text) = None →
     cfg run.2
     = <[guild_key (guild_id g)
         := set_trigger (Some (message_id posted)) (Some (channel_id ch)) gconf]> (cfg st)
     ∧ (∃ evs, trace run.2
               = trace st ++ evs
                 ++ [Called (ChannelSend (channel_id ch) text); Called react;
                     SaveConfig (cfg run.2);
                     Called (Respond (Text.roller_posted (channel_id ch) (message_id posted)
                                        (trigger_emoji gconf)))]
               ∧ Forall (fun e => ∀ c, e ≠ Called c) evs)
     ∧ run.1 = match api w (Respond (Text.roller_posted (channel_id ch) (message_id posted)
                                       (trigger_emoji gconf))) with
               | None => Ret tt
               | Some e => Raise (Discord e)
               end)
  ∧ (∀ e, api w (ChannelSend (channel_id ch) text) = Some e →
       run.1 = Raise (Discord e)
       ∧ cfg run.2 = <[guild_key (guild_id g) := gconf]> (cfg st)
       ∧ ∃ evs, trace run.2 = trace st ++ evs ++ [Called (ChannelSend (channel_id ch) text)]
                ∧ Forall (fun e => ∀ c, e ≠ Called c) evs).
Proof.
  intros gconf text posted react run. subst react posted text.
  destruct (get_guild_config_run w st (guild_id g))
    as (st1 & Hrun & Hcfg & _ & evs & Htr & Hevs).
  fold gconf in Hrun, Hcfg.
  assert (run = (get_guild_config (guild_id g) ≫= fun gconf =>
                 _ ← request (ChannelSend (channel_id ch)
                                (Text.roller message_text (trigger_emoji gconf)));
                 w ← ask;
                 let roller_msg := sent_message w (channel_id ch)
                                     (Text.roller message_text (trigger_emoji gconf)) in
                 _ ← try_except (request (AddReaction (channel_id ch) (message_id roller_msg)
                                            (trigger_emoji gconf)))
                       is_discord (mret tt);
                 _ ← update_guild (guild_id g)
                       (set_trigger (Some (message_id roller_msg)) (Some (channel_id ch)));
                 _ ← save_config;
                 respond (Text.roller_posted (channel_id ch) (message_id roller_msg)
                            (trigger_emoji gconf))) w st) as Hunfold.
  { subst run. unfold postroller, as_moderator. by rewrite Hguild, Hmod. }
  unfold mbind at 1, M_bind at 1 in Hunfold. rewrite Hrun in Hunfold.
  split.
  - intros Hpost. revert Hunfold. unfold_requests. rewrite Hpost. simpl.
    unfold update_guild, save_config, emit.
    destruct (api w (AddReaction _ _ _)); simpl; destruct (api w (Respond _)); simpl.
    all: rewrite Hcfg, update_after_config, Htr.
    all: intros ->; simpl.
    all: split; [done|]; split; [|done].
    all: exists evs; split; [|done]; by rewrite <- !app_assoc.
  - intros e Hpost. revert Hunfold. unfold_requests. rewrite Hpost. simpl.
    intros ->. simpl.
    split; [done|]. split; [done|]. exists evs. by rewrite Htr, <- app_assoc.
Qed.

Lemma postroller_binds_trigger_witness :
  cfg (postroller Example.moderator Example.log_channel (lit "Roll!")
         Example.the_world Example.fresh).2
  = <[guild_key 1 := set_trigger (Some 555) (Some 10) default_guild_config]> ∅.
Proof.
  apply (proj1 (postroller_binds_trigger Example.the_world Example.fresh Example.moderator
                  Example.log_channel (lit "Roll!") Example.the_guild eq_refl eq_refl)).
  reflexivity.
Defined.

(** X13. After a successful [postroller], a reaction of somebody other than
    the bot on the posted message, in its channel, with the emoji of the
    record, rolls: the handler takes two samples and sends the direct
    message.  The ids of the message and of the channel must not be 0, the
    table of the guild must be accepted and the user must be found. *)
Theorem postroller_then_reaction_rolls (w w' : world) (st : state) (i : interaction)
    (ch : channel) (message_text : list N) (g g' : guild) (p : payload) (u : user)
    (Hguild : i_guild i = Some g) (Hmod : is_mod i = true)
    (Hvalid : valid_cfg (cfg st))
    (Hpost : api w (ChannelSend (channel_id ch)
                      (Text.roller message_text
                         (trigger_emoji (stored_or_default st (guild_id g))))) = None)
    (Hbot : p_user_id p ≠ bot_user_id w')
    (Hevent : event_guild w' p = Some g') (Hsame : guild_id g' = guild_id g)
    (Hmessage : p_message_id p
                = message_id (sent_message w (channel_id ch)
                                (Text.roller message_text
                                   (trigger_emoji (stored_or_default st (guild_id g))))))
    (Hchannel : p_channel_id p = channel_id ch)
    (Hmid : p_message_id p ≠ 0) (Hcid : p_channel_id p ≠ 0)
    (Hemoji : p_emoji p = trigger_emoji (stored_or_default st (guild_id g)))
    (Huser : resolve_user w' g' (p_user_id p) = Ret u) :
  let st1 := (postroller i ch message_text w st).2 in
  let st2 := (on_raw_reaction_add p w' st1).2 in
  drawn st2 = S (S (drawn st1))
  ∧ ∃ name rest,
      trace st2
      = trace st1 ++ lookup_events g' (p_user_id p)
        ++ [SecretsRandbelow 100 (first_sample w' st1);
            SecretsRandbelow 100 (second_sample w' st1);
            Called (UserSend (user_id u)
                      (Text.dm (roll_d100_from (first_sample w' st1)) name
                         (trigger_emoji (stored_or_default st (guild_id g)))
                         (guild_name g')))]
        ++ rest.
Proof.
  intros st1 st2. subst st2.
  pose proof (postroller_posted w st i ch message_text g Hguild Hmod Hpost) as Hcfg.
  set (gconf1 := set_trigger (Some (p_message_id p)) (Some (p_channel_id p))
                   (stored_or_default st (guild_id g))).
  assert (cfg st1 !! guild_key (guild_id g') = Some gconf1) as Hstored.
  { subst st1 gconf1. rewrite Hcfg, Hsame, lookup_insert_eq, Hmessage, Hchannel. done. }
  assert (validate_outcomes (outcomes gconf1) = Ret (true, Validate.msg_ok)) as Hvalid1.
  { by apply stored_or_default_valid. }
  destruct (valid_choice_name (outcomes gconf1) (second_sample w' st1) Hvalid1)
    as [name Hchoice]; [by apply Z.mod_pos_bound|].
  rewrite (reaction_fires w' st1 p g' gconf1) by done.
  destruct (dispatch_rolls w' st1 p g' gconf1 (p_message_id p) (p_channel_id p) u name
              Huser Hchoice) as (Hdrawn & rest & Htrace & _).
  split; [done|]. by exists name, rest.
Qed.

Lemma postroller_then_reaction_rolls_witness :
  drawn (on_raw_reaction_add (Example.reaction 5 555 (lit "🎲")) Example.the_world
           (postroller Example.moderator Example.log_channel (lit "Roll!")
              Example.the_world Example.fresh).2).2
  = S (S (drawn (postroller Example.moderator Example.log_channel (lit "Roll!")
                   Example.the_world Example.fresh).2)).
Proof.
  apply (postroller_then_reaction_rolls Example.the_world Example.the_world Example.fresh
           Example.moderator Example.log_channel (lit "Roll!") Example.the_guild
           Example.the_guild (Example.reaction 5 555 (lit "🎲")) {| user_id := 5 |});
    try reflexivity;
    try (intros k gconf H; simpl in H; by rewrite lookup_empty in H);
    by vm_compute.
Defined.

(** ** More on setting the odds *)

Lemma split_blank odds :
  Forall (fun c => PyStr.is_space c = true ∨ c = 59%N) odds →
  Forall blank (PyStr.split 59 odds).
Proof.
  induction 1 as [|c r Hc _ IH]; simpl.
  - repeat constructor.
  - destruct (N.eqb_spec c 59) as [->|Hne].
    + constructor; [constructor | done].
    + destruct Hc as [Hc|Hc]; [|done].
      destruct (PyStr.split 59 r) as [|part parts]; [repeat constructor; done|].
      inversion IH; subst. constructor; [by constructor | done].
Qed.

Lemma odds_parts_blank odds :
  Forall (fun c => PyStr.is_space c = true ∨ c = 59%N) odds → odds_parts odds = [].
Proof.
  intros H%split_blank. unfold odds_parts.
  induction H as [|part parts Hp _ IH]; simpl; [done|].
  apply strip_nil in Hp. rewrite Hp. by rewrite filter_cons_False by (by intros []).
Qed.

(** X14. [setodds] with a text that is empty or made of blanks and
    semicolons only is refused with the message that at least one outcome is
    needed; the records and the file stay as they are. *)
Theorem setodds_blank_text (w : world) (st : state) (i : interaction) (odds : list N)
    (Hmod : is_mod i = true)
    (Hblank : Forall (fun c => PyStr.is_space c = true ∨ c = 59%N) odds) :
  (setodds i odds w st).2
  = {| cfg := cfg st; drawn := drawn st;
       trace := trace st ++ [Called (Respond (Text.invalid Validate.msg_empty))] |}.
Proof.
  assert (∃ g, i_guild i = Some g) as [g Hg].
  { unfold is_mod in Hmod. destruct (i_guild i); [eauto | done]. }
  unfold setodds, as_moderator. rewrite Hg, Hmod. simpl.
  rewrite (odds_parts_blank odds Hblank).
  unfold_requests. by destruct (api w _).
Qed.

Lemma setodds_blank_text_witness :
  (setodds Example.moderator (lit " ; ;; ") Example.the_world Example.set_up).2
  = {| cfg := cfg Example.set_up; drawn := 0;
       trace := [] ++ [Called (Respond (Text.invalid Validate.msg_empty))] |}.
Proof.
  apply (setodds_blank_text Example.the_world Example.set_up Example.moderator).
  - reflexivity.
  - repeat constructor; (by left; vm_compute) || (by right).
Defined.

(** ** Changing one field of a record *)

(** [gconf = get_guild_config(...)], one assignment to a field, [save_config]
    and the reply: the record of the guild, created if need be, with that
    field changed, written to the file. *)
Lemma configure_run w st gid f text :
  ∃ evs,
    (get_guild_config gid ≫= fun _ =>
     update_guild gid f ≫= fun _ => save_config ≫= fun _ => respond text) w st
    = (match api w (Respond text) with None => Ret tt | Some e => Raise (Discord e) end,
       {| cfg := <[guild_key gid := f (stored_or_default st gid)]> (cfg st);
          drawn := drawn st;
          trace := trace st ++ evs
                   ++ [SaveConfig (<[guild_key gid := f (stored_or_default st gid)]> (cfg st));
                       Called (Respond text)] |})
    ∧ Forall (fun e => ∀ c, e ≠ Called c) evs.
Proof.
  destruct (get_guild_config_run w st gid) as (st1 & Hrun & Hcfg & Hdrawn & evs & Htr & Hevs).
  exists evs. split; [|done].
  unfold mbind at 1, M_bind at 1. rewrite Hrun.
  unfold update_guild, save_config, emit. unfold_requests.
  rewrite Hcfg, update_after_config, Htr, Hdrawn.
  destruct (api w (Respond text)); by rewrite <- !app_assoc.
Qed.





(** ** Showing the odds *)

Lemma odds_lines_entries parsed :
  odds_lines (entries parsed)
  = Ret (map (fun '(name, weight) => Text.odds_line name (PyStr.of_int weight)) parsed).
Proof.
  induction parsed as [|[n z] parsed IH]; [done|].
  change (odds_lines (mk_outcome n z :: entries parsed)
          = Ret (Text.odds_line n (PyStr.of_int z)
                 :: map (fun '(name, weight) => Text.odds_line name (PyStr.of_int weight))
                      parsed)).
  cbn [odds_lines]. rewrite mk_outcome_name, mk_outcome_weight, IH. done.
Qed.

Lemma odds_lines_length os ls : odds_lines os = Ret ls → length ls = length os.
Proof.
  revert ls. induction os as [|o os IH]; simpl; intros ls; [by intros [= <-]|].
  destruct (o !! k_name) as [n|]; [|done]. destruct (o !! k_weight) as [w|]; [|done].
  destruct (Text.of_value n); try done; destruct (Text.of_value w); try done;
    destruct (odds_lines os); try done.
  intros [= <-]. simpl. f_equal. by apply IH.
Qed.

(** X17. [showodds] needs no permission.  In a guild whose table is
    accepted it answers with the emoji, the bound message, the moderator
    channel and one line per outcome of the record.  For a guild with a
    record it changes no record and does not write the file; for a guild
    without one it first stores the default record and writes the file, once,
    before it answers (the mapping written being one that can be encoded).
    Outside a guild it only says so. *)
Theorem showodds_reads (w : world) (st : state) (i : interaction)
    (Hvalid : valid_cfg (cfg st))
    (Hwritten : forallb written (trace (showodds i w st).2) = true) :
  (∀ g, i_guild i = Some g →
     let gconf := stored_or_default st (guild_id g) in
     let created :=
       match cfg st !! guild_key (guild_id g) with
       | Some _ => []
       | None => [SaveConfig (<[guild_key (guild_id g) := default_guild_config]> (cfg st))]
       end in
     ∃ ls,
       odds_lines (outcomes gconf) = Ret ls
       ∧ length ls = length (outcomes gconf)
       ∧ (showodds i w st).2
         = {| cfg := <[guild_key (guild_id g) := gconf]> (cfg st);
              drawn := drawn st;
              trace := trace st ++ created
                       ++ [Called (Respond
                                     (Text.show (trigger_emoji gconf)
                                        (trigger_message_id gconf) (mod_channel_id gconf)
                                        (PyStr.join Text.nl ls)))] |}
       ∧ (is_Some (cfg st !! guild_key (guild_id g)) → cfg (showodds i w st).2 = cfg st))
  ∧ (i_guild i = None →
     (showodds i w st).2
     = {| cfg := cfg st; drawn := drawn st;
          trace := trace st ++ [Called (Respond Text.use_in_server)] |}).
Proof.
  split.
  - intros g Hg gconf created.
    pose proof (stored_or_default_valid st (guild_id g) Hvalid) as Hgconf.
    apply validate_outcomes_accepts in Hgconf as (_ & Hwf & _).
    destruct (odds_lines_valid _ Hwf) as [ls Hls].
    exists ls. fold gconf in Hls. split; [done|]. split; [by apply odds_lines_length|].
    subst created gconf. unfold stored_or_default in *.
    destruct (cfg st !! guild_key (guild_id g)) as [stored|] eqn:Hstored;
      cbv [from_option id] in *.
    + rewrite insert_id by done.
      assert ((showodds i w st).2
              = {| cfg := cfg st; drawn := drawn st;
                   trace := trace st
                            ++ [Called (Respond
                                          (Text.show (trigger_emoji stored)
                                             (trigger_message_id stored)
                                             (mod_channel_id stored)
                                             (PyStr.join Text.nl ls)))] |}) as Hrun.
      { unfold showodds. rewrite Hg. unfold mbind at 1, M_bind at 1.
        rewrite (get_guild_config_present _ _ _ _ Hstored).
        unfold mbind, M_bind, lift. rewrite Hls. unfold_requests. by destruct (api w _). }
      split; [exact Hrun|]. intros _. by rewrite Hrun.
    + split; [|by intros [? ?]].
      unfold showodds. rewrite Hg. unfold mbind at 1, M_bind at 1.
      rewrite (get_guild_config_absent _ _ _ Hstored).
      unfold mbind, M_bind, lift. rewrite Hls. unfold_requests.
      destruct (api w _); simpl; by rewrite <- app_assoc.
  - intros Hg. unfold showodds. rewrite Hg. unfold_requests. by destruct (api w _).
Qed.

Lemma showodds_reads_witness :
  ∃ ls,
    odds_lines (outcomes default_guild_config) = Ret ls
    ∧ length ls = 3%nat
    ∧ (showodds {| i_guild := Some Example.the_guild; i_user := None |}
         Example.the_world Example.fresh).2
      = {| cfg := {[ guild_key 1 := default_guild_config ]};
           drawn := 0;
           trace := [SaveConfig {[ guild_key 1 := default_guild_config ]};
                     Called (Respond
                               (Text.show (lit "🎲") None None (PyStr.join Text.nl ls)))] |}.
Proof.
  assert (valid_cfg (cfg Example.fresh)) as Hvalid.
  { intros k gconf H. simpl in H. by rewrite lookup_empty in H. }
  assert (forallb written
            (trace (showodds {| i_guild := Some Example.the_guild; i_user := None |}
                      Example.the_world Example.fresh).2) = true) as Hwritten
    by (by vm_compute).
  destruct (proj1 (showodds_reads Example.the_world Example.fresh
                     {| i_guild := Some Example.the_guild; i_user := None |}
                     Hvalid Hwritten)
              Example.the_guild eq_refl) as (ls & Hls & Hlen & Hrun & _).
  exists ls. split; [exact Hls|]. split; [exact Hlen|]. exact Hrun.
Defined.

Lemma setodds_accepted w st i odds g parsed :
  i_guild i = Some g → is_mod i = true →
  parse_odds (odds_parts odds) [] = Ret (inr parsed) →
  validate_outcomes (entries parsed) = Ret (true, Validate.msg_ok) →
  ∃ evs,
    setodds i odds w st
    = (match api w (Respond (Text.odds_updated parsed)) with
       | None => Ret tt
       | Some e => Raise (Discord e)
       end,
       {| cfg := <[guild_key (guild_id g)
                   := set_outcomes (entries parsed) (stored_or_default st (guild_id g))]>
                   (cfg st);
          drawn := drawn st;
          trace := trace st ++ evs
                   ++ [SaveConfig
                         (<[guild_key (guild_id g)
                            := set_outcomes (entries parsed)
                                 (stored_or_default st (guild_id g))]> (cfg st));
                       Called (Respond (Text.odds_updated parsed))] |})
    ∧ Forall (fun e => ∀ c, e ≠ Called c) evs.
Proof.
  intros Hg Hmod Hparse Hvalid.
  destruct (configure_run w st (guild_id g) (set_outcomes (entries parsed))
              (Text.odds_updated parsed)) as (evs & Hrun & Hevs).
  exists evs. split; [|done]. rewrite <- Hrun.
  unfold setodds, as_moderator. rewrite Hg, Hmod. simpl.
  unfold mbind at 1, M_bind at 1, lift at 1. rewrite Hparse.
  unfold mbind at 1, M_bind at 1, lift at 1. by rewrite Hvalid.
Qed.

(** X18. After [setodds] has accepted a text, the record of the guild holds
    the parsed outcomes in the order given, each with its name and weight,
    and [showodds], by any member, lists the very lines of the
    confirmation. *)
Theorem setodds_then_showodds (w w' : world) (st : state) (i i' : interaction)
    (odds : list N) (g g' : guild) (parsed : list (list N * Z))
    (Hguild : i_guild i = Some g) (Hmod : is_mod i = true)
    (Hparse : parse_odds (odds_parts odds) [] = Ret (inr parsed))
    (Hvalid : validate_outcomes (entries parsed) = Ret (true, Validate.msg_ok))
    (Hguild' : i_guild i' = Some g') (Hsame : guild_id g' = guild_id g) :
  let gconf := stored_or_default st (guild_id g) in
  let lines := map (fun '(name, weight) => Text.odds_line name (PyStr.of_int weight)) parsed in
  let st1 := (setodds i odds w st).2 in
  cfg st1 !! guild_key (guild_id g) = Some (set_outcomes (entries parsed) gconf)
  ∧ table (entries parsed) = Some (map (fun '(name, weight) => (VStr name, weight)) parsed)
  ∧ Text.odds_updated parsed = lit "✅ Odds updated:" ++ Text.nl ++ PyStr.join Text.nl lines
  ∧ (showodds i' w' st1).2
    = {| cfg := cfg st1; drawn := drawn st1;
         trace := trace st1
                  ++ [Called (Respond
                                (Text.show (trigger_emoji gconf) (trigger_message_id gconf)
                                   (mod_channel_id gconf) (PyStr.join Text.nl lines)))] |}.
Proof.
  intros gconf lines st1.
  destruct (setodds_accepted w st i odds g parsed Hguild Hmod Hparse Hvalid)
    as (evs & Hrun & _).
  assert (cfg st1 !! guild_key (guild_id g) = Some (set_outcomes (entries parsed) gconf))
    as Hstored.
  { subst st1. rewrite Hrun. simpl. apply lookup_insert_eq. }
  split; [done|]. split.
  { apply table_Forall2. clear. induction parsed as [|[n z] parsed IH]; simpl;
      constructor; [apply shape_mk_outcome | done]. }
  split; [done|].
  unfold showodds. rewrite Hguild', Hsame. unfold mbind at 1, M_bind at 1.
  rewrite (get_guild_config_present _ _ _ _ Hstored).
  unfold mbind, M_bind, lift. simpl. rewrite odds_lines_entries. unfold_requests.
  by destruct (api w' _).
Qed.

Lemma setodds_then_showodds_witness :
  cfg (setodds Example.moderator (lit "a=40; b=60") Example.the_world Example.set_up).2
    !! guild_key 1
  = Some (set_outcomes (entries [(lit "a", 40); (lit "b", 60)])
            (stored_or_default Example.set_up 1)).
Proof.
  apply (setodds_then_showodds Example.the_world Example.the_world Example.set_up
           Example.moderator Example.moderator (lit "a=40; b=60") Example.the_guild
           Example.the_guild [(lit "a", 40); (lit "b", 60)]);
    try reflexivity; by vm_compute.
Defined.

(** ** What the parser of the odds produces *)

Lemma lstrip_by_suffix f s : ∃ pre, s = pre ++ PyStr.lstrip_by f s.
Proof.
  induction s as [|c s [pre IH]]; simpl; [by exists []|].
  destruct (f c); [|by exists []]. exists (c :: pre). simpl. by rewrite <- IH.
Qed.

Lemma lstrip_by_idem f s : PyStr.lstrip_by f (PyStr.lstrip_by f s) = PyStr.lstrip_by f s.
Proof.
  destruct (PyStr.lstrip_by f s) as [|c r] eqn:E; [done|].
  apply lstrip_by_head in E. simpl. by rewrite E.
Qed.

(** [s.strip().strip()] is [s.strip()]. *)
Lemma strip_idem s : PyStr.strip (PyStr.strip s) = PyStr.strip s.
Proof.
  unfold PyStr.strip, PyStr.rstrip_by.
  set (t := PyStr.lstrip_by PyStr.is_space s).
  set (v := PyStr.lstrip_by PyStr.is_space (rev t)).
  assert (PyStr.lstrip_by PyStr.is_space (rev v) = rev v) as Hhead.
  { destruct (rev v) as [|c r] eqn:E; [done|]. simpl.
    destruct (lstrip_by_suffix PyStr.is_space (rev t)) as [pre Hpre]. fold v in Hpre.
    assert (t = rev v ++ rev pre) as Ht.
    { rewrite <- (rev_involutive t), Hpre. by rewrite rev_app_distr. }
    rewrite E in Ht. simpl in Ht.
    assert (PyStr.is_space c = false) as ->; [|done].
    subst t. by apply lstrip_by_head in Ht. }
  rewrite Hhead, rev_involutive. subst v. by rewrite lstrip_by_idem.
Qed.

Lemma decimal_in_nonneg runs c d : PyStr.decimal_in runs c = Some d → 0 ≤ d.
Proof.
  induction runs as [|[a n] runs IH]; simpl; [done|].
  destruct (_ && _)%bool; [|done]. intros [= <-]. apply N2Z.is_nonneg.
Qed.

Lemma digits_nonneg fuel s acc count v n rest :
  (length s ≤ fuel)%nat → 0 ≤ acc →
  PyInt.digits acc count s = Some (v, n, rest) → 0 ≤ v.
Proof.
  revert s acc count. induction fuel as [|fuel IH]; intros s acc count Hlen Hacc.
  - destruct s; [|simpl in Hlen; lia]. simpl. by intros [= <- _ _].
  - destruct s as [|c r]; simpl; [by intros [= <- _ _]|]. simpl in Hlen.
    destruct (PyStr.decimal_value c) as [d|] eqn:Hd.
    + apply decimal_in_nonneg in Hd. apply IH; [lia | lia].
    + destruct (c =? 95)%N; [|by intros [= <- _ _]].
      destruct r as [|c' r']; [done|]. simpl in Hlen.
      destruct (PyStr.decimal_value c') as [d|] eqn:Hd'; [|done].
      apply decimal_in_nonneg in Hd'. apply IH; [lia | lia].
Qed.

Lemma unsigned_nonneg s v : PyInt.unsigned s = Ret v → 0 ≤ v.
Proof.
  unfold PyInt.unsigned. destruct s as [|c r]; [done|].
  destruct (PyStr.decimal_value c) as [d|] eqn:Hd; [|done].
  apply decimal_in_nonneg in Hd.
  destruct (PyInt.digits d 1 r) as [[[v' n] rest]|] eqn:E; [|done].
  apply (digits_nonneg (length r)) in E; [|done|done].
  destruct (_ <? _)%N; [done|]. destruct (forallb _ _); [|done]. by intros [= <-].
Qed.

(** [int] gives a negative number only for a text with a minus sign. *)
Lemma int_negative_has_minus s v : PyInt.int s = Ret v → v < 0 → 45%N ∈ s.
Proof.
  unfold PyInt.int. intros Hint Hneg.
  destruct (lstrip_by_suffix PyInt.int_space s) as [pre Hpre].
  destruct (PyStr.lstrip_by PyInt.int_space s) as [|c r]; [done|].
  destruct (N.eqb_spec c 45) as [->|_].
  - rewrite Hpre. apply elem_of_app. right. by left.
  - assert (∃ t, PyInt.unsigned t = Ret v) as [t Ht].
    { destruct (c =? 43)%N; eauto. }
    apply unsigned_nonneg in Ht. lia.
Qed.

Lemma isdigit_int_nonneg s v : PyStr.isdigit s = true → PyInt.int s = Ret v → 0 ≤ v.
Proof.
  intros Hdigit Hint. destruct (Z.lt_ge_cases v 0) as [Hneg|]; [|done].
  pose proof (int_negative_has_minus s v Hint Hneg) as Hminus.
  assert (forallb PyStr.is_digit s = true) as Hall by (by destruct s).
  rewrite forallb_forall in Hall. apply list_elem_of_In, Hall in Hminus.
  by vm_compute in Hminus.
Qed.

Lemma parse_odds_normal parts acc parsed :
  Forall (fun nz : list N * Z => PyStr.strip nz.1 = nz.1 ∧ 0 ≤ nz.2) acc →
  parse_odds parts acc = Ret (inr parsed) →
  Forall (fun nz : list N * Z => PyStr.strip nz.1 = nz.1 ∧ 0 ≤ nz.2) parsed.
Proof.
  revert acc. induction parts as [|p rest IH]; intros acc Hacc; simpl.
  - by intros [= <-].
  - destruct (PyStr.split_once 61 p) as [[name weight_str]|]; [|done].
    destruct (PyStr.isdigit (PyStr.strip weight_str)) eqn:Hdigit; simpl; [|done].
    destruct (PyInt.int (PyStr.strip weight_str)) as [z| |] eqn:Hint; try done.
    apply IH. apply Forall_app. split; [done|]. constructor; [|done]. simpl.
    split; [apply strip_idem | by apply (isdigit_int_nonneg _ _ Hdigit)].
Qed.

Lemma parse_odds_reply parts acc text :
  parse_odds parts acc = Ret (inl text) →
  text = Text.bad_format ∨ ∃ p, p ∈ parts ∧ text = Text.weight_not_int p.
Proof.
  revert acc. induction parts as [|p rest IH]; intros acc; simpl; [done|].
  destruct (PyStr.split_once 61 p) as [[name weight_str]|]; [|intros [= <-]; by left].
  destruct (PyStr.isdigit (PyStr.strip weight_str)); simpl.
  - destruct (PyInt.int (PyStr.strip weight_str)); try done.
    intros [?|(p' & Hp' & ->)]%IH; [by left|]. right. exists p'. split; [by right | done].
  - intros [= <-]. right. exists p. split; [by left | done].
Qed.

(** [validate_outcomes] on what the parser produced. *)
Lemma validate_parsed parsed :
  Forall (fun nz : list N * Z => PyStr.strip nz.1 = nz.1 ∧ 0 ≤ nz.2) parsed →
  ∀ t, validate_loop (entries parsed) t = Ret (true, Validate.msg_ok)
       ∨ validate_loop (entries parsed) t = Ret (false, Validate.msg_name)
       ∨ ∃ t', t' ≠ 100 ∧ t ≤ t' ∧ validate_loop (entries parsed) t = refuse_total t'.
Proof.
  induction 1 as [|[n z] parsed [Hn Hz] _ IH]; intros t.
  - simpl. destruct (Z.eqb_spec t 100); simpl; [eauto|]. right. right. exists t. eauto with lia.
  - change (entries ((n, z) :: parsed)) with (mk_outcome n z :: entries parsed).
    cbn [validate_loop]. rewrite mk_outcome_name, mk_outcome_weight. simpl in *.
    destruct (PyStr.strip n); [eauto|].
    destruct (Z.ltb_spec z 0); [lia|].
    destruct (IH (t + z)) as [?|[?|(t' & ? & ? & ?)]]; eauto 8 with lia.
Qed.

(** X19. What the parser of [setodds] hands to [validate_outcomes]: names
    without blanks at either end and weights that are not negative.  Hence
    [setodds] answers a moderator in one of these ways only: the format
    message, the message that a weight is not an integer (quoting a part of
    the text), the validation messages for an empty list, an empty name or a
    sum other than 100 (a sum that [str] prints), or the confirmation after
    storing the list (the mapping written being one that can be encoded).
    Otherwise it raises [ValueError] with the state untouched and without an
    answer: from [int] on a weight, or from printing a sum of more digits
    than [str] allows.  It never answers that a weight is negative or that a
    key is missing. *)
Theorem setodds_replies (w : world) (st : state) (i : interaction) (odds : list N)
    (Hmod : is_mod i = true)
    (Hwritten : forallb written (trace (setodds i odds w st).2) = true) :
  (∀ parsed, parse_odds (odds_parts odds) [] = Ret (inr parsed) →
     Forall (fun nz : list N * Z => PyStr.strip nz.1 = nz.1 ∧ 0 ≤ nz.2) parsed)
  ∧ ((setodds i odds w st = (Raise ValueError, st)
      ∧ (parse_odds (odds_parts odds) [] = Raise ValueError
         ∨ ∃ parsed, parse_odds (odds_parts odds) [] = Ret (inr parsed)
                     ∧ PyInt.str_limit ≤ total_weight (entries parsed)
                     ∧ validate_outcomes (entries parsed) = Raise ValueError))
     ∨ (∃ text,
          (setodds i odds w st).2
          = {| cfg := cfg st; drawn := drawn st;
               trace := trace st ++ [Called (Respond text)] |}
          ∧ (text = Text.bad_format
             ∨ (∃ p, p ∈ odds_parts odds ∧ text = Text.weight_not_int p)
             ∨ text = Text.invalid Validate.msg_empty
             ∨ text = Text.invalid Validate.msg_name
             ∨ ∃ t, t ≠ 100 ∧ 0 ≤ t < PyInt.str_limit
                    ∧ text = Text.invalid (Validate.msg_total (PyStr.of_int t))))
     ∨ (∃ parsed evs,
          parse_odds (odds_parts odds) [] = Ret (inr parsed)
          ∧ validate_outcomes (entries parsed) = Ret (true, Validate.msg_ok)
          ∧ trace (setodds i odds w st).2
            = trace st ++ evs
              ++ [SaveConfig (cfg (setodds i odds w st).2);
                  Called (Respond (Text.odds_updated parsed))]
          ∧ Forall (fun e => ∀ c, e ≠ Called c) evs)).
Proof.
  split; [intros parsed; by apply parse_odds_normal|].
  assert (∃ g, i_guild i = Some g) as [g Hg].
  { unfold is_mod in Hmod. destruct (i_guild i); [eauto | done]. }
  destruct (parse_odds_result (odds_parts odds) []) as [[[text|parsed] Hparse]|Hparse].
  - right. left. exists text. split.
    + unfold setodds, as_moderator. rewrite Hg, Hmod. simpl.
      unfold mbind, M_bind, lift. rewrite Hparse. unfold_requests. by destruct (api w _).
    + apply parse_odds_reply in Hparse as [?|?]; eauto.
  - pose proof (parse_odds_normal _ [] parsed ltac:(done) Hparse) as Hnormal.
    assert (∀ msg, validate_outcomes (entries parsed) = Ret (false, msg) →
              (setodds i odds w st).2
              = {| cfg := cfg st; drawn := drawn st;
                   trace := trace st ++ [Called (Respond (Text.invalid msg))] |}) as Hrefused.
    { intros msg Hv. unfold setodds, as_moderator. rewrite Hg, Hmod. simpl.
      unfold mbind, M_bind, lift. rewrite Hparse, Hv. unfold_requests.
      by destruct (api w _). }
    destruct parsed as [|nz parsed].
    { right. left. exists (Text.invalid Validate.msg_empty). split; [by apply Hrefused|].
      eauto. }
    assert (validate_outcomes (entries (nz :: parsed))
            = validate_loop (entries (nz :: parsed)) 0) as Hloop by (by destruct nz).
    destruct (validate_parsed (nz :: parsed) Hnormal 0) as [Hv|[Hv|(t & Ht & Ht0 & Hv)]];
      rewrite <- Hloop in Hv.
    + right. right.
      destruct (setodds_accepted w st i odds g (nz :: parsed) Hg Hmod Hparse Hv)
        as (evs & Hrun & Hevs).
      exists (nz :: parsed), evs. rewrite Hrun. simpl. done.
    + right. left. exists (Text.invalid Validate.msg_name).
      split; [by apply Hrefused | eauto 6].
    + destruct (refuse_total_cases t) as [[Hsmall Hr]|[Hbig Hr]]; rewrite Hr in Hv.
      * right. left. exists (Text.invalid (Validate.msg_total (PyStr.of_int t))).
        split; [by apply Hrefused|]. do 4 right. exists t. split; [done|].
        split; [lia | done].
      * left. split.
        -- unfold setodds, as_moderator. rewrite Hg, Hmod. simpl.
           unfold mbind, M_bind, lift. by rewrite Hparse, Hv.
        -- right. exists (nz :: parsed). split; [done|]. split; [|done].
           by destruct (validate_outcomes_cases (entries (nz :: parsed)))
             as (_ & _ & _ & _ & _ & _ & _ & Hraise), (Hraise _ Hv) as (_ & _ & _ & ?).
  - left. split; [|by left]. unfold setodds, as_moderator. rewrite Hg, Hmod. simpl.
    unfold mbind, M_bind, lift. by rewrite Hparse.
Qed.

Lemma setodds_replies_witness :
  Forall (fun nz : list N * Z => PyStr.strip nz.1 = nz.1 ∧ 0 ≤ nz.2)
    [(lit "a", 40); (lit "b c", 60)]
  ∧ ∃ text,
      (setodds Example.moderator (lit " a =40;b c= 50 ") Example.the_world Example.set_up).2
      = {| cfg := cfg Example.set_up; drawn := 0;
           trace := [] ++ [Called (Respond text)] |}
      ∧ (text = Text.bad_format
         ∨ (∃ p, p ∈ odds_parts (lit " a =40;b c= 50 ") ∧ text = Text.weight_not_int p)
         ∨ text = Text.invalid Validate.msg_empty
         ∨ text = Text.invalid Validate.msg_name
         ∨ ∃ t, t ≠ 100 ∧ 0 ≤ t < PyInt.str_limit
                ∧ text = Text.invalid (Validate.msg_total (PyStr.of_int t))).
Proof.
  split.
  - apply (proj1 (setodds_replies Example.the_world Example.set_up Example.moderator
                    (lit " a =40;b c= 60 ") eq_refl ltac:(by vm_compute))).
    by vm_compute.
  - destruct (proj2 (setodds_replies Example.the_world Example.set_up Example.moderator
                       (lit " a =40;b c= 50 ") eq_refl ltac:(by vm_compute)))
      as [[Hraise _]|[Hreply|(parsed & evs & Hparse & Haccept & _)]].
    + by vm_compute in Hraise.
    + exact Hreply.
    + assert (parsed = [(lit "a", 40); (lit "b c", 50)]) as ->
        by (vm_compute in Hparse; congruence).
      by vm_compute in Haccept.
Defined.

(** ** Answers to the caller *)

Lemma responses_app l l' : responses (l ++ l') = responses l ++ responses l'.
Proof. unfold responses. apply omap_app. Qed.

Lemma quiet_ret {A} (a : A) w st : quiet (mret a) w st.
Proof. exists []. by rewrite app_nil_r. Qed.

Lemma quiet_lift {A} (r : result A) w st : quiet (lift r) w st.
Proof. exists []. by rewrite app_nil_r. Qed.

Lemma quiet_ask w st : quiet ask w st.
Proof. exists []. by rewrite app_nil_r. Qed.

Lemma quiet_request c w st : (∀ text, c ≠ Respond text) → quiet (request c) w st.
Proof.
  intros Hc. exists [Called c]. unfold request.
  split; [by destruct (api w c)|]. destruct c; try done. by destruct (Hc text).
Qed.

Lemma quiet_randbelow n w st : quiet (randbelow n) w st.
Proof. by exists [SecretsRandbelow n (entropy w (drawn st) `mod` n)]. Qed.

Lemma quiet_get_guild_config gid w st : quiet (get_guild_config gid) w st.
Proof.
  unfold quiet.
  destruct (get_guild_config_returns w st gid) as (st1 & -> & _ & [Htr|[c Htr]] & _); simpl.
  - exists []. by rewrite app_nil_r.
  - by exists [SaveConfig c].
Qed.

Lemma quiet_bind {A B} (m : M A) (f : A → M B) w st :
  quiet m w st → (∀ a st1, m w st = (Ret a, st1) → quiet (f a) w st1) →
  quiet (m ≫= f) w st.
Proof.
  intros (e1 & He1 & Hr1) Hf. unfold quiet, mbind, M_bind in *.
  destruct (m w st) as [[a|e|] st1] eqn:E; simpl in *; [|by exists e1..].
  destruct (Hf a st1 eq_refl) as (e2 & He2 & Hr2).
  exists (e1 ++ e2). rewrite He2, He1, app_assoc, responses_app, Hr1, Hr2. done.
Qed.

Lemma quiet_try {A} (body handler : M A) catches w st :
  quiet body w st → (∀ st1, quiet handler w st1) → quiet (try_except body catches handler) w st.
Proof.
  intros (e1 & He1 & Hr1) Hh. unfold quiet, try_except in *.
  destruct (body w st) as [[a|e|] st1] eqn:E; simpl in *; [by exists e1| |by exists e1].
  destruct (catches e); [|by exists e1].
  destruct (Hh st1) as (e2 & He2 & Hr2).
  exists (e1 ++ e2). rewrite He2, He1, app_assoc, responses_app, Hr1, Hr2. done.
Qed.

Lemma quiet_update_save gid f w st :
  quiet (update_guild gid f ≫= fun _ => save_config) w st.
Proof. by eexists [SaveConfig _]. Qed.

Lemma answered_respond text w st : answered (respond text) w st.
Proof.
  exists [Called (Respond text)]. unfold respond, request.
  destruct (api w (Respond text)); simpl; (split; [done|]).
  - right. split; [done | simpl; lia].
  - left. split; [done|]. by exists [], text.
Qed.

Lemma answered_bind {A} (m : M A) (f : A → M unit) w st :
  quiet m w st → (∀ a st1, m w st = (Ret a, st1) → answered (f a) w st1) →
  answered (m ≫= f) w st.
Proof.
  intros (e1 & He1 & Hr1) Hf. unfold answered, mbind, M_bind in *.
  destruct (m w st) as [[a|e|] st1] eqn:E; simpl in *.
  - destruct (Hf a st1 eq_refl) as (e2 & He2 & Hcase).
    exists (e1 ++ e2). rewrite He2, He1, app_assoc. split; [done|].
    destruct Hcase as [(Hret & pre & text & -> & Hpre)|(Hraise & Hlen)].
    + left. split; [done|]. exists (e1 ++ pre), text.
      rewrite app_assoc, responses_app, Hr1, Hpre. done.
    + right. split; [done|]. by rewrite responses_app, Hr1.
  - exists e1. split; [done|]. right. rewrite Hr1. split; [done | simpl; lia].
  - exists e1. split; [done|]. right. rewrite Hr1. split; [done | simpl; lia].
Qed.

Lemma answered_as_moderator i body w st :
  (∀ g, answered (body g) w st) → answered (as_moderator i body) w st.
Proof.
  intros Hbody. unfold as_moderator. destruct (i_guild i) as [g|];
    [|apply answered_respond].
  destruct (negb (is_mod i)); [apply answered_respond | apply Hbody].
Qed.

Lemma answered_configure gid f text w st :
  answered (update_guild gid f ≫= fun _ => save_config ≫= fun _ => respond text) w st.
Proof.
  apply answered_bind; [by exists []; rewrite app_nil_r|]. intros _ st1 _.
  apply answered_bind; [by eexists [SaveConfig _]|]. intros _ st2 _.
  apply answered_respond.
Qed.

Lemma answered_edit_log g gconf a t w st : answered (edit_log g gconf a t) w st.
Proof.
  unfold edit_log. destruct (negb (truthy (mod_channel_id gconf))); [apply answered_respond|].
  destruct (mod_channel_id gconf ≫= get_channel g) as [ch|]; [|apply answered_respond].
  destruct (negb (is_text_channel ch)); [apply answered_respond|].
  destruct (int_result a) as [[mid ->]| ->]; [|apply answered_respond].
  unfold answered, mbind, M_bind, try_except, respond, request, ask. simpl.
  destruct (api w (FetchMessage (channel_id ch) mid)) as [e|]; simpl;
    [destruct e; simpl|destruct (negb _); simpl];
    repeat match goal with
           | |- context [api w ?c] => destruct (api w c); simpl
           end;
    (eexists; split; [repeat rewrite <- app_assoc; simpl; reflexivity|]);
    first [ right; split; [done | simpl; lia]
          | left; split; [done|];
            first [by eexists [], _ | by eexists [_], _ | by eexists [_; _], _] ].
Qed.

Lemma quiet_dispatch p g gconf mid cid w st : quiet (dispatch p g gconf mid cid) w st.
Proof.
  unfold dispatch. apply quiet_bind.
  { destruct (get_member g (p_user_id p)); [apply quiet_ret|].
    apply quiet_bind; [by apply quiet_request|]. intros _ st1 _.
    apply quiet_bind; [apply quiet_ask|]. intros w' st2 _. apply quiet_ret. }
  intros u st1 _. apply quiet_bind.
  { unfold roll_d100. apply quiet_bind; [apply quiet_randbelow|]. intros r st2 _.
    apply quiet_ret. }
  intros d100 st2 _. apply quiet_bind.
  { unfold weighted_choice. apply quiet_bind; [apply quiet_randbelow|]. intros r st3 _.
    apply quiet_lift. }
  intros outcome st3 _. apply quiet_bind; [apply quiet_lift|]. intros shown st4 _.
  apply quiet_bind.
  { apply quiet_try; [|intros st5; apply quiet_ret].
    apply quiet_bind; [by apply quiet_request|]. intros _ st5 _. apply quiet_ret. }
  intros dm_ok st5 _. apply quiet_bind.
  { destruct (truthy (mod_channel_id gconf)); [|apply quiet_ret].
    destruct (mod_channel_id gconf ≫= get_channel g) as [mod_ch|]; [|apply quiet_ret].
    destruct (is_text_channel mod_ch); [by apply quiet_request | apply quiet_ret]. }
  intros _ st6 _. apply quiet_try; [|intros st7; apply quiet_ret].
  destruct (get_channel g (p_channel_id p)) as [ch|]; [|apply quiet_ret].
  destruct (is_text_channel ch); [|apply quiet_ret].
  apply quiet_bind; [by apply quiet_request|]. intros _ st7 _. by apply quiet_request.
Qed.

Lemma quiet_on_raw_reaction_add p w st : quiet (on_raw_reaction_add p) w st.
Proof.
  unfold quiet. rewrite on_raw_reaction_add_unfold.
  destruct (p_user_id p =? bot_user_id w); [apply (quiet_ret tt w st)|].
  destruct (event_guild w p) as [g|]; [|apply (quiet_ret tt w st)].
  apply (quiet_bind (get_guild_config (guild_id g)) (check_trigger p g));
    [apply quiet_get_guild_config|]. intros gconf st1 _.
  unfold check_trigger. destruct (_ || _); [apply quiet_ret|].
  destruct (trigger_message_id gconf) as [mid|]; [|apply quiet_ret].
  destruct (trigger_channel_id gconf) as [cid|]; [|apply quiet_ret].
  destruct (_ || _); [apply quiet_ret|].
  destruct (bool_decide _); [apply quiet_ret | apply quiet_dispatch].
Qed.

(** X20. A command answers its caller exactly once, as its last action, when
    it ends normally, and never more than once when it raises; the handler
    of reactions never answers anybody. *)
Theorem commands_answer_once (w : world) (o : op) (st : state) :
  match o with
  | Reaction p => quiet (on_raw_reaction_add p) w st
  | _ => answered (handle o) w st
  end.
Proof.
  destruct o; simpl.
  - apply answered_as_moderator. intros g.
    apply answered_bind; [apply quiet_get_guild_config|]. intros _ st1 _.
    apply answered_configure.
  - apply answered_as_moderator. intros g.
    apply answered_bind; [apply quiet_get_guild_config|]. intros _ st1 _.
    apply answered_configure.
  - apply answered_as_moderator. intros g.
    apply answered_bind; [apply quiet_lift|]. intros [text|parsed] st1 _.
    + apply answered_respond.
    + apply answered_bind; [apply quiet_lift|]. intros [[] msg] st2 _;
        [|apply answered_respond].
      apply answered_bind; [apply quiet_get_guild_config|]. intros _ st3 _.
      apply answered_configure.
  - apply answered_as_moderator. intros g.
    apply answered_bind; [apply quiet_get_guild_config|]. intros gconf st1 _.
    apply answered_bind; [by apply quiet_request|]. intros _ st2 _.
    apply answered_bind; [apply quiet_ask|]. intros w' st3 _.
    apply answered_bind.
    { apply quiet_try; [by apply quiet_request | intros st4; apply quiet_ret]. }
    intros _ st4 _. apply answered_configure.
  - unfold showodds. destruct (i_guild i) as [g|]; [|apply answered_respond].
    apply answered_bind; [apply quiet_get_guild_config|]. intros gconf st1 _.
    apply answered_bind; [apply quiet_lift|]. intros ls st2 _. apply answered_respond.
  - apply answered_as_moderator. intros g.
    apply answered_bind; [apply quiet_get_guild_config|]. intros gconf st1 _.
    apply answered_edit_log.
  - apply quiet_on_raw_reaction_add.
Qed.
